(** * mcp-gsuite: a shallow embedding of the Google Workspace MCP adapter

    The development follows the TypeScript sources: the Drive, Sheets and
    Docs adapters (request construction), the OAuth credential manager
    (services/auth.ts) and the tool dispatcher (server.ts).  Calls to the
    Google APIs, to the file system and to the clock are external; they are
    modelled as oracles threaded through the code, with a trace of the calls
    that were made. *)

From Stdlib Require Import ZArith Ascii String List Bool Lia.
From Stdlib Require Decimal DecimalString DecimalZ DecimalN DecimalPos.
From stdpp Require Import base option list strings gmap.

Local Open Scope Z_scope.
Set Warnings "-register-all".

(** ** Strings as JavaScript uses them *)

Module JsString.

(** [s.replace(/c/g, by)]: every occurrence of the character [c] is
    replaced by the string [by]. *)
Fixpoint replace_all (c : ascii) (by_ : string) (s : string) : string :=
  match s with
  | EmptyString => EmptyString
  | String a rest =>
      if Ascii.eqb a c then by_ +:+ replace_all c by_ rest
      else String a (replace_all c by_ rest)
  end.

(** [s.length] *)
Definition length (s : string) : Z := Z.of_nat (String.length s).

(** [parts.join(sep)] *)
Fixpoint join (sep : string) (parts : list string) : string :=
  match parts with
  | [] => EmptyString
  | [p] => p
  | p :: rest => p +:+ sep +:+ join sep rest
  end.

(** [s.split(c)] for a one-character separator: always at least one
    piece. *)
Fixpoint split (c : ascii) (s : string) : list string :=
  match s with
  | EmptyString => [EmptyString]
  | String a rest =>
      if Ascii.eqb a c then EmptyString :: split c rest
      else match split c rest with
           | [] => [String a EmptyString]
           | p :: ps => String a p :: ps
           end
  end.

End JsString.

(** ** JavaScript values and the JSON built-ins

    Values that come out of [JSON.parse] or go into [JSON.stringify].
    Numbers are modelled by the integers this code handles (millisecond
    timestamps, counts, indices); strings are sequences of one-byte code
    units.  [undefined] is the [None] of [value]. *)

Module Js.

Inductive json :=
| JNull
| JBool (b : bool)
| JNum (n : Z)
| JStr (s : string)
| JArr (items : list json)
| JObj (members : list (string * json)).

Definition value := option json.

Inductive error_class :=
| Error
| TypeError
| SyntaxError
| ZodError
| AuthenticationError
| LibraryError (name : string).

(** What an error can carry as its [cause], and what a [throw] of something
    other than an [Error] can throw: JSON data (or undefined), or one of the
    values [JSON.stringify] has no text for, an object that refers to itself
    and a BigInt. *)
Inductive payload :=
| Data (v : value)
| Circular
| BigInt (n : Z).

(** What a failed call leaves: a thrown instance of [Error] (its class, its
    message, its [code] and its [cause] when it has these properties), or
    any other thrown value. *)
Inductive thrown :=
| ThrowError (class : error_class) (message : string)
    (code : option string) (cause : option payload)
| ThrowValue (v : payload).

Inductive completion (A : Type) :=
| Return (a : A)
| Throw (e : thrown).
Arguments Return {A} a.
Arguments Throw {A} e.

Definition type_error (message : string) : thrown :=
  ThrowError TypeError message None None.

Definition is_empty (s : string) : bool :=
  match s with EmptyString => true | _ => false end.

(** ToBoolean *)
Definition truthy (v : value) : bool :=
  match v with
  | None => false
  | Some JNull => false
  | Some (JBool b) => b
  | Some (JNum n) => negb (n =? 0)
  | Some (JStr s) => negb (is_empty s)
  | Some (JArr _) => true
  | Some (JObj _) => true
  end.

(** The binding of a key in a member list; a later duplicate overrides an
    earlier one, as it does when [JSON.parse] builds the object. *)
Fixpoint assoc_last (k : string) (l : list (string * json)) : value :=
  match l with
  | [] => None
  | (k', v) :: rest =>
      match assoc_last k rest with
      | Some v' => Some v'
      | None => if String.eqb k' k then Some v else None
      end
  end.

(** [o.k] on a value that is neither null nor undefined, for a key that is
    not one of the built-in properties of strings and arrays. *)
Definition get (o : json) (k : string) : value :=
  match o with
  | JObj l => assoc_last k l
  | _ => None
  end.

(** [o.k] in general: reading a property of null or undefined throws. *)
Definition get_prop (o : value) (k : string) : completion value :=
  match o with
  | None => Throw (type_error "Cannot read properties of undefined")
  | Some JNull => Throw (type_error "Cannot read properties of null")
  | Some j => Return (get j k)
  end.

(** [o[0]] *)
Definition get_index0 (o : value) : completion value :=
  match o with
  | None => Throw (type_error "Cannot read properties of undefined")
  | Some JNull => Throw (type_error "Cannot read properties of null")
  | Some (JArr l) => Return (head l)
  | Some (JStr (String a _)) => Return (Some (JStr (String a EmptyString)))
  | Some (JObj l) => Return (assoc_last "0" l)
  | Some _ => Return None
  end.

(** Decimal numerals. *)
Definition number_to_string (n : Z) : string :=
  match Z.to_int n with
  | Decimal.Pos d => DecimalString.NilEmpty.string_of_uint d
  | Decimal.Neg d => String "-" (DecimalString.NilEmpty.string_of_uint d)
  end.

(** ToString, as a template literal applies it. *)
Fixpoint to_string (v : json) : string :=
  match v with
  | JNull => "null"
  | JBool true => "true"
  | JBool false => "false"
  | JNum n => number_to_string n
  | JStr s => s
  | JArr l =>
      (fix elems (l : list json) : string :=
         match l with
         | [] => EmptyString
         | x :: rest =>
             let e := match x with JNull => EmptyString | _ => to_string x end in
             match rest with
             | [] => e
             | _ :: _ => e +:+ "," +:+ elems rest
             end
         end) l
  | JObj _ => "[object Object]"
  end.

Definition value_to_string (v : value) : string :=
  match v with
  | None => "undefined"
  | Some j => to_string j
  end.

(** *** JSON.stringify *)

Definition dquote : ascii := "034"%char.
Definition backslash : ascii := "\"%char.
Definition newline : ascii := "010"%char.

Definition hex_digit (n : N) : ascii :=
  if (n <? 10)%N then ascii_of_N (48 + n) else ascii_of_N (87 + n).

(** QuoteJSONString, one code unit at a time. *)
Definition quote_char (a : ascii) : string :=
  let n := N_of_ascii a in
  if (n =? 34)%N then String backslash (String dquote EmptyString)
  else if (n =? 92)%N then String backslash (String backslash EmptyString)
  else if (n =? 8)%N then "\b"
  else if (n =? 9)%N then "\t"
  else if (n =? 10)%N then "\n"
  else if (n =? 12)%N then "\f"
  else if (n =? 13)%N then "\r"
  else if (n <? 32)%N then
    String backslash (String "u" (String "0" (String "0"
      (String (hex_digit (n / 16)) (String (hex_digit (n mod 16)) EmptyString)))))
  else String a EmptyString.

Fixpoint quote_body (s : string) : string :=
  match s with
  | EmptyString => EmptyString
  | String a rest => quote_char a +:+ quote_body rest
  end.

Definition quote (s : string) : string :=
  String dquote (quote_body s +:+ String dquote EmptyString).

Definition nl : string := String newline EmptyString.

(** SerializeJSONProperty with gap [gap] at indentation [indent]; the empty
    gap is the compact form. *)
Fixpoint stringify_at (gap indent : string) (v : json) : string :=
  let stepback := indent in
  let indent := indent +:+ gap in
  match v with
  | JNull => "null"
  | JBool true => "true"
  | JBool false => "false"
  | JNum n => number_to_string n
  | JStr s => quote s
  | JArr [] => "[]"
  | JArr (x :: rest) =>
      let sep := if is_empty gap then "," else "," +:+ nl +:+ indent in
      let body :=
        stringify_at gap indent x +:+
        (fix tail (l : list json) : string :=
           match l with
           | [] => EmptyString
           | y :: l' => sep +:+ stringify_at gap indent y +:+ tail l'
           end) rest in
      if is_empty gap then "[" +:+ body +:+ "]"
      else "[" +:+ nl +:+ indent +:+ body +:+ nl +:+ stepback +:+ "]"
  | JObj [] => "{}"
  | JObj ((k, x) :: rest) =>
      let colon := if is_empty gap then ":" else ": " in
      let sep := if is_empty gap then "," else "," +:+ nl +:+ indent in
      let body :=
        quote k +:+ colon +:+ stringify_at gap indent x +:+
        (fix tail (l : list (string * json)) : string :=
           match l with
           | [] => EmptyString
           | (k', y) :: l' =>
               sep +:+ quote k' +:+ colon +:+ stringify_at gap indent y +:+ tail l'
           end) rest in
      if is_empty gap then "{" +:+ body +:+ "}"
      else "{" +:+ nl +:+ indent +:+ body +:+ nl +:+ stepback +:+ "}"
  end.

(** [JSON.stringify(v)] *)
Definition stringify (v : json) : string := stringify_at EmptyString EmptyString v.

(** [JSON.stringify(v, null, 2)] *)
Definition stringify_pretty (v : json) : string := stringify_at "  " EmptyString v.

(** [JSON.stringify] of a value that may be undefined, inside a string
    concatenation. *)
Definition stringify_value (v : value) : string :=
  match v with
  | None => "undefined"
  | Some j => stringify j
  end.

(** The same of any payload: [JSON.stringify] throws a [TypeError] on an
    object that refers to itself and on a BigInt. *)
Definition stringify_payload (p : payload) : completion string :=
  match p with
  | Data v => Return (stringify_value v)
  | Circular => Throw (type_error "Converting circular structure to JSON")
  | BigInt _ => Throw (type_error "Do not know how to serialize a BigInt")
  end.

(** *** JSON.parse *)

Definition is_ws (a : ascii) : bool :=
  let n := N_of_ascii a in
  ((n =? 32) || (n =? 9) || (n =? 10) || (n =? 13))%N.

Fixpoint skip_ws (s : string) : string :=
  match s with
  | String a rest => if is_ws a then skip_ws rest else s
  | EmptyString => s
  end.

Definition digit_of (a : ascii) : option (Decimal.uint -> Decimal.uint) :=
  match N_of_ascii a with
  | 48%N => Some Decimal.D0 | 49%N => Some Decimal.D1 | 50%N => Some Decimal.D2
  | 51%N => Some Decimal.D3 | 52%N => Some Decimal.D4 | 53%N => Some Decimal.D5
  | 54%N => Some Decimal.D6 | 55%N => Some Decimal.D7 | 56%N => Some Decimal.D8
  | 57%N => Some Decimal.D9
  | _ => None
  end.

(** The longest run of digits at the head of the input. *)
Fixpoint scan_digits (s : string) : Decimal.uint * string :=
  match s with
  | EmptyString => (Decimal.Nil, s)
  | String a rest =>
      match digit_of a with
      | Some d => let '(ds, r) := scan_digits rest in (d ds, r)
      | None => (Decimal.Nil, s)
      end
  end.

(** Fractions and exponents are outside the integers of this model. *)
Definition starts_fraction (s : string) : bool :=
  match s with
  | String a _ =>
      (Ascii.eqb a "." || Ascii.eqb a "e" || Ascii.eqb a "E")%bool
  | EmptyString => false
  end.

(** An integer numeral: an optional minus sign, then either 0 or digits
    without a leading zero. *)
Definition parse_number (s : string) : option (Z * string) :=
  let '(negative, body) :=
    match s with
    | String "-" rest => (true, rest)
    | _ => (false, s)
    end in
  let '(ds, rest) := scan_digits body in
  if Decimal.uint_beq (Decimal.unorm ds) ds && negb (starts_fraction rest) then
    Some (Z.of_int (if negative then Decimal.Neg ds else Decimal.Pos ds), rest)
  else None.

Definition hex_value (a : ascii) : option N :=
  let n := N_of_ascii a in
  if ((48 <=? n) && (n <=? 57))%N then Some (n - 48)%N
  else if ((97 <=? n) && (n <=? 102))%N then Some (n - 87)%N
  else if ((65 <=? n) && (n <=? 70))%N then Some (n - 55)%N
  else None.

(** [\uXXXX]: a code unit, kept when it fits the one-byte strings of the
    model. *)
Definition unicode_escape (a b c d : ascii) : option ascii :=
  match hex_value a, hex_value b, hex_value c, hex_value d with
  | Some x, Some y, Some z, Some w =>
      let code := (((x * 16 + y) * 16 + z) * 16 + w)%N in
      if (code <? 256)%N then Some (ascii_of_N code) else None
  | _, _, _, _ => None
  end.

Definition simple_escape (a : ascii) : option ascii :=
  match N_of_ascii a with
  | 34%N => Some dquote
  | 92%N => Some backslash
  | 47%N => Some "/"%char
  | 98%N => Some "008"%char
  | 102%N => Some "012"%char
  | 110%N => Some "010"%char
  | 114%N => Some "013"%char
  | 116%N => Some "009"%char
  | _ => None
  end.

(** The characters of a string literal after its opening quote, up to and
    including the closing quote. *)
Fixpoint parse_string_body (s : string) : option (string * string) :=
  match s with
  | EmptyString => None
  | String a rest =>
      if Ascii.eqb a dquote then Some (EmptyString, rest)
      else if Ascii.eqb a backslash then
        match rest with
        | String "u" (String h1 (String h2 (String h3 (String h4 rest')))) =>
            match unicode_escape h1 h2 h3 h4, parse_string_body rest' with
            | Some c, Some (str, r) => Some (String c str, r)
            | _, _ => None
            end
        | String e rest' =>
            match simple_escape e, parse_string_body rest' with
            | Some c, Some (str, r) => Some (String c str, r)
            | _, _ => None
            end
        | EmptyString => None
        end
      else if (N_of_ascii a <? 32)%N then None
      else
        match parse_string_body rest with
        | Some (str, r) => Some (String a str, r)
        | None => None
        end
  end.

(** The input after the given word, when it starts with it. *)
Fixpoint expect (word : string) (s : string) : option string :=
  match word with
  | EmptyString => Some s
  | String w word' =>
      match s with
      | String a s' => if Ascii.eqb a w then expect word' s' else None
      | EmptyString => None
      end
  end.

(** The input after the character [a], when [a] is the next character
    that is not white space. *)
Definition next_is (a : ascii) (s : string) : option string :=
  match skip_ws s with
  | String c r => if Ascii.eqb c a then Some r else None
  | EmptyString => None
  end.

Fixpoint parse_value (fuel : nat) (s : string) {struct fuel} : option (json * string) :=
  match fuel with
  | O => None
  | S fuel' =>
      match skip_ws s with
      | EmptyString => None
      | String c rest =>
          if Ascii.eqb c "n" then
            match expect "ull" rest with Some r => Some (JNull, r) | None => None end
          else if Ascii.eqb c "t" then
            match expect "rue" rest with Some r => Some (JBool true, r) | None => None end
          else if Ascii.eqb c "f" then
            match expect "alse" rest with Some r => Some (JBool false, r) | None => None end
          else if Ascii.eqb c dquote then
            match parse_string_body rest with
            | Some (str, r) => Some (JStr str, r)
            | None => None
            end
          else if Ascii.eqb c "[" then
            match next_is "]" rest with
            | Some r => Some (JArr [], r)
            | None =>
                match parse_elements fuel' rest with
                | Some (l, r) => Some (JArr l, r)
                | None => None
                end
            end
          else if Ascii.eqb c "{" then
            match next_is "}" rest with
            | Some r => Some (JObj [], r)
            | None =>
                match parse_members fuel' rest with
                | Some (l, r) => Some (JObj l, r)
                | None => None
                end
            end
          else
            match parse_number (String c rest) with
            | Some (n, r) => Some (JNum n, r)
            | None => None
            end
      end
  end

with parse_elements (fuel : nat) (s : string) {struct fuel}
  : option (list json * string) :=
  match fuel with
  | O => None
  | S fuel' =>
      match parse_value fuel' s with
      | None => None
      | Some (v, r) =>
          match next_is "," r with
          | Some r' =>
              match parse_elements fuel' r' with
              | Some (l, r'') => Some (v :: l, r'')
              | None => None
              end
          | None =>
              match next_is "]" r with
              | Some r' => Some ([v], r')
              | None => None
              end
          end
      end
  end

with parse_members (fuel : nat) (s : string) {struct fuel}
  : option (list (string * json) * string) :=
  match fuel with
  | O => None
  | S fuel' =>
      match next_is dquote s with
      | None => None
      | Some r =>
          match parse_string_body r with
          | None => None
          | Some (k, r1) =>
              match next_is ":" r1 with
              | None => None
              | Some r2 =>
                  match parse_value fuel' r2 with
                  | None => None
                  | Some (v, r3) =>
                      match next_is "," r3 with
                      | Some r4 =>
                          match parse_members fuel' r4 with
                          | Some (l, r5) => Some ((k, v) :: l, r5)
                          | None => None
                          end
                      | None =>
                          match next_is "}" r3 with
                          | Some r4 => Some ([(k, v)], r4)
                          | None => None
                          end
                      end
                  end
              end
          end
      end
  end.

(** [JSON.parse(text)]: [None] stands for the SyntaxError.  Every call
    below the first is made after a character was read or goes one level
    down from a call that read one, so twice the length of the text is
    fuel enough. *)
Definition parse (text : string) : option json :=
  match parse_value (2 * String.length text + 2) text with
  | Some (v, r) => if is_empty (skip_ws r) then Some v else None
  | None => None
  end.

End Js.

(** ** The shape of printed JSON text

    What the statements about reading a printed value back are written
    with. *)

Module JsonText.
Import Js.

(** What may follow a numeral: not a digit, and not the start of a fraction
    or an exponent. *)
Definition number_end (rest : string) : bool :=
  match rest with
  | EmptyString => true
  | String a _ =>
      match digit_of a with Some _ => false | None => true end &&
      negb (starts_fraction rest)
  end.

(** Fuel that is enough to read a value back. *)
Fixpoint size (v : json) : nat :=
  match v with
  | JArr l => S (fold_right (fun x n => S (size x + n)) O l)
  | JObj l => S (fold_right (fun m n => S (size (snd m) + n)) O l)
  | _ => 1
  end.

Definition items_size (l : list json) : nat :=
  fold_right (fun x n => S (size x + n)) O l.
Definition members_size (l : list (string * json)) : nat :=
  fold_right (fun m n => S (size (snd m) + n)) O l.

Fixpoint spaces (s : string) : bool :=
  match s with
  | EmptyString => true
  | String a rest => Ascii.eqb a " " && spaces rest
  end.

(** The separator between two items, and what precedes the first and
    follows the last, for a gap and an indentation. *)
Definition separator (gap indent : string) : string :=
  if is_empty gap then "," else "," +:+ nl +:+ indent.
Definition opening (gap indent : string) : string :=
  if is_empty gap then EmptyString else nl +:+ indent.
Definition colon (gap : string) : string := if is_empty gap then ":" else ": ".

Definition items_tail (gap indent : string) : list json -> string :=
  fix tail (l : list json) : string :=
    match l with
    | [] => EmptyString
    | y :: l' => separator gap indent +:+ stringify_at gap indent y +:+ tail l'
    end.

Definition members_tail (gap indent : string) : list (string * json) -> string :=
  fix tail (l : list (string * json)) : string :=
    match l with
    | [] => EmptyString
    | (k', y) :: l' =>
        separator gap indent +:+ quote k' +:+ colon gap +:+
        stringify_at gap indent y +:+ tail l'
    end.

(** White space that [skip_ws] drops. *)
Definition blank (w : string) : Prop := forall s, skip_ws (w +:+ s) = skip_ws s.

(** The characters a printed value can start with. *)
Definition value_char (c : ascii) : bool :=
  match digit_of c with
  | Some _ => true
  | None =>
      Ascii.eqb c "n" || Ascii.eqb c "t" || Ascii.eqb c "f" || Ascii.eqb c dquote ||
      Ascii.eqb c "[" || Ascii.eqb c "{" || Ascii.eqb c "-"
  end.

Definition starts_value (s : string) : bool :=
  match s with
  | String c _ => value_char c
  | EmptyString => false
  end.

Definition number_char (c : ascii) : bool :=
  match digit_of c with Some _ => true | None => Ascii.eqb c "-" end.

(** The value printed with gap [gap], at any indentation and followed by
    any text that cannot continue a numeral, is read back with the text that
    follows it left over. *)
Definition reads_back (gap : string) (v : json) : Prop :=
  forall (indent rest : string) (fuel : nat),
    spaces indent = true -> (size v <= fuel)%nat -> number_end rest = true ->
    parse_value fuel (stringify_at gap indent v +:+ rest) = Some (v, rest).

End JsonText.

(** ** Drive adapter (services/drive.ts) *)

Module Drive.

Definition backslash : ascii := "\"%char.
Definition quote : ascii := "'"%char.

(** [query.replace(/\\/g, "\\\\").replace(/'/g, "\\'")] *)
Definition escapedQuery (query : string) : string :=
  JsString.replace_all quote "\'"
    (JsString.replace_all backslash "\\" query).

(** [`fullText contains '${escapedQuery}'`] *)
Definition formattedQuery (query : string) : string :=
  "fullText contains '" +:+ escapedQuery query +:+ "'".

Record SearchInput := { query : string; page_size : Z }.

Record FilesListParams := {
  q : string;
  pageSize : Z;
  fields : string
}.

Definition searchFiles_params (input : SearchInput) : FilesListParams :=
  {| q := formattedQuery (query input);
     pageSize := page_size input;
     fields := "files(id, name, mimeType, modifiedTime, size)" |}.

(** [files.list] of the Drive API, as far as [searchFiles] reads the
    answer: the [files] of the response, when it has them. *)
Definition Api := FilesListParams -> Js.completion (option (list Js.json)).

(** [searchFiles]: the completion and the request that was sent. *)
Definition searchFiles (api : Api) (input : SearchInput)
  : Js.completion (list Js.json) * list FilesListParams :=
  let params := searchFiles_params input in
  (match api params with
   | Js.Return (Some files) => Js.Return files
   | Js.Return None => Js.Return []
   | Js.Throw e => Js.Throw e
   end,
   [params]).

(** The Drive query grammar inside a quoted literal: a backslash takes the
    next character with it, and a quote that is not taken by a backslash
    ends the literal.  [literal_body s] holds when [s], read as the body of
    a literal, contains no terminating quote and does not end in a pending
    backslash (which would take the closing quote). *)
Fixpoint literal_body (s : string) : bool :=
  match s with
  | EmptyString => true
  | String a rest =>
      if Ascii.eqb a backslash then
        match rest with
        | EmptyString => false
        | String _ rest' => literal_body rest'
        end
      else if Ascii.eqb a quote then false
      else literal_body rest
  end.

(** Reading a literal body back: drop each escaping backslash. *)
Fixpoint unescape (s : string) : string :=
  match s with
  | EmptyString => EmptyString
  | String a rest =>
      if Ascii.eqb a backslash then
        match rest with
        | EmptyString => EmptyString
        | String b rest' => String b (unescape rest')
        end
      else String a (unescape rest)
  end.

(** One pass over the query that does what the two replacements do. *)
Fixpoint escape_pass (s : string) : string :=
  match s with
  | EmptyString => EmptyString
  | String a rest =>
      if Ascii.eqb a backslash then String backslash (String backslash (escape_pass rest))
      else if Ascii.eqb a quote then String backslash (String quote (escape_pass rest))
      else String a (escape_pass rest)
  end.

End Drive.

(** ** Sheets adapter (services/sheets.ts) *)

Module Sheets.
Import Js.

Record GridRange := {
  sheetId : Z;
  startRowIndex : Z;
  endRowIndex : Z;
  startColumnIndex : Z;
  endColumnIndex : Z
}.

(** [getGridRange]: the range string is split at "!" and neither piece is
    used. *)
Definition getGridRange (a1Range : string) : GridRange :=
  let pieces := JsString.split "!" a1Range in
  let sheetName := nth_error pieces 0 in
  let cellRange := nth_error pieces 1 in
  {| sheetId := 0;
     startRowIndex := 0;
     endRowIndex := 1000;
     startColumnIndex := 0;
     endColumnIndex := 26 |}.

Inductive Request :=
| repeatCell (range : GridRange) (userEnteredFormat : json) (fields : string)
| mergeCellsRequest (range : GridRange) (mergeType : string).

Record BatchUpdate := {
  spreadsheetId : string;
  requests : list Request
}.

Record FormatCells := {
  fc_spreadsheetId : string;
  fc_range : string;
  fc_format : json
}.

Record MergeCells := {
  mc_spreadsheetId : string;
  mc_range : string
}.

(** The [spreadsheets.batchUpdate] endpoint. *)
Definition Api := BatchUpdate -> completion unit.

Definition formatCells_request (input : FormatCells) : BatchUpdate :=
  {| spreadsheetId := fc_spreadsheetId input;
     requests :=
       [repeatCell (getGridRange (fc_range input)) (fc_format input)
          "userEnteredFormat"] |}.

Definition mergeCells_request (input : MergeCells) : BatchUpdate :=
  {| spreadsheetId := mc_spreadsheetId input;
     requests := [mergeCellsRequest (getGridRange (mc_range input)) "MERGE_ALL"] |}.

(** Each method returns its completion together with the requests it
    sent. *)
Definition formatCells (api : Api) (input : FormatCells)
  : completion unit * list BatchUpdate :=
  let request := formatCells_request input in
  (api request, [request]).

Definition mergeCells (api : Api) (input : MergeCells)
  : completion unit * list BatchUpdate :=
  let request := mergeCells_request input in
  (api request, [request]).

Definition range_of (r : Request) : GridRange :=
  match r with
  | repeatCell range _ _ => range
  | mergeCellsRequest range _ => range
  end.

(** The first thousand rows and twenty-six columns of the sheet with id 0. *)
Definition whole_first_sheet : GridRange :=
  {| sheetId := 0; startRowIndex := 0; endRowIndex := 1000;
     startColumnIndex := 0; endColumnIndex := 26 |}.

End Sheets.

(** ** Docs adapter (services/docs.ts)

    Two revisions of the adapter are in the sources.  [Docs] is the one that
    builds the requests from a content descriptor; [DocsRaw] is the one that
    forwards a list of requests as it is given. *)

Module Docs.
Import Js.

Inductive Heading := NORMAL | HEADING_1 | HEADING_2 | HEADING_3.
Inductive Alignment := START | CENTER | END_ | JUSTIFIED.
Inductive Direction := LEFT_TO_RIGHT | RIGHT_TO_LEFT.

Definition heading_name (h : Heading) : string :=
  match h with
  | NORMAL => "NORMAL" | HEADING_1 => "HEADING_1"
  | HEADING_2 => "HEADING_2" | HEADING_3 => "HEADING_3"
  end.

Definition alignment_name (a : Alignment) : string :=
  match a with
  | START => "START" | CENTER => "CENTER" | END_ => "END" | JUSTIFIED => "JUSTIFIED"
  end.

Definition direction_name (d : Direction) : string :=
  match d with
  | LEFT_TO_RIGHT => "LEFT_TO_RIGHT" | RIGHT_TO_LEFT => "RIGHT_TO_LEFT"
  end.

Record RGBColor := { red : option Z; green : option Z; blue : option Z }.

Record FontFamily := { family : string; weight : option Z }.

(** The [Style] descriptor; an absent field is [None]. *)
Record Style := {
  bold : option bool;
  italic : option bool;
  underline : option bool;
  strikethrough : option bool;
  fontSize : option Z;
  foregroundColor : option RGBColor;
  backgroundColor : option RGBColor;
  heading : option Heading;
  fontFamily : option FontFamily;
  alignment : option Alignment;
  lineSpacing : option Z;
  spaceAbove : option Z;
  spaceBelow : option Z;
  indentStart : option Z;
  indentEnd : option Z;
  indentFirstLine : option Z;
  direction : option Direction;
  keepLinesTogether : option bool;
  keepWithNext : option bool;
  pageBreakBefore : option bool
}.

Definition no_style : Style :=
  {| bold := None; italic := None; underline := None; strikethrough := None;
     fontSize := None; foregroundColor := None; backgroundColor := None;
     heading := None; fontFamily := None; alignment := None;
     lineSpacing := None; spaceAbove := None; spaceBelow := None;
     indentStart := None; indentEnd := None; indentFirstLine := None;
     direction := None; keepLinesTogether := None; keepWithNext := None;
     pageBreakBefore := None |}.

Record CoverPage := { title : string; subtitle : option string; date : option string }.
Record Headers := { default : option string; firstPage : option string }.
Record DocumentSection := { text : string; style : option Style }.
Record DocumentContent := {
  coverPage : option CoverPage;
  headers : option Headers;
  footer : option string;
  body : option (list DocumentSection)
}.

(** The [content] argument of an update: a string, one section, or a full
    descriptor ([typeof content === 'string'], ['text' in content]). *)
Inductive Content :=
| ContentString (s : string)
| ContentSection (section : DocumentSection)
| ContentFull (content : DocumentContent).

Record Dimension := { magnitude : Z; unit_ : string }.
Record WeightedFontFamily := { wf_fontFamily : string; wf_weight : Z }.

Record TextStyle := {
  ts_bold : option bool;
  ts_italic : option bool;
  ts_underline : option bool;
  ts_strikethrough : option bool;
  ts_fontSize : option Dimension;
  ts_foregroundColor : option RGBColor;
  ts_backgroundColor : option RGBColor;
  ts_weightedFontFamily : option WeightedFontFamily
}.

Definition empty_TextStyle : TextStyle :=
  {| ts_bold := None; ts_italic := None; ts_underline := None;
     ts_strikethrough := None; ts_fontSize := None; ts_foregroundColor := None;
     ts_backgroundColor := None; ts_weightedFontFamily := None |}.

Record ParagraphStyle := {
  ps_alignment : option string;
  ps_lineSpacing : option Z;
  ps_spaceAbove : option Dimension;
  ps_spaceBelow : option Dimension;
  ps_indentStart : option Dimension;
  ps_indentEnd : option Dimension;
  ps_indentFirstLine : option Dimension;
  ps_direction : option string;
  ps_keepLinesTogether : option bool;
  ps_keepWithNext : option bool;
  ps_pageBreakBefore : option bool;
  ps_namedStyleType : option string
}.

Definition empty_ParagraphStyle : ParagraphStyle :=
  {| ps_alignment := None; ps_lineSpacing := None; ps_spaceAbove := None;
     ps_spaceBelow := None; ps_indentStart := None; ps_indentEnd := None;
     ps_indentFirstLine := None; ps_direction := None;
     ps_keepLinesTogether := None; ps_keepWithNext := None;
     ps_pageBreakBefore := None; ps_namedStyleType := None |}.

Record Range := { startIndex : Z; endIndex : Z }.
Record Location := { segmentId : option string; index : Z }.

Inductive Request :=
| deleteContentRange (range : Range)
| insertText (location : Location) (text : string)
| updateTextStyle (range : Range) (textStyle : TextStyle) (fields : string)
| updateParagraphStyle (range : Range) (paragraphStyle : ParagraphStyle) (fields : string)
| insertPageBreak (location : Location)
| createHeader (type : string) (sectionBreakLocation : Location)
| createFooter (type : string) (sectionBreakLocation : Location).

Definition at_index (i : Z) : Location := {| segmentId := None; index := i |}.
Definition in_segment (seg : string) (i : Z) : Location :=
  {| segmentId := Some seg; index := i |}.

(** Truthiness of the optional fields. *)
Definition is_true (b : option bool) : bool :=
  match b with Some true => true | _ => false end.
Definition nonzero (n : option Z) : option Z :=
  match n with Some k => if k =? 0 then None else Some k | None => None end.
Definition nonempty (s : option string) : option string :=
  match s with Some t => if is_empty t then None else Some t | None => None end.

Definition present {A} (o : option A) : bool :=
  match o with Some _ => true | None => false end.

Definition pt (n : Z) : Dimension := {| magnitude := n; unit_ := "PT" |}.

(** [applyTextStyle]: each statement of the source sets one field of
    [textStyle] and pushes its name; the fields come back in the order of
    the statements. *)
Definition applyTextStyle (textStyle : TextStyle) (style : Style)
  : TextStyle * list string :=
  ({| ts_bold := if is_true (bold style) then Some true else ts_bold textStyle;
      ts_italic := if is_true (italic style) then Some true else ts_italic textStyle;
      ts_underline :=
        if is_true (underline style) then Some true else ts_underline textStyle;
      ts_strikethrough :=
        if is_true (strikethrough style) then Some true else ts_strikethrough textStyle;
      ts_fontSize :=
        match nonzero (fontSize style) with
        | Some n => Some (pt n)
        | None => ts_fontSize textStyle
        end;
      ts_foregroundColor :=
        match foregroundColor style with
        | Some c => Some c
        | None => ts_foregroundColor textStyle
        end;
      ts_backgroundColor :=
        match backgroundColor style with
        | Some c => Some c
        | None => ts_backgroundColor textStyle
        end;
      ts_weightedFontFamily :=
        match fontFamily style with
        | Some ff =>
            Some {| wf_fontFamily := family ff;
                    wf_weight := match nonzero (weight ff) with
                                 | Some w => w
                                 | None => 400
                                 end |}
        | None => ts_weightedFontFamily textStyle
        end |},
   (if is_true (bold style) then ["bold"] else []) ++
   (if is_true (italic style) then ["italic"] else []) ++
   (if is_true (underline style) then ["underline"] else []) ++
   (if is_true (strikethrough style) then ["strikethrough"] else []) ++
   (if present (nonzero (fontSize style)) then ["fontSize"] else []) ++
   (if present (foregroundColor style) then ["foregroundColor"] else []) ++
   (if present (backgroundColor style) then ["backgroundColor"] else []) ++
   (if present (fontFamily style) then ["weightedFontFamily"] else [])).

Definition dimension_of (n : option Z) (old : option Dimension) : option Dimension :=
  match nonzero n with
  | Some k => Some (pt k)
  | None => old
  end.

Definition or_old {A} (new old : option A) : option A :=
  match new with
  | Some a => Some a
  | None => old
  end.

(** [applyParagraphStyle] *)
Definition applyParagraphStyle (paragraphStyle : ParagraphStyle) (style : Style)
  : ParagraphStyle * list string :=
  ({| ps_alignment :=
        or_old (option_map alignment_name (alignment style)) (ps_alignment paragraphStyle);
      ps_lineSpacing := or_old (nonzero (lineSpacing style)) (ps_lineSpacing paragraphStyle);
      ps_spaceAbove := dimension_of (spaceAbove style) (ps_spaceAbove paragraphStyle);
      ps_spaceBelow := dimension_of (spaceBelow style) (ps_spaceBelow paragraphStyle);
      ps_indentStart := dimension_of (indentStart style) (ps_indentStart paragraphStyle);
      ps_indentEnd := dimension_of (indentEnd style) (ps_indentEnd paragraphStyle);
      ps_indentFirstLine :=
        dimension_of (indentFirstLine style) (ps_indentFirstLine paragraphStyle);
      ps_direction :=
        or_old (option_map direction_name (direction style)) (ps_direction paragraphStyle);
      ps_keepLinesTogether :=
        or_old (keepLinesTogether style) (ps_keepLinesTogether paragraphStyle);
      ps_keepWithNext := or_old (keepWithNext style) (ps_keepWithNext paragraphStyle);
      ps_pageBreakBefore :=
        or_old (pageBreakBefore style) (ps_pageBreakBefore paragraphStyle);
      ps_namedStyleType :=
        or_old (option_map heading_name (heading style)) (ps_namedStyleType paragraphStyle) |},
   (if present (alignment style) then ["alignment"] else []) ++
   (if present (nonzero (lineSpacing style)) then ["lineSpacing"] else []) ++
   (if present (nonzero (spaceAbove style)) then ["spaceAbove"] else []) ++
   (if present (nonzero (spaceBelow style)) then ["spaceBelow"] else []) ++
   (if present (nonzero (indentStart style)) then ["indentStart"] else []) ++
   (if present (nonzero (indentEnd style)) then ["indentEnd"] else []) ++
   (if present (nonzero (indentFirstLine style)) then ["indentFirstLine"] else []) ++
   (if present (direction style) then ["direction"] else []) ++
   (if present (keepLinesTogether style) then ["keepLinesTogether"] else []) ++
   (if present (keepWithNext style) then ["keepWithNext"] else []) ++
   (if present (pageBreakBefore style) then ["pageBreakBefore"] else []) ++
   (if present (heading style) then ["namedStyleType"] else [])).

Definition named (name : string) (align : option string) : ParagraphStyle :=
  {| ps_alignment := align; ps_lineSpacing := None; ps_spaceAbove := None;
     ps_spaceBelow := None; ps_indentStart := None; ps_indentEnd := None;
     ps_indentFirstLine := None; ps_direction := None;
     ps_keepLinesTogether := None; ps_keepWithNext := None;
     ps_pageBreakBefore := None; ps_namedStyleType := Some name |}.

Definition aligned (align : string) : ParagraphStyle :=
  {| ps_alignment := Some align; ps_lineSpacing := None; ps_spaceAbove := None;
     ps_spaceBelow := None; ps_indentStart := None; ps_indentEnd := None;
     ps_indentFirstLine := None; ps_direction := None;
     ps_keepLinesTogether := None; ps_keepWithNext := None;
     ps_pageBreakBefore := None; ps_namedStyleType := None |}.

(** The helpers below push onto the [requests] array they are given; each
    returns the array as it leaves it. *)

Definition addCoverPageRequests (requests : list Request) (coverPage : CoverPage)
  : list Request :=
  let currentIndex := 1 in
  let requests :=
    requests ++ [insertText (at_index currentIndex) (title coverPage +:+ nl)] in
  let currentIndex := currentIndex + (JsString.length (title coverPage) + 1) in
  let requests :=
    requests ++
    [updateParagraphStyle {| startIndex := 1; endIndex := currentIndex |}
       (named "TITLE" (Some "CENTER")) "namedStyleType,alignment"] in
  let '(requests, currentIndex) :=
    match nonempty (subtitle coverPage) with
    | Some sub =>
        let requests := requests ++ [insertText (at_index currentIndex) (sub +:+ nl)] in
        let subtitleStart := currentIndex in
        let currentIndex := currentIndex + (JsString.length sub + 1) in
        (requests ++
         [updateParagraphStyle
            {| startIndex := subtitleStart; endIndex := currentIndex |}
            (named "SUBTITLE" (Some "CENTER")) "namedStyleType,alignment"],
         currentIndex)
    | None => (requests, currentIndex)
    end in
  let '(requests, currentIndex) :=
    match nonempty (date coverPage) with
    | Some d =>
        let requests :=
          requests ++ [insertText (at_index currentIndex) (d +:+ nl +:+ nl)] in
        let dateStart := currentIndex in
        let currentIndex := currentIndex + (JsString.length d + 2) in
        (requests ++
         [updateParagraphStyle {| startIndex := dateStart; endIndex := currentIndex |}
            (aligned "CENTER") "alignment"],
         currentIndex)
    | None => (requests, currentIndex)
    end in
  requests ++ [insertPageBreak (at_index currentIndex)].

Definition addHeaderRequests (requests : list Request) (headers : Headers)
  : list Request :=
  let requests := requests ++ [createHeader "DEFAULT" (at_index 1)] in
  let requests :=
    match nonempty (default headers) with
    | Some h => requests ++ [insertText (in_segment "header" 0) h]
    | None => requests
    end in
  match nonempty (firstPage headers) with
  | Some h =>
      requests ++
      [createHeader "FIRST_PAGE" (at_index 1);
       insertText (in_segment "first_header" 0) h]
  | None => requests
  end.

Definition addFooterRequests (requests : list Request) (footer : string)
  : list Request :=
  requests ++
  [createFooter "DEFAULT" (at_index 1); insertText (in_segment "footer" 0) footer].

(** The requests for one styled run of text at [startIndex]. *)
Definition styleRequests (start finish : Z) (style : option Style) : list Request :=
  match style with
  | Some st =>
      let '(textStyle, textFields) := applyTextStyle empty_TextStyle st in
      let '(paragraphStyle, paragraphFields) :=
        applyParagraphStyle empty_ParagraphStyle st in
      (if (0 <? Z.of_nat (List.length textFields))
       then [updateTextStyle {| startIndex := start; endIndex := finish |}
               textStyle (JsString.join "," textFields)]
       else []) ++
      (if (0 <? Z.of_nat (List.length paragraphFields))
       then [updateParagraphStyle {| startIndex := start; endIndex := finish |}
               paragraphStyle (JsString.join "," paragraphFields)]
       else [])
  | None => []
  end.

Definition inserted_length (request : Request) : Z :=
  match request with
  | insertText _ text => if is_empty text then 0 else JsString.length text
  | _ => 0
  end.

Fixpoint addSections (requests : list Request) (currentIndex : Z)
    (body : list DocumentSection) : list Request :=
  match body with
  | [] => requests
  | section :: rest =>
      let requests :=
        requests ++ [insertText (at_index currentIndex) (text section)] in
      let requests :=
        requests ++
        styleRequests currentIndex (currentIndex + JsString.length (text section))
          (style section) in
      addSections requests (currentIndex + JsString.length (text section)) rest
  end.

Definition addBodyContentRequests (requests : list Request)
    (body : list DocumentSection) : list Request :=
  let currentIndex :=
    fold_left (fun i request => i + inserted_length request) requests 1 in
  addSections requests currentIndex body.

(** What [documents.get] returns, as far as the adapter reads it. *)
Record StructuralElement := { se_endIndex : option Z }.
Record Body := { content : option (list StructuralElement) }.
Record Document := { doc_body : option Body }.

(** [doc.data.body?.content?.[length - 1]?.endIndex || 1] *)
Definition lastEndIndex (doc : Document) : Z :=
  match doc_body doc with
  | Some b =>
      match content b with
      | Some elements =>
          match last elements with
          | Some e => match nonzero (se_endIndex e) with Some n => n | None => 1 end
          | None => 1
          end
      | None => 1
      end
  | None => 1
  end.

Record UpdateDocContentInput := {
  document_id : string;
  input_content : Content
}.

(** The [requests] array that [updateDocument] sends. *)
Definition updateDocument_requests (doc : Document) (content : Content)
  : list Request :=
  let requests :=
    [deleteContentRange {| startIndex := 1; endIndex := lastEndIndex doc |}] in
  match content with
  | ContentString s =>
      requests ++
      [insertText (at_index 1) s;
       updateParagraphStyle {| startIndex := 1; endIndex := JsString.length s + 1 |}
         (named "NORMAL_TEXT" None) "namedStyleType"]
  | ContentSection section =>
      let requests := requests ++ [insertText (at_index 1) (text section)] in
      requests ++ styleRequests 1 (JsString.length (text section) + 1) (style section)
  | ContentFull full =>
      let requests :=
        match coverPage full with
        | Some cp => addCoverPageRequests requests cp
        | None => requests
        end in
      let requests :=
        match headers full with
        | Some h => addHeaderRequests requests h
        | None => requests
        end in
      let requests :=
        match nonempty (footer full) with
        | Some f => addFooterRequests requests f
        | None => requests
        end in
      match body full with
      | Some b => addBodyContentRequests requests b
      | None => requests
      end
  end.

(** The style [{bold: true}] and the text style it turns into. *)
Definition bold_only : Style :=
  {| bold := Some true; italic := None; underline := None; strikethrough := None;
     fontSize := None; foregroundColor := None; backgroundColor := None;
     heading := None; fontFamily := None; alignment := None;
     lineSpacing := None; spaceAbove := None; spaceBelow := None;
     indentStart := None; indentEnd := None; indentFirstLine := None;
     direction := None; keepLinesTogether := None; keepWithNext := None;
     pageBreakBefore := None |}.

Definition bold_TextStyle : TextStyle :=
  {| ts_bold := Some true; ts_italic := None; ts_underline := None;
     ts_strikethrough := None; ts_fontSize := None; ts_foregroundColor := None;
     ts_backgroundColor := None; ts_weightedFontFamily := None |}.

Inductive Call :=
| documents_get (documentId : string)
| documents_batchUpdate (documentId : string) (requests : list Request).

Record Api := {
  get : string -> completion Document;
  batchUpdate : string -> list Request -> completion unit
}.

(** [updateDocument]: the completion and the calls that were made. *)
Definition updateDocument (api : Api) (input : UpdateDocContentInput)
  : completion unit * list Call :=
  match get api (document_id input) with
  | Throw e => (Throw e, [documents_get (document_id input)])
  | Return doc =>
      let requests := updateDocument_requests doc (input_content input) in
      (batchUpdate api (document_id input) requests,
       [documents_get (document_id input);
        documents_batchUpdate (document_id input) requests])
  end.

End Docs.

Module DocsRaw.
Import Js.

Record UpdateDocContentInput := {
  document_id : string;
  requests : list json
}.

Definition Api := string -> list json -> completion unit.

Definition updateDocument (api : Api) (input : UpdateDocContentInput)
  : completion unit * list (string * list json) :=
  (api (document_id input) (requests input),
   [(document_id input, requests input)]).

End DocsRaw.

(** ** Code that throws and keeps state

    A computation takes the state, completes (returns or throws) and leaves a
    state; [try_catch] is the try statement. *)

Module Effect.
Import Js.

Definition M (S A : Type) : Type := S -> completion A * S.

Section Ops.
Context {S : Type}.

Definition ret {A} (a : A) : M S A := fun st => (Return a, st).
Definition throw {A} (e : thrown) : M S A := fun st => (Throw e, st).
Definition bind {A B} (m : M S A) (k : A -> M S B) : M S B :=
  fun st =>
    match m st with
    | (Return a, st') => k a st'
    | (Throw e, st') => (Throw e, st')
    end.
Definition try_catch {A} (m : M S A) (handler : thrown -> M S A) : M S A :=
  fun st =>
    match m st with
    | (Return a, st') => (Return a, st')
    | (Throw e, st') => handler e st'
    end.
Definition read {A} (f : S -> A) : M S A := fun st => (Return (f st), st).
Definition update (f : S -> S) : M S unit := fun st => (Return tt, f st).
Definition lift {A} (c : completion A) : M S A := fun st => (c, st).
End Ops.

Notation "'let!' x ':=' m 'in' k" := (bind m (fun x => k))
  (at level 10, x name, m at level 100, k at level 200).
Notation "'do!' m 'in' k" := (bind m (fun _ => k))
  (at level 10, m at level 100, k at level 200).

End Effect.

(** ** Credential manager (services/auth.ts) *)

Module Auth.
Import Js Effect.

(** The file system: what is at a path. *)
Inductive node :=
| File (content : string)
| Directory.

(** The OAuth2 client object of google-auth-library, as far as this code
    reaches into it. *)
Record OAuth2Client := {
  clientId : value;
  clientSecret : value;
  redirectUri : value;
  client_credentials : json
}.

(** [new google.auth.OAuth2(id, secret, uri)] *)
Definition new_OAuth2 (id secret uri : value) : OAuth2Client :=
  {| clientId := id; clientSecret := secret; redirectUri := uri;
     client_credentials := JObj [] |}.

(** [client.setCredentials(credentials)] *)
Definition setCredentials (client : OAuth2Client) (credentials : json) : OAuth2Client :=
  {| clientId := clientId client; clientSecret := clientSecret client;
     redirectUri := redirectUri client; client_credentials := credentials |}.

(** What the code does not decide: the clock, the token endpoint, the
    interactive flow, the path library and the faults of the file
    system.  Of [path.dirname] one fact is used: the directory name of a
    path is no longer than the path, [.] for a path without directory
    apart. *)
Record Env := {
  now : N;
  coerced_gt : json -> Z -> bool;
  dirname : string -> string;
  dirname_shorter :
    forall path, (String.length (dirname path) <= Nat.max 1 (String.length path))%nat;
  refreshAccessToken : OAuth2Client -> completion (json * OAuth2Client);
  localAuth : string -> completion OAuth2Client;
  read_fault : string -> bool;
  write_fault : string -> bool;
  mkdir_fault : string -> bool
}.

Inductive Event :=
| RefreshAccessToken
| LocalAuth (keyfilePath : string)
| ReadFile (path : string)
| WriteFile (path : string) (content : string)
| MkDir (path : string).

(** The singleton's fields, the file system and the calls made so far.
    [credentials] is [JNull] while the field is null. *)
Record State := {
  auth : option OAuth2Client;
  credentials : json;
  fs : gmap string node;
  trace : list Event
}.

Definition with_auth (a : option OAuth2Client) (st : State) : State :=
  {| auth := a; credentials := credentials st; fs := fs st; trace := trace st |}.
Definition with_credentials (c : json) (st : State) : State :=
  {| auth := auth st; credentials := c; fs := fs st; trace := trace st |}.
Definition with_fs (f : gmap string node) (st : State) : State :=
  {| auth := auth st; credentials := credentials st; fs := f; trace := trace st |}.
Definition log (e : Event) (st : State) : State :=
  {| auth := auth st; credentials := credentials st; fs := fs st;
     trace := trace st ++ [e] |}.

Definition M (A : Type) : Type := Effect.M State A.

Definition authentication_error (message code : string) : thrown :=
  ThrowError AuthenticationError message (Some code) None.

Definition save_failed (credentialsPath : string) : thrown :=
  authentication_error
    ("Failed to save credentials to " +:+ credentialsPath +:+
     ". Please check file permissions.")
    "SAVE_FAILED".

Definition no_oauth_keys (oauthPath : string) : thrown :=
  authentication_error
    ("OAuth keys file not found at " +:+ oauthPath +:+
     ". Please set up your OAuth credentials first.")
    "NO_OAUTH_KEYS".

Definition load_failed : thrown :=
  authentication_error
    "Failed to load saved credentials. Please run `node dist/index.js auth` to re-authenticate."
    "LOAD_FAILED".

Definition no_credentials : thrown :=
  authentication_error
    "No saved credentials found. Please run `node dist/index.js auth` to authenticate."
    "NO_CREDENTIALS".

Definition invalid_state : thrown :=
  authentication_error
    "Authentication state is invalid. Please run `node dist/index.js auth` to re-authenticate."
    "INVALID_STATE".

Definition refresh_failed : thrown :=
  authentication_error
    "Failed to refresh access token. Your refresh token may have expired. Please run `node dist/index.js auth` to re-authenticate."
    "REFRESH_FAILED".

Definition no_refresh_token : thrown :=
  authentication_error
    "No refresh token available. Please run `node dist/index.js auth` to re-authenticate."
    "NO_REFRESH_TOKEN".

Definition auth_failed : thrown :=
  authentication_error
    "Failed to complete browser-based authentication. Please try again."
    "AUTH_FAILED".

Definition is_AuthenticationError (e : thrown) : bool :=
  match e with
  | ThrowError AuthenticationError _ _ _ => true
  | _ => false
  end.

(** [fs.existsSync] *)
Definition existsSync (path : string) : M bool :=
  read (fun st => match fs st !! path with Some _ => true | None => false end).

Definition io_error (code : string) : thrown :=
  ThrowError (LibraryError "Error") code (Some code) None.

(** The directories above [dir]: its directory name, the directory name of
    that, and so on for as long as the names get shorter and name
    something. *)
Fixpoint ancestors_within (fuel : nat) (env : Env) (dir : string) : list string :=
  match fuel with
  | O => []
  | S fuel =>
      let parent := dirname env dir in
      if (String.length parent <? String.length dir)%nat && negb (is_empty parent)
      then parent :: ancestors_within fuel env parent
      else []
  end.

Definition ancestors (env : Env) (dir : string) : list string :=
  ancestors_within (String.length dir) env dir.

(** A directory at each of the paths that has nothing yet. *)
Definition make_missing (dirs : list string) (files : gmap string node)
  : gmap string node :=
  fold_right
    (fun dir files =>
       match files !! dir with
       | None => <[dir := Directory]> files
       | Some _ => files
       end)
    files dirs.

(** [fs.mkdirSync(dir, { recursive: true })]: the directory is made, and so
    is every directory above it that is missing. *)
Definition mkdirSync (env : Env) (dir : string) : M unit :=
  do! update (log (MkDir dir)) in
  if mkdir_fault env dir then throw (io_error "EACCES")
  else update (fun st =>
         with_fs (<[dir := Directory]> (make_missing (ancestors env dir) (fs st))) st).

(** [fs.promises.readFile(path, 'utf-8')] *)
Definition readFile (env : Env) (path : string) : M string :=
  do! update (log (ReadFile path)) in
  let! node := read (fun st => fs st !! path) in
  match node with
  | Some (File content) =>
      if read_fault env path then throw (io_error "EACCES") else ret content
  | Some Directory => throw (io_error "EISDIR")
  | None => throw (io_error "ENOENT")
  end.

(** [fs.promises.writeFile(path, content)] *)
Definition writeFile (env : Env) (path content : string) : M unit :=
  do! update (log (WriteFile path content)) in
  let! node := read (fun st => fs st !! path) in
  match node with
  | Some Directory => throw (io_error "EISDIR")
  | _ =>
      if write_fault env path then throw (io_error "EACCES")
      else update (fun st => with_fs (<[path := File content]> (fs st)) st)
  end.

(** [JSON.parse] with its SyntaxError. *)
Definition JSON_parse (text : string) : M json :=
  match parse text with
  | Some j => ret j
  | None => throw (ThrowError SyntaxError "Unexpected token" None None)
  end.

Section Service.
Variable env : Env.
Variables credentialsPath oauthPath : string.

Definition ensureDirectory (filePath : string) : M unit :=
  let dir := dirname env filePath in
  let! present := existsSync dir in
  if negb present then mkdirSync env dir else ret tt.

Definition saveCredentials (credentials : json) : M unit :=
  try_catch
    (do! ensureDirectory credentialsPath in
     writeFile env credentialsPath (stringify_pretty credentials))
    (fun error =>
       throw (save_failed credentialsPath)).

(** The three arguments of the constructor, read from the parsed client
    configuration. *)
Definition oauth_arguments (oauthConfig : json) : completion (value * value * value) :=
  match get_prop (Some oauthConfig) "installed" with
  | Throw e => Throw e
  | Return installed =>
      match get_prop installed "client_id" with
      | Throw e => Throw e
      | Return client_id =>
          match get_prop installed "client_secret" with
          | Throw e => Throw e
          | Return client_secret =>
              match get_prop installed "redirect_uris" with
              | Throw e => Throw e
              | Return redirect_uris =>
                  match get_index0 redirect_uris with
                  | Throw e => Throw e
                  | Return uri => Return (client_id, client_secret, uri)
                  end
              end
          end
      end
  end.

(** [loadSavedCredentials]: [None] is the null result. *)
Definition loadSavedCredentials : M (option OAuth2Client) :=
  try_catch
    (let! has_credentials := existsSync credentialsPath in
     if negb has_credentials then ret None
     else
       let! has_keys := existsSync oauthPath in
       if negb has_keys then
         throw (no_oauth_keys oauthPath)
       else
         let! content := readFile env credentialsPath in
         let! credentials := JSON_parse content in
         let! config_text := readFile env oauthPath in
         let! oauthConfig := JSON_parse config_text in
         let! arguments := lift (oauth_arguments oauthConfig) in
         let '(client_id, client_secret, uri) := arguments in
         let client := setCredentials (new_OAuth2 client_id client_secret uri) credentials in
         do! update (with_auth (Some client)) in
         do! update (with_credentials credentials) in
         ret (Some client))
    (fun error =>
       if is_AuthenticationError error then throw error
       else
         throw load_failed).

Definition fiveMinutes : Z := 5 * 60 * 1000.

(** [expiryDate && expiryDate > Date.now() + fiveMinutes]; the
    comparison of a value that is not a number goes through the
    coercion of the language. *)
Definition not_expiring (expiryDate : value) : bool :=
  truthy expiryDate &&
  match expiryDate with
  | Some (JNum e) => Z.of_N (now env) + fiveMinutes <? e
  | Some j => coerced_gt env j (Z.of_N (now env) + fiveMinutes)
  | None => false
  end.

(** [!this.auth || !this.credentials] *)
Definition missing (st : State) : bool :=
  match auth st with
  | None => true
  | Some _ => negb (truthy (Some (credentials st)))
  end.

(** [this.auth.refreshAccessToken()]: the library answers with the new
    credentials and leaves them in the client object, which [this.auth]
    still refers to. *)
Definition refresh (client : OAuth2Client) : M (json * OAuth2Client) :=
  do! update (log RefreshAccessToken) in
  match refreshAccessToken env client with
  | Throw e => throw e
  | Return (fresh, client') =>
      do! update (with_auth (Some client')) in
      ret (fresh, client')
  end.

Definition authenticate : M OAuth2Client :=
  let! absent := read missing in
  do! (if absent then
         let! loadedAuth := loadSavedCredentials in
         match loadedAuth with
         | None =>
             throw no_credentials
         | Some _ => ret tt
         end
       else ret tt) in
  let! this_auth := read auth in
  let! held := read credentials in
  match this_auth with
  | None => throw invalid_state
  | Some client =>
      if negb (truthy (Some held)) then throw invalid_state
      else
        let expiryDate := get held "expiry_date" in
        if not_expiring expiryDate then ret client
        else if truthy (get held "refresh_token") then
          try_catch
            (let! response := refresh client in
             do! update (with_credentials (fst response)) in
             do! saveCredentials (fst response) in
             ret (snd response))
            (fun error =>
               throw refresh_failed)
        else
          throw no_refresh_token
  end.

Definition performFullAuthentication : M OAuth2Client :=
  let! has_keys := existsSync oauthPath in
  if negb has_keys then
    throw (no_oauth_keys oauthPath)
  else
    try_catch
      (let! config_text := readFile env oauthPath in
       let! oauthConfig := JSON_parse config_text in
       let! arguments := lift (oauth_arguments oauthConfig) in
       let '(client_id, client_secret, uri) := arguments in
       do! update (with_auth (Some (new_OAuth2 client_id client_secret uri))) in
       do! update (log (LocalAuth oauthPath)) in
       let! client := lift (localAuth env oauthPath) in
       do! update (with_auth (Some client)) in
       do! update (with_credentials (client_credentials client)) in
       do! saveCredentials (client_credentials client) in
       ret client)
      (fun error =>
         throw auth_failed).

(** [getAuth] *)
Definition getAuth : M (option OAuth2Client) := read auth.

End Service.

(** How often the token endpoint was called, and the writes that were
    attempted, in a trace. *)
Definition is_refresh (e : Event) : bool :=
  match e with RefreshAccessToken => true | _ => false end.

Definition is_write (e : Event) : bool :=
  match e with WriteFile _ _ => true | _ => false end.

Definition refresh_calls (t : list Event) : nat :=
  List.length (List.filter is_refresh t).

Definition writes (t : list Event) : list Event := List.filter is_write t.

Definition initial (files : gmap string node) : State :=
  {| auth := None; credentials := JNull; fs := files; trace := [] |}.

(** A credential record at or past the margin: its expiry, when it has one,
    is a number no later than five minutes from now. *)
Definition within_margin (env : Env) (record : json) : Prop :=
  match get record "expiry_date" with
  | Some (JNum e) => e <= Z.of_N (now env) + 5 * 60 * 1000
  | Some JNull | None => True
  | Some _ => False
  end.

End Auth.

(** ** Argument validation (the zod schemas of types/schemas.ts) *)

Module Zod.
Import Js.

Inductive schema :=
| z_string
| z_number (min max : option Z)
| z_boolean
| z_any
| z_buffer
| z_enum (options : list string)
| z_array (item : schema)
| z_object (shape : list (string * schema))
| z_union (alternatives : list schema)
| z_optional (inner : schema)
| z_default (inner : schema) (value : json).

Definition in_bounds (min max : option Z) (n : Z) : bool :=
  match min with Some lo => lo <=? n | None => true end &&
  match max with Some hi => n <=? hi | None => true end.

Definition member (s : string) (l : list string) : bool :=
  existsb (String.eqb s) l.

(** [schema.parse(data)]: [None] is the ZodError; [Some v] is the parsed
    output.  An object keeps the keys of its shape and drops the others; an
    optional or [any] field accepts undefined; a default fills it in. *)
Fixpoint parse (s : schema) (data : value) {struct s} : option value :=
  match s with
  | z_string =>
      match data with Some (JStr _) => Some data | _ => None end
  | z_number min max =>
      match data with
      | Some (JNum n) => if in_bounds min max n then Some data else None
      | _ => None
      end
  | z_boolean =>
      match data with Some (JBool _) => Some data | _ => None end
  | z_any => Some data
  | z_buffer => None
  | z_enum options =>
      match data with
      | Some (JStr x) => if member x options then Some data else None
      | _ => None
      end
  | z_array item =>
      match data with
      | Some (JArr l) =>
          option_map (fun ys => Some (JArr ys))
          ((fix each (l : list json) : option (list json) :=
             match l with
             | [] => Some []
             | x :: rest =>
                 match parse item (Some x), each rest with
                 | Some (Some y), Some ys => Some (y :: ys)
                 | _, _ => None
                 end
             end) l)
      | _ => None
      end
  | z_object shape =>
      match data with
      | Some (JObj l) =>
          option_map (fun ys => Some (JObj ys))
          ((fix fields (shape : list (string * schema))
             : option (list (string * json)) :=
             match shape with
             | [] => Some []
             | (k, field) :: rest =>
                 match parse field (assoc_last k l), fields rest with
                 | Some (Some y), Some ys => Some ((k, y) :: ys)
                 | Some None, Some ys => Some ys
                 | _, _ => None
                 end
             end) shape)
      | _ => None
      end
  | z_union alternatives =>
      (fix first (alts : list schema) : option value :=
         match alts with
         | [] => None
         | alt :: rest =>
             match parse alt data with
             | Some v => Some v
             | None => first rest
             end
         end) alternatives
  | z_optional inner =>
      match data with
      | None => Some None
      | Some _ => parse inner data
      end
  | z_default inner value =>
      match data with
      | None => parse inner (Some value)
      | Some _ => parse inner data
      end
  end.

Definition optional_ (s : schema) : schema := z_optional s.
Definition number : schema := z_number None None.
Definition unit_interval : schema := z_number (Some 0) (Some 1).

Definition SearchInputSchema : schema :=
  z_object [("query", z_string); ("page_size", z_default number (JNum 10))].

Definition CreateDocInputSchema : schema :=
  z_object [("title", z_string)].

Definition GetDocContentInputSchema : schema :=
  z_object [("document_id", z_string)].

Definition UpdateDocContentInputSchema : schema :=
  z_object [("document_id", z_string); ("requests", z_array z_any)].

Definition SheetsColorSchema : schema :=
  z_object [("red", unit_interval); ("green", unit_interval);
            ("blue", unit_interval); ("alpha", z_optional unit_interval)].

Definition BorderSchema : schema :=
  z_object [("style", z_enum ["SOLID"; "DOTTED"; "DASHED"]);
            ("color", SheetsColorSchema)].

Definition CellFormatSchema : schema :=
  z_object
    [("backgroundColor", z_optional SheetsColorSchema);
     ("textFormat",
      z_optional (z_object
        [("foregroundColor", z_optional SheetsColorSchema);
         ("fontFamily", z_optional z_string);
         ("fontSize", z_optional number);
         ("bold", z_optional z_boolean);
         ("italic", z_optional z_boolean);
         ("strikethrough", z_optional z_boolean);
         ("underline", z_optional z_boolean)]));
     ("horizontalAlignment", z_optional (z_enum ["LEFT"; "CENTER"; "RIGHT"]));
     ("verticalAlignment", z_optional (z_enum ["TOP"; "MIDDLE"; "BOTTOM"]));
     ("borders",
      z_optional (z_object
        [("top", z_optional BorderSchema);
         ("bottom", z_optional BorderSchema);
         ("left", z_optional BorderSchema);
         ("right", z_optional BorderSchema)]));
     ("numberFormat",
      z_optional (z_object
        [("type", z_enum ["TEXT"; "NUMBER"; "CURRENCY"; "DATE"; "TIME";
                          "DATETIME"; "PERCENTAGE"]);
         ("pattern", z_optional z_string)]))].

Definition CreateSpreadsheetSchema : schema :=
  z_object
    [("title", z_string);
     ("sheets",
      z_optional (z_array (z_object
        [("title", z_string);
         ("gridProperties",
          z_optional (z_object
            [("rowCount", z_optional (z_number (Some 1) None));
             ("columnCount", z_optional (z_number (Some 1) None));
             ("frozenRowCount", z_optional (z_number (Some 0) None));
             ("frozenColumnCount", z_optional (z_number (Some 0) None))]))])))].

Definition MajorDimension : schema := z_enum ["ROWS"; "COLUMNS"].

Definition UpdateValuesSchema : schema :=
  z_object [("spreadsheetId", z_string); ("range", z_string);
            ("values", z_array (z_array z_string));
            ("majorDimension", z_optional MajorDimension)].

Definition FormatCellsSchema : schema :=
  z_object [("spreadsheetId", z_string); ("range", z_string);
            ("format", CellFormatSchema)].

Definition DimensionOperationSchema : schema :=
  z_object [("spreadsheetId", z_string); ("sheetId", number);
            ("dimension", MajorDimension); ("startIndex", number);
            ("endIndex", z_optional number);
            ("operation", z_enum ["INSERT"; "DELETE"; "RESIZE"]);
            ("size", z_optional number)].

Definition MergeCellsSchema : schema :=
  z_object [("spreadsheetId", z_string); ("range", z_string)].

Definition GetValuesSchema : schema :=
  z_object [("spreadsheetId", z_string); ("range", z_string);
            ("majorDimension", z_optional MajorDimension)].

Definition CreateFolderSchema : schema :=
  z_object [("name", z_string); ("parents", z_optional (z_array z_string));
            ("description", z_optional z_string)].

Definition CreateFileSchema : schema :=
  z_object [("name", z_string); ("mimeType", z_string);
            ("parents", z_optional (z_array z_string));
            ("description", z_optional z_string);
            ("content", z_union [z_string; z_buffer])].

Definition UpdateFileSchema : schema :=
  z_object [("fileId", z_string); ("content", z_union [z_string; z_buffer]);
            ("mimeType", z_string)].

Definition GetFileSchema : schema :=
  z_object [("fileId", z_string); ("fields", z_optional z_string)].

Definition ListFilesSchema : schema :=
  z_object [("query", z_optional z_string); ("pageSize", z_optional number);
            ("fields", z_optional z_string); ("orderBy", z_optional z_string)].

Definition UpdateFileMetadataSchema : schema :=
  z_object [("fileId", z_string); ("name", z_optional z_string);
            ("description", z_optional z_string);
            ("mimeType", z_optional z_string);
            ("addParents", z_optional (z_array z_string));
            ("removeParents", z_optional (z_array z_string))].

End Zod.

(** ** The advertised input schemas (JSON Schema, as server.ts lists them) *)

Module JsonSchema.
Import Js.

Inductive schema :=
| Schema (type : option string)
    (properties : list (string * schema))
    (required : list string)
    (anyOf : option (list schema))
    (items : option schema)
    (minimum maximum : option Z).

Definition has_type (type : option string) (j : json) : bool :=
  match type with
  | None => true
  | Some t =>
      match j with
      | JNull => String.eqb t "null"
      | JBool _ => String.eqb t "boolean"
      | JNum _ => String.eqb t "number" || String.eqb t "integer"
      | JStr _ => String.eqb t "string"
      | JArr _ => String.eqb t "array"
      | JObj _ => String.eqb t "object"
      end
  end.

Definition has_key (l : list (string * json)) (k : string) : bool :=
  match assoc_last k l with Some _ => true | None => false end.

(** Validation: each keyword constrains the instances of the kind it
    speaks about and lets the others through; a property that the schema
    does not name is allowed. *)
Fixpoint valid (s : schema) (j : json) {struct s} : bool :=
  match s with
  | Schema type properties required anyOf items minimum maximum =>
      has_type type j &&
      match j with
      | JObj l =>
          (fix props (ps : list (string * schema)) : bool :=
             match ps with
             | [] => true
             | (k, sub) :: rest =>
                 match assoc_last k l with
                 | Some v => valid sub v
                 | None => true
                 end && props rest
             end) properties
          && forallb (has_key l) required
      | _ => true
      end &&
      match anyOf with
      | Some alternatives =>
          (fix some (alts : list schema) : bool :=
             match alts with
             | [] => false
             | alt :: rest => valid alt j || some rest
             end) alternatives
      | None => true
      end &&
      match items, j with
      | Some item, JArr l => forallb (valid item) l
      | _, _ => true
      end &&
      match j with
      | JNum n =>
          match minimum with Some lo => lo <=? n | None => true end &&
          match maximum with Some hi => n <=? hi | None => true end
      | _ => true
      end
  end.

Definition of_type (t : string) : schema :=
  Schema (Some t) [] [] None None None None.
Definition string_ : schema := of_type "string".
Definition number : schema := of_type "number".
Definition boolean : schema := of_type "boolean".
Definition object (properties : list (string * schema)) (required : list string)
  : schema :=
  Schema (Some "object") properties required None None None None.
Definition array (item : schema) : schema :=
  Schema (Some "array") [] [] None (Some item) None None.
Definition any_of (alternatives : list schema) : schema :=
  Schema None [] [] (Some alternatives) None None None.
Definition number_between (lo hi : Z) : schema :=
  Schema (Some "number") [] [] None None (Some lo) (Some hi).

Definition color : schema :=
  object [("red", number_between 0 1); ("green", number_between 0 1);
          ("blue", number_between 0 1)] [].

Definition section_style : schema :=
  object [("bold", boolean); ("italic", boolean); ("fontSize", number);
          ("foregroundColor", color)] [].

Definition section : schema :=
  object [("text", string_); ("style", section_style)] ["text"].

(** The input schema advertised for [docs_update_content]. *)
Definition docs_update_content_inputSchema : schema :=
  object
    [("document_id", string_);
     ("content",
      any_of
        [string_;
         section;
         object
           [("coverPage",
             object [("title", string_); ("subtitle", string_); ("date", string_)]
               ["title"]);
            ("headers", object [("default", string_); ("firstPage", string_)] []);
            ("footer", string_);
            ("body", array section)]
           []])]
    ["document_id"; "content"].

End JsonSchema.

(** ** Tool dispatcher (server.ts) *)

Module Server.
Import Js Effect.

Inductive Tool :=
| search
| drive_create_folder
| drive_create_file
| drive_update_file
| drive_get_file
| drive_list_files
| drive_update_metadata
| docs_create
| docs_get_content
| docs_update_content
| sheets_create
| sheets_update_values
| sheets_format_cells
| sheets_dimension_operation
| sheets_merge_cells
| sheets_get_values.

Definition tool_name (t : Tool) : string :=
  match t with
  | search => "search"
  | drive_create_folder => "drive_create_folder"
  | drive_create_file => "drive_create_file"
  | drive_update_file => "drive_update_file"
  | drive_get_file => "drive_get_file"
  | drive_list_files => "drive_list_files"
  | drive_update_metadata => "drive_update_metadata"
  | docs_create => "docs_create"
  | docs_get_content => "docs_get_content"
  | docs_update_content => "docs_update_content"
  | sheets_create => "sheets_create"
  | sheets_update_values => "sheets_update_values"
  | sheets_format_cells => "sheets_format_cells"
  | sheets_dimension_operation => "sheets_dimension_operation"
  | sheets_merge_cells => "sheets_merge_cells"
  | sheets_get_values => "sheets_get_values"
  end.

(** The names of the catalog that the list-tools handler returns, in its
    order. *)
Definition catalog : list string :=
  ["search"; "drive_create_folder"; "drive_create_file"; "drive_update_file";
   "drive_get_file"; "drive_list_files"; "drive_update_metadata";
   "docs_create"; "docs_get_content"; "docs_update_content";
   "sheets_create"; "sheets_update_values"; "sheets_format_cells";
   "sheets_dimension_operation"; "sheets_merge_cells"; "sheets_get_values"].

(** The [case] labels of the call-tool handler's switch. *)
Definition tool_of_name (name : string) : option Tool :=
  if String.eqb name "search" then Some search
  else if String.eqb name "drive_create_folder" then Some drive_create_folder
  else if String.eqb name "drive_create_file" then Some drive_create_file
  else if String.eqb name "drive_update_file" then Some drive_update_file
  else if String.eqb name "drive_get_file" then Some drive_get_file
  else if String.eqb name "drive_list_files" then Some drive_list_files
  else if String.eqb name "drive_update_metadata" then Some drive_update_metadata
  else if String.eqb name "docs_create" then Some docs_create
  else if String.eqb name "docs_get_content" then Some docs_get_content
  else if String.eqb name "docs_update_content" then Some docs_update_content
  else if String.eqb name "sheets_create" then Some sheets_create
  else if String.eqb name "sheets_update_values" then Some sheets_update_values
  else if String.eqb name "sheets_format_cells" then Some sheets_format_cells
  else if String.eqb name "sheets_dimension_operation"
    then Some sheets_dimension_operation
  else if String.eqb name "sheets_merge_cells" then Some sheets_merge_cells
  else if String.eqb name "sheets_get_values" then Some sheets_get_values
  else None.

(** The schema each case validates its arguments with. *)
Definition schema_of (t : Tool) : Zod.schema :=
  match t with
  | search => Zod.SearchInputSchema
  | drive_create_folder => Zod.CreateFolderSchema
  | drive_create_file => Zod.CreateFileSchema
  | drive_update_file => Zod.UpdateFileSchema
  | drive_get_file => Zod.GetFileSchema
  | drive_list_files => Zod.ListFilesSchema
  | drive_update_metadata => Zod.UpdateFileMetadataSchema
  | docs_create => Zod.CreateDocInputSchema
  | docs_get_content => Zod.GetDocContentInputSchema
  | docs_update_content => Zod.UpdateDocContentInputSchema
  | sheets_create => Zod.CreateSpreadsheetSchema
  | sheets_update_values => Zod.UpdateValuesSchema
  | sheets_format_cells => Zod.FormatCellsSchema
  | sheets_dimension_operation => Zod.DimensionOperationSchema
  | sheets_merge_cells => Zod.MergeCellsSchema
  | sheets_get_values => Zod.GetValuesSchema
  end.

(** What the adapter method of each case resolves to. *)
Definition result (t : Tool) : Type :=
  match t with
  | search => list json
  | drive_create_folder | drive_create_file | drive_update_file
  | drive_get_file | drive_list_files | drive_update_metadata => json
  | docs_create | docs_get_content | sheets_create => string
  | docs_update_content | sheets_update_values | sheets_format_cells
  | sheets_dimension_operation | sheets_merge_cells => unit
  | sheets_get_values => list (list string)
  end.

(** The three services: for each tool, the adapter method its case
    awaits. *)
Definition Services : Type := forall t : Tool, value -> completion (result t).

Record ContentBlock := { type : string; text : string }.
Record CallToolResult := { content : list ContentBlock; isError : bool }.

Record CallToolRequest := { name : string; arguments : value }.

Definition text_block (s : string) : ContentBlock := {| type := "text"; text := s |}.

(** [`${file.name} (${file.mimeType})`]: reading a property of a file that
    is null throws. *)
Definition file_line (file : json) : completion string :=
  match get_prop (Some file) "name" with
  | Return name =>
      match get_prop (Some file) "mimeType" with
      | Return mimeType =>
          Return (value_to_string name +:+ " (" +:+ value_to_string mimeType +:+ ")")
      | Throw e => Throw e
      end
  | Throw e => Throw e
  end.

(** [files.map(f)] for an [f] that may throw: the first throw ends it. *)
Fixpoint map_lines (files : list json) : completion (list string) :=
  match files with
  | [] => Return []
  | file :: rest =>
      match file_line file with
      | Return line =>
          match map_lines rest with
          | Return lines => Return (line :: lines)
          | Throw e => Throw e
          end
      | Throw e => Throw e
      end
  end.

(** [`prefix${o.id}`] *)
Definition with_id (prefix : string) (o : json) : completion string :=
  match get_prop (Some o) "id" with
  | Return id => Return (prefix +:+ value_to_string id)
  | Throw e => Throw e
  end.

Definition values_json (values : list (list string)) : json :=
  JArr (map (fun row => JArr (map JStr row)) values).

(** The text of the success response of each case. *)
Definition success_text (t : Tool) (input : value)
  : result t -> completion string :=
  match t return result t -> completion string with
  | search => fun files =>
      match map_lines files with
      | Return lines =>
          Return ("Found " +:+ number_to_string (Z.of_nat (List.length files)) +:+
                  " files:" +:+ nl +:+ JsString.join nl lines)
      | Throw e => Throw e
      end
  | drive_create_folder => fun folder => with_id "Created folder with ID: " folder
  | drive_create_file => fun file => with_id "Created file with ID: " file
  | drive_update_file => fun _ => Return ("File updated successfully")
  | drive_get_file => fun file => Return (stringify_pretty file)
  | drive_list_files => fun files => Return (stringify_pretty files)
  | drive_update_metadata => fun _ => Return ("File metadata updated successfully")
  | docs_create => fun documentId => Return ("Created document with ID: " +:+ documentId)
  | docs_get_content => fun content => Return (content)
  | docs_update_content => fun _ => Return ("Document updated successfully")
  | sheets_create => fun spreadsheetId =>
      Return ("Created spreadsheet with ID: " +:+ spreadsheetId)
  | sheets_update_values => fun _ => Return ("Values updated successfully")
  | sheets_format_cells => fun _ => Return ("Cell formatting applied successfully")
  | sheets_dimension_operation => fun _ =>
      match get_prop input "operation" with
      | Return operation =>
          Return (value_to_string operation +:+ " operation completed successfully")
      | Throw e => Throw e
      end
  | sheets_merge_cells => fun _ => Return ("Cells merged successfully")
  | sheets_get_values => fun values => Return (stringify_pretty (values_json values))
  end.

(** The message built in the catch clause: the error's message, and its
    cause when it has one, for an instance of [Error]; the JSON text of
    anything else that was thrown.  [JSON.stringify] is called as it stands,
    so the clause throws when it does. *)
Definition errorMessage (error : thrown) : completion string :=
  match error with
  | ThrowError _ message _ None => Return ("An error occurred: " +:+ message)
  | ThrowError _ message _ (Some cause) =>
      match stringify_payload cause with
      | Return text =>
          Return ("An error occurred: " +:+ message +:+ nl +:+ "Cause: " +:+ text)
      | Throw e => Throw e
      end
  | ThrowValue v =>
      match stringify_payload v with
      | Return text => Return ("An error occurred: " +:+ text)
      | Throw e => Throw e
      end
  end.

(** The adapter calls made while a request is handled. *)
Definition Trace : Type := list (Tool * value).

Section Handler.
(** The message zod puts in its error for given schema and data. *)
Variable zod_message : Zod.schema -> value -> string.
Variable services : Services.

(** [Schema.parse(request.params.arguments)] *)
Definition validate (s : Zod.schema) (data : value) : M Trace value :=
  match Zod.parse s data with
  | Some input => ret input
  | None => throw (ThrowError ZodError (zod_message s data) None None)
  end.

Definition call (t : Tool) (input : value) : M Trace (result t) :=
  do! update (fun trace => trace ++ [(t, input)]) in
  lift (services t input).

(** One case of the switch. *)
Definition run_tool (t : Tool) (data : value) : M Trace CallToolResult :=
  let! input := validate (schema_of t) data in
  let! outcome := call t input in
  let! message := lift (success_text t input outcome) in
  ret {| content := [text_block message]; isError := false |}.

(** The call-tool request handler.  Its catch clause builds the message
    with [errorMessage] and has no handler of its own: what [errorMessage]
    throws leaves the handler. *)
Definition callTool (request : CallToolRequest) : M Trace CallToolResult :=
  try_catch
    (match tool_of_name (name request) with
     | Some t => run_tool t (arguments request)
     | None => throw (ThrowError Error "Tool not found" None None)
     end)
    (fun error =>
       let! message := lift (errorMessage error) in
       ret {| content := [text_block message]; isError := true |}).

End Handler.


(** The arguments are an object with an array under [requests]. *)
Definition has_requests_array (args : value) : bool :=
  match args with
  | Some (JObj l) =>
      match assoc_last "requests" l with
      | Some (JArr _) => true
      | _ => false
      end
  | _ => false
  end.

(** The arguments are an object with exactly the keys [document_id] and
    [content], the properties the advertised schema names. *)
Definition advertised_shape (args : json) : Prop :=
  exists id content, args = JObj [("document_id", id); ("content", content)].

End Server.

(** ** Values the statements are tried on *)

Module Example.
Import Js Auth.

Definition credentialsPath : string := "/home/user/.google/server-creds.json".
Definition oauthPath : string := "/home/user/.google/oauth.keys.json".
Definition google_dir : string := "/home/user/.google".

Definition client_keys : json :=
  JObj [("client_id", JStr "client-id"); ("client_secret", JStr "client-secret");
        ("redirect_uris", JArr [JStr "http://localhost"])].

(** The key file of an installed application, and the one of a web
    application. *)
Definition installed_keys : json := JObj [("installed", client_keys)].
Definition web_keys : json := JObj [("web", client_keys)].

(** The clock stands at 1700000000000 ms: one record expires in an hour, two
    in a minute. *)
Definition held_valid : json :=
  JObj [("access_token", JStr "ya29.held"); ("refresh_token", JStr "1//refresh");
        ("expiry_date", JNum 1700003600000)].
Definition held_expiring : json :=
  JObj [("access_token", JStr "ya29.held"); ("refresh_token", JStr "1//refresh");
        ("expiry_date", JNum 1700000060000)].
Definition held_without_refresh : json :=
  JObj [("access_token", JStr "ya29.held"); ("expiry_date", JNum 1700000060000)].
Definition refreshed : json :=
  JObj [("access_token", JStr "ya29.fresh"); ("refresh_token", JStr "1//refresh");
        ("expiry_date", JNum 1700003660000)].

Definition client_of (record : json) : OAuth2Client :=
  setCredentials
    (new_OAuth2 (Some (JStr "client-id")) (Some (JStr "client-secret"))
       (Some (JStr "http://localhost")))
    record.

(** The part of a path before its last slash, when it has one. *)
Fixpoint before_last_slash (path : string) : option string :=
  match path with
  | EmptyString => None
  | String c rest =>
      match before_last_slash rest with
      | Some dir => Some (String c dir)
      | None => if Ascii.eqb c "/" then Some EmptyString else None
      end
  end.

(** [path.dirname] on paths that end in a name. *)
Definition dirname_of (path : string) : string :=
  match before_last_slash path with
  | Some EmptyString => "/"
  | Some dir => dir
  | None => "."
  end.

Definition before_last_slash_shorter (path : string) :
  forall dir, before_last_slash path = Some dir ->
              (String.length dir < String.length path)%nat.
Proof.
  induction path as [|c rest IH]; intros dir; cbn; [discriminate|].
  destruct (before_last_slash rest) as [d|].
  - intros H. injection H as <-. cbn. specialize (IH d eq_refl). lia.
  - destruct (Ascii.eqb c "/"); [|discriminate].
    intros H. injection H as <-. cbn. lia.
Qed.

Definition dirname_of_shorter (path : string) :
  (String.length (dirname_of path) <= Nat.max 1 (String.length path))%nat.
Proof.
  unfold dirname_of.
  pose proof (before_last_slash_shorter path) as H.
  destruct (before_last_slash path) as [[|c dir]|].
  - cbn. lia.
  - specialize (H _ eq_refl). lia.
  - cbn. lia.
Qed.

Definition env : Env :=
  {| now := 1700000000000;
     coerced_gt := fun _ _ => false;
     dirname := dirname_of;
     dirname_shorter := dirname_of_shorter;
     refreshAccessToken := fun client => Return (refreshed, setCredentials client refreshed);
     localAuth := fun _ => Throw (ThrowValue (Data None));
     read_fault := fun _ => false;
     write_fault := fun _ => false;
     mkdir_fault := fun _ => false |}.

Definition files (keys : json) : gmap string node :=
  <[oauthPath := File (stringify keys)]> {[google_dir := Directory]}.

Definition holding (record : json) : State :=
  {| auth := Some (client_of record); credentials := record;
     fs := files installed_keys; trace := [] |}.

(** A service that has loaded nothing yet, with [held_valid] saved in the
    credential file beside the given key file. *)
Definition on_disk (keys : json) : State :=
  initial (<[credentialsPath := File (stringify_pretty held_valid)]> (files keys)).

(** The same before anything was saved. *)
Definition fresh_install : State := initial (files installed_keys).

(** Arguments of [docs_update_content] as the advertised schema asks for
    them, and arguments that carry a [requests] array as well. *)
Definition advertised_arguments : json :=
  JObj [("document_id", JStr "doc-1"); ("content", JStr "Hello")].
Definition arguments_with_requests : json :=
  JObj [("document_id", JStr "doc-1"); ("content", JStr "Hello");
        ("requests", JArr [])].

Definition zod_message (s : Zod.schema) (data : value) : string := "Required".

Definition request_failed : thrown :=
  ThrowError (LibraryError "GaxiosError") "Request failed" (Some "500") None.

(** Services whose every call fails. *)
Definition failing_services : Server.Services := fun t input => Throw request_failed.

(** The same error with a cause that holds a reference to itself, and
    services that fail with it. *)
Definition request_failed_with_cause : thrown :=
  ThrowError (LibraryError "GaxiosError") "Request failed" (Some "500") (Some Circular).

Definition circular_cause_services : Server.Services :=
  fun t input => Throw request_failed_with_cause.

End Example.

(** ** The service base class and the entry point (services/base.ts,
    index.ts) *)

Module Entry.
Import Js Effect Auth.

(** A service object of [GoogleService]: its [auth] field, the default that
    [google.options] holds, and the credential manager it shares. *)
Record ServiceState := {
  service_auth : OAuth2Client;
  google_auth : OAuth2Client;
  manager : State
}.

(** The constructor: [this.auth = auth; google.options({ auth })]. *)
Definition new_GoogleService (auth : OAuth2Client) (manager : State) : ServiceState :=
  {| service_auth := auth; google_auth := auth; manager := manager |}.

Definition unknown_error : thrown :=
  authentication_error
    "An unexpected authentication error occurred. Please run `node dist/index.js auth` to re-authenticate."
    "UNKNOWN_ERROR".

(** A call of a method of the credential manager from the service. *)
Definition on_manager {A} (m : Auth.M A) : Effect.M ServiceState A :=
  fun st =>
    let '(r, manager') := m (manager st) in
    (r, {| service_auth := service_auth st; google_auth := google_auth st;
           manager := manager' |}).



Section Process.
Variable env : Env.
Variables credentialsPath oauthPath : string.

(** [GoogleService.ensureValidAuth] *)
Definition ensureValidAuth : Effect.M ServiceState unit :=
  try_catch
    (let! client := on_manager (authenticate env credentialsPath oauthPath) in
     do! update (fun st =>
           {| service_auth := client; google_auth := google_auth st;
              manager := manager st |}) in
     update (fun st =>
           {| service_auth := service_auth st; google_auth := service_auth st;
              manager := manager st |}))
    (fun error =>
       if is_AuthenticationError error then
         throw error
       else
         throw unknown_error).


End Process.

(** The calls of a trace that reach outside the process other than by
    reading a file. *)
Definition is_read (e : Event) : bool :=
  match e with ReadFile _ => true | _ => false end.

Definition is_flow (e : Event) : bool :=
  match e with LocalAuth _ => true | _ => false end.

End Entry.

(** ** Sheets adapter: the other methods (services/sheets.ts) *)

Module SheetsOps.
Import Js.

(** [getDimensionOperation] *)
Definition getDimensionOperation (operation : string) : completion string :=
  if String.eqb operation "INSERT" then Return "insertDimension"
  else if String.eqb operation "DELETE" then Return "deleteDimension"
  else if String.eqb operation "RESIZE" then Return "updateDimensionProperties"
  else
    Throw (ThrowError Error ("Unsupported dimension operation: " +:+ operation)
             None None).

Record DimensionOperation := {
  spreadsheetId : string;
  sheetId : Z;
  dimension : string;
  startIndex : Z;
  endIndex : option Z;
  operation : string;
  size : option Z
}.

Record DimensionRange := {
  dr_sheetId : Z;
  dr_dimension : string;
  dr_startIndex : Z;
  dr_endIndex : Z
}.

(** The one request of the batch: its key, its range, and its [size]
    property.  [req_size] is [None] when the object has no [size] property
    and [Some v] when it has one with value [v] ([v] may be undefined). *)
Record DimensionRequest := {
  key : string;
  range : DimensionRange;
  req_size : option (option Z)
}.

Record BatchUpdate := {
  bu_spreadsheetId : string;
  requests : list DimensionRequest
}.

(** The [spreadsheets.batchUpdate] endpoint. *)
Definition Api := BatchUpdate -> completion unit.

(** [endIndex || startIndex + 1] *)
Definition end_of (endIndex : option Z) (startIndex : Z) : Z :=
  match endIndex with
  | Some e => if e =? 0 then startIndex + 1 else e
  | None => startIndex + 1
  end.

(** [dimensionOperation]: the completion and the requests that were sent.
    The request object is built before the call, so an unsupported operation
    throws before anything is sent. *)
Definition dimensionOperation (api : Api) (input : DimensionOperation)
  : completion unit * list BatchUpdate :=
  match getDimensionOperation (operation input) with
  | Throw e => (Throw e, [])
  | Return name =>
      let request :=
        {| bu_spreadsheetId := spreadsheetId input;
           requests :=
             [{| key := name;
                 range :=
                   {| dr_sheetId := sheetId input;
                      dr_dimension := dimension input;
                      dr_startIndex := startIndex input;
                      dr_endIndex := end_of (endIndex input) (startIndex input) |};
                 req_size :=
                   if String.eqb (operation input) "RESIZE"
                   then Some (size input) else None |}] |} in
      (api request, [request])
  end.

(** [createSpreadsheet].  A sheet of the input keeps its title and grid
    properties; the answer of [spreadsheets.create] is read for its
    [spreadsheetId], a string that may be missing. *)
Record Sheet := { sheet_title : string; gridProperties : value }.

Record CreateSpreadsheet := {
  title : string;
  sheets : option (list Sheet)
}.

Record SheetProperties := { sp_title : string; sp_gridProperties : value }.

Record CreateRequest := {
  properties_title : string;
  request_sheets : option (list SheetProperties)
}.

Definition CreateApi := CreateRequest -> completion (option string).

Definition create_failed : thrown :=
  ThrowError Error "Failed to create spreadsheet" None None.

Definition createSpreadsheet (api : CreateApi) (input : CreateSpreadsheet)
  : completion string * list CreateRequest :=
  let request :=
    {| properties_title := title input;
       request_sheets :=
         option_map
           (map (fun sheet =>
                   {| sp_title := sheet_title sheet;
                      sp_gridProperties := gridProperties sheet |}))
           (sheets input) |} in
  (match api request with
   | Throw e => Throw e
   | Return response =>
       match response with
       | Some id => if is_empty id then Throw create_failed else Return id
       | None => Throw create_failed
       end
   end,
   [request]).

End SheetsOps.

(** ** Shapes of the validation schemas *)

Module ZodShape.
Import Js Zod.

(** The keys that an object schema declares, in its order. *)
Definition declared_keys (s : schema) : list string :=
  match s with
  | z_object shape => map fst shape
  | _ => []
  end.

(** Schemas that hand back the value they were given. *)
Fixpoint transparent (s : schema) : bool :=
  match s with
  | z_string | z_number _ _ | z_boolean | z_any | z_buffer | z_enum _ => true
  | z_array item => transparent item
  | z_object _ => false
  | z_union alternatives => forallb transparent alternatives
  | z_optional inner => transparent inner
  | z_default _ _ => false
  end.

(** Schemas as types/schemas.ts writes them: no key is declared twice in an
    object, and the alternatives of a union are transparent. *)
Fixpoint regular (s : schema) : bool :=
  match s with
  | z_string | z_number _ _ | z_boolean | z_any | z_buffer | z_enum _ => true
  | z_array item => regular item
  | z_object shape =>
      bool_decide (NoDup (map fst shape)) &&
      forallb (fun field => regular (snd field)) shape
  | z_union alternatives => forallb transparent alternatives
  | z_optional inner => regular inner
  | z_default inner _ => regular inner
  end.

End ZodShape.

(** ** The tool catalog (the list-tools handler of server.ts)

    Each tool is advertised with a JSON Schema for its arguments.  The
    schemas use the keywords [type], [properties], [required], [anyOf],
    [items], [minimum], [maximum], [enum] and [default]. *)

Module Catalog.
Import Js Server.

Inductive schema :=
| Schema (type : option string)
    (properties : list (string * schema))
    (required : list string)
    (anyOf : option (list schema))
    (items : option schema)
    (minimum maximum : option Z)
    (enum : option (list string))
    (default : option json).

(** Validation.  [default] is an annotation and constrains nothing; an
    [enum] of strings admits these strings only. *)
Fixpoint valid (s : schema) (j : json) {struct s} : bool :=
  match s with
  | Schema type properties required anyOf items minimum maximum enum default =>
      JsonSchema.has_type type j &&
      match j with
      | JObj l =>
          forallb
            (fun property =>
               match assoc_last (fst property) l with
               | Some v => valid (snd property) v
               | None => true
               end) properties
          && forallb (JsonSchema.has_key l) required
      | _ => true
      end &&
      match anyOf with
      | Some alternatives => existsb (fun alt => valid alt j) alternatives
      | None => true
      end &&
      match items, j with
      | Some item, JArr l => forallb (valid item) l
      | _, _ => true
      end &&
      match j with
      | JNum n =>
          match minimum with Some lo => lo <=? n | None => true end &&
          match maximum with Some hi => n <=? hi | None => true end
      | _ => true
      end &&
      match enum with
      | Some values =>
          match j with
          | JStr x => Zod.member x values
          | _ => false
          end
      | None => true
      end
  end.

Definition of_type (t : string) : schema :=
  Schema (Some t) [] [] None None None None None None.
Definition string_ : schema := of_type "string".
Definition number : schema := of_type "number".
Definition boolean : schema := of_type "boolean".
Definition object (properties : list (string * schema)) (required : list string)
  : schema :=
  Schema (Some "object") properties required None None None None None None.
Definition array (item : schema) : schema :=
  Schema (Some "array") [] [] None (Some item) None None None None.
Definition any_of (alternatives : list schema) : schema :=
  Schema None [] [] (Some alternatives) None None None None None.
Definition number_between (lo hi : Z) : schema :=
  Schema (Some "number") [] [] None None (Some lo) (Some hi) None None.
Definition number_from (lo : Z) : schema :=
  Schema (Some "number") [] [] None None (Some lo) None None None.
Definition number_default (value : Z) : schema :=
  Schema (Some "number") [] [] None None None None None (Some (JNum value)).
Definition one_of (values : list string) : schema :=
  Schema (Some "string") [] [] None None None None (Some values) None.

Definition rgb : schema :=
  object [("red", number_between 0 1); ("green", number_between 0 1);
          ("blue", number_between 0 1)] [].

Definition rgba : schema :=
  object [("red", number_between 0 1); ("green", number_between 0 1);
          ("blue", number_between 0 1); ("alpha", number_between 0 1)] [].

Definition cover_page : schema :=
  object [("title", string_); ("subtitle", string_); ("date", string_)] ["title"].

Definition page_headers : schema :=
  object [("default", string_); ("firstPage", string_)] [].

(** The body section of [docs_create], whose style has a heading. *)
Definition created_section : schema :=
  object
    [("text", string_);
     ("style",
      object [("bold", boolean); ("italic", boolean); ("fontSize", number);
              ("foregroundColor", rgb); ("backgroundColor", rgb);
              ("heading",
               one_of ["NORMAL"; "HEADING_1"; "HEADING_2"; "HEADING_3"])] [])]
    ["text"].

(** The section of [docs_update_content]. *)
Definition updated_section : schema :=
  object
    [("text", string_);
     ("style",
      object [("bold", boolean); ("italic", boolean); ("fontSize", number);
              ("foregroundColor", rgb)] [])]
    ["text"].

Definition major_dimension : schema := one_of ["ROWS"; "COLUMNS"].

(** The [inputSchema] of each entry of the catalog. *)
Definition inputSchema (t : Tool) : schema :=
  match t with
  | search =>
      object [("query", string_); ("page_size", number_default 10)] ["query"]
  | drive_create_folder =>
      object [("name", string_); ("parents", array string_);
              ("description", string_)] ["name"]
  | drive_create_file =>
      object [("name", string_); ("mimeType", string_);
              ("parents", array string_); ("description", string_);
              ("content", string_)] ["name"; "mimeType"; "content"]
  | drive_update_file =>
      object [("fileId", string_); ("content", string_); ("mimeType", string_)]
        ["fileId"; "content"; "mimeType"]
  | drive_get_file =>
      object [("fileId", string_); ("fields", string_)] ["fileId"]
  | drive_list_files =>
      object [("query", string_); ("pageSize", number); ("fields", string_);
              ("orderBy", string_)] []
  | drive_update_metadata =>
      object [("fileId", string_); ("name", string_); ("description", string_);
              ("mimeType", string_); ("addParents", array string_);
              ("removeParents", array string_)] ["fileId"]
  | docs_create =>
      object
        [("title", string_);
         ("content",
          object [("coverPage", cover_page); ("headers", page_headers);
                  ("footer", string_); ("body", array created_section)] [])]
        ["title"]
  | docs_get_content =>
      object [("document_id", string_)] ["document_id"]
  | docs_update_content =>
      object
        [("document_id", string_);
         ("content",
          any_of
            [string_;
             updated_section;
             object [("coverPage", cover_page); ("headers", page_headers);
                     ("footer", string_); ("body", array updated_section)] []])]
        ["document_id"; "content"]
  | sheets_create =>
      object
        [("title", string_);
         ("sheets",
          array
            (object
               [("title", string_);
                ("gridProperties",
                 object [("rowCount", number_from 1);
                         ("columnCount", number_from 1);
                         ("frozenRowCount", number_from 0);
                         ("frozenColumnCount", number_from 0)] [])]
               ["title"]))]
        ["title"]
  | sheets_update_values =>
      object [("spreadsheetId", string_); ("range", string_);
              ("values", array (array string_));
              ("majorDimension", major_dimension)]
        ["spreadsheetId"; "range"; "values"]
  | sheets_format_cells =>
      object
        [("spreadsheetId", string_); ("range", string_);
         ("format",
          object
            [("backgroundColor", rgba);
             ("textFormat",
              object [("foregroundColor", rgba); ("fontFamily", string_);
                      ("fontSize", number); ("bold", boolean);
                      ("italic", boolean); ("strikethrough", boolean);
                      ("underline", boolean)] []);
             ("horizontalAlignment", one_of ["LEFT"; "CENTER"; "RIGHT"]);
             ("verticalAlignment", one_of ["TOP"; "MIDDLE"; "BOTTOM"])] [])]
        ["spreadsheetId"; "range"; "format"]
  | sheets_dimension_operation =>
      object [("spreadsheetId", string_); ("sheetId", number);
              ("dimension", major_dimension); ("startIndex", number);
              ("endIndex", number);
              ("operation", one_of ["INSERT"; "DELETE"; "RESIZE"]);
              ("size", number)]
        ["spreadsheetId"; "sheetId"; "dimension"; "startIndex"; "operation"]
  | sheets_merge_cells =>
      object [("spreadsheetId", string_); ("range", string_)]
        ["spreadsheetId"; "range"]
  | sheets_get_values =>
      object [("spreadsheetId", string_); ("range", string_);
              ("majorDimension", major_dimension)] ["spreadsheetId"; "range"]
  end.

(** A sufficient condition, read off the two schemas, for every value that
    is valid for the advertised schema to pass the validation schema. *)
Definition bound_below (zod advertised : option Z) : bool :=
  match zod with
  | None => true
  | Some lo => match advertised with Some lo' => lo <=? lo' | None => false end
  end.

Definition bound_above (zod advertised : option Z) : bool :=
  match zod with
  | None => true
  | Some hi => match advertised with Some hi' => hi' <=? hi | None => false end
  end.

Definition is_type (t : string) (type : option string) : bool :=
  match type with Some t' => String.eqb t' t | None => false end.

Fixpoint follows (zs : Zod.schema) (js : schema) {struct zs} : bool :=
  match js with
  | Schema type properties required anyOf items minimum maximum enum default =>
      match zs with
      | Zod.z_string => is_type "string" type
      | Zod.z_number lo hi =>
          is_type "number" type && bound_below lo minimum && bound_above hi maximum
      | Zod.z_boolean => is_type "boolean" type
      | Zod.z_any => true
      | Zod.z_buffer => false
      | Zod.z_enum options =>
          match enum with
          | Some values => forallb (fun v => Zod.member v options) values
          | None => false
          end
      | Zod.z_array item =>
          is_type "array" type &&
          match items with
          | Some advertised => follows item advertised
          | None => false
          end
      | Zod.z_object shape =>
          is_type "object" type &&
          forallb
            (fun field =>
               match snd field with
               | Zod.z_optional inner =>
                   existsb (fun property =>
                              String.eqb (fst property) (fst field) &&
                              follows inner (snd property)) properties
               | Zod.z_default inner value =>
                   existsb (fun property =>
                              String.eqb (fst property) (fst field) &&
                              follows inner (snd property)) properties &&
                   match Zod.parse inner (Some value) with
                   | Some (Some _) => true
                   | _ => false
                   end
               | _ =>
                   Zod.member (fst field) required &&
                   existsb (fun property =>
                              String.eqb (fst property) (fst field) &&
                              follows (snd field) (snd property)) properties
               end) shape
      | Zod.z_union alternatives =>
          existsb (fun alt => follows alt js) alternatives
      | Zod.z_optional inner => follows inner js
      | Zod.z_default inner _ => follows inner js
      end
  end.

End Catalog.

(** ** Drive adapter: file content, and the resource handlers that use it
    (services/drive.ts, server.ts) *)

Module DriveFiles.
Import Js.

(** [s.startsWith(prefix)] *)
Definition startsWith (s prefix : string) : bool := String.prefix prefix s.

(** What is left of [s] after [prefix], when [s] starts with it. *)
Fixpoint after_prefix (prefix s : string) : option string :=
  match prefix, s with
  | EmptyString, _ => Some s
  | String a prefix', String b s' =>
      if Ascii.eqb a b then after_prefix prefix' s' else None
  | String _ _, EmptyString => None
  end.

(** [s.replace(pattern, by)] for a string pattern and a replacement without
    [$]: the first occurrence is replaced, the rest is kept. *)
Fixpoint replace_first (pattern by_ : string) (s : string) : string :=
  match after_prefix pattern s with
  | Some rest => by_ +:+ rest
  | None =>
      match s with
      | EmptyString => EmptyString
      | String a rest => String a (replace_first pattern by_ rest)
      end
  end.

(** The content of a file: a string, or a Buffer of bytes. *)
Inductive Content :=
| Text (text : string)
| Buffer (bytes : list Byte.byte).

Record FileContent := { mimeType : string; content : Content }.

Inductive Call :=
| files_get (fileId : string) (fields : string)
| files_export (fileId : string) (mimeType : string)
| files_get_media (fileId : string).

(** The three calls of the Drive API that [getFileContent] makes: the
    [mimeType] of the metadata (which may be missing), the exported text,
    the bytes of the file. *)
Record Api := {
  get_mimeType : string -> completion (option string);
  export : string -> string -> completion string;
  get_media : string -> completion (list Byte.byte)
}.

(** The [switch] of [getFileContent]. *)
Definition exportMimeType (mimeType : string) : string :=
  if String.eqb mimeType "application/vnd.google-apps.document" then
    "text/markdown"
  else if String.eqb mimeType "application/vnd.google-apps.spreadsheet" then
    "text/csv"
  else if String.eqb mimeType "application/vnd.google-apps.presentation" then
    "text/plain"
  else if String.eqb mimeType "application/vnd.google-apps.drawing" then
    "image/png"
  else
    "text/plain".

(** [file.data.mimeType || "application/octet-stream"] *)
Definition mimeType_or_default (answer : option string) : string :=
  match answer with
  | Some m => if is_empty m then "application/octet-stream" else m
  | None => "application/octet-stream"
  end.

Section Decoding.
(** [buffer.toString("utf-8")] and [buffer.toString("base64")]. *)
Variable utf8 : list Byte.byte -> string.
Variable base64 : list Byte.byte -> string.

(** [getFileContent]: the completion and the calls that were made. *)
Definition getFileContent (api : Api) (fileId : string)
  : completion FileContent * list Call :=
  match get_mimeType api fileId with
  | Throw e => (Throw e, [files_get fileId "mimeType"])
  | Return answer =>
      let mimeType := mimeType_or_default answer in
      if startsWith mimeType "application/vnd.google-apps" then
        let exportMimeType := exportMimeType mimeType in
        (match export api fileId exportMimeType with
         | Throw e => Throw e
         | Return data =>
             Return {| mimeType := exportMimeType; content := Text data |}
         end,
         [files_get fileId "mimeType"; files_export fileId exportMimeType])
      else
        (match get_media api fileId with
         | Throw e => Throw e
         | Return data =>
             if startsWith mimeType "text/" || String.eqb mimeType "application/json"
             then Return {| mimeType := mimeType; content := Text (utf8 data) |}
             else Return {| mimeType := mimeType; content := Buffer data |}
         end,
         [files_get fileId "mimeType"; files_get_media fileId])
  end.

(** The read-resource handler. *)
Record ResourceContents := {
  rc_uri : string;
  rc_mimeType : string;
  rc_text : string
}.

Definition readResource (api : Api) (uri : string)
  : completion (list ResourceContents) * list Call :=
  let fileId := replace_first "gdrive:///" "" uri in
  let '(outcome, calls) := getFileContent api fileId in
  (match outcome with
   | Throw e => Throw e
   | Return file =>
       Return [{| rc_uri := uri;
                  rc_mimeType := mimeType file;
                  rc_text :=
                    match content file with
                    | Text text => text
                    | Buffer bytes => base64 bytes
                    end |}]
   end,
   calls).

End Decoding.

(** The list-resources handler: a search for the empty query, ten files at
    most, each file turned into a resource. *)
Record Resource := {
  uri : string;
  resource_mimeType : value;
  name : value
}.

Definition resource_of (file : json) : Resource :=
  {| uri := "gdrive:///" +:+ value_to_string (get file "id");
     resource_mimeType := get file "mimeType";
     name := get file "name" |}.

Definition listResources (api : Drive.Api)
  : completion (list Resource) * list Drive.FilesListParams :=
  let '(outcome, calls) :=
    Drive.searchFiles api {| Drive.query := ""; Drive.page_size := 10 |} in
  (match outcome with
   | Throw e => Throw e
   | Return files => Return (map resource_of files)
   end,
   calls).

End DriveFiles.

(** ** Docs adapter: creating a document (services/docs.ts) *)

Module DocsCreate.
Import Js Docs.

(** [let currentIndex = 1; for (request of requests) if insertText with
    text: currentIndex += text.length]: the index after the text that the
    requests insert. *)
Definition index_after (requests : list Request) : Z :=
  fold_left (fun i request => i + inserted_length request) requests 1.

Record CreateDocInput := {
  title : string;
  content : option DocumentContent
}.

(** The identifier of the answer of [documents.create] may be missing; the
    code passes it on as it is. *)
Inductive Call :=
| documents_create (title : string)
| documents_batchUpdate (documentId : option string) (requests : list Request).

Record Api := {
  create : string -> completion (option string);
  batchUpdate : option string -> list Request -> completion unit
}.

(** The [requests] array that [updateDocumentContent] builds. *)
Definition updateDocumentContent_requests (content : DocumentContent)
  : list Request :=
  let requests := [] in
  let requests :=
    match coverPage content with
    | Some cp => addCoverPageRequests requests cp
    | None => requests
    end in
  let requests :=
    match headers content with
    | Some h => addHeaderRequests requests h
    | None => requests
    end in
  let requests :=
    match nonempty (footer content) with
    | Some f => addFooterRequests requests f
    | None => requests
    end in
  match body content with
  | Some b => addBodyContentRequests requests b
  | None => requests
  end.

(** [updateDocumentContent]: the batch is sent when it has a request. *)
Definition updateDocumentContent (api : Api) (documentId : option string)
    (content : DocumentContent) : completion unit * list Call :=
  let requests := updateDocumentContent_requests content in
  if 0 <? Z.of_nat (List.length requests) then
    (batchUpdate api documentId requests,
     [documents_batchUpdate documentId requests])
  else (Return tt, []).

(** [createDocument]: the completion and the calls that were made. *)
Definition createDocument (api : Api) (input : CreateDocInput)
  : completion (option string) * list Call :=
  match create api (title input) with
  | Throw e => (Throw e, [documents_create (title input)])
  | Return documentId =>
      match content input with
      | Some content =>
          let '(outcome, calls) := updateDocumentContent api documentId content in
          (match outcome with
           | Throw e => Throw e
           | Return _ => Return documentId
           end,
           documents_create (title input) :: calls)
      | None => (Return documentId, [documents_create (title input)])
      end
  end.

End DocsCreate.

(** ** Docs adapter: where the requests of a batch point *)

Module DocsLayout.
Import Js Docs.

(** The requests are read in order from [index] on, the index advancing by
    the length of each inserted text.  They are in step when every insertion
    of text or of a page break is located at the index reached so far, in
    the body, and every style range ends there. *)
Definition points_at (index : Z) (request : Request) : Prop :=
  match request with
  | insertText location _ => location = at_index index
  | insertPageBreak location => location = at_index index
  | updateTextStyle range _ _ => endIndex range = index
  | updateParagraphStyle range _ _ => endIndex range = index
  | _ => True
  end.

Fixpoint in_step (index : Z) (requests : list Request) : Prop :=
  match requests with
  | [] => True
  | request :: rest =>
      points_at index request /\ in_step (index + inserted_length request) rest
  end.

(** The texts that a list of requests inserts, in order. *)
Definition inserted_texts (requests : list Request) : list string :=
  flat_map (fun request =>
              match request with
              | insertText _ text => [text]
              | _ => []
              end) requests.

Definition is_deletion (request : Request) : bool :=
  match request with deleteContentRange _ => true | _ => false end.

End DocsLayout.

(** ** Results the success texts can be built from *)

Module ServerResults.
Import Js Server.



End ServerResults.

(** ** Further values the statements are tried on *)

Module Scenario.
Import Js Auth.

(** The credential file holds a record without refresh token, or the JSON
    text [null]; nothing is loaded yet. *)
Definition saved (text : string) : State :=
  initial (<[Example.credentialsPath := File text]>
             (Example.files Example.installed_keys)).

Definition saved_without_refresh : State :=
  saved (stringify_pretty Example.held_without_refresh).

Definition saved_null : State := saved "null".

(** The credential file cannot be written. *)
Definition read_only : Env :=
  {| now := now Example.env;
     coerced_gt := coerced_gt Example.env;
     dirname := dirname Example.env;
     dirname_shorter := dirname_shorter Example.env;
     refreshAccessToken := refreshAccessToken Example.env;
     localAuth := localAuth Example.env;
     read_fault := read_fault Example.env;
     write_fault := fun _ => true;
     mkdir_fault := mkdir_fault Example.env |}.

(** The interactive flow succeeds with a client that holds
    [Example.held_valid]. *)
Definition authorised : OAuth2Client := Example.client_of Example.held_valid.

Definition interactive : Env :=
  {| now := now Example.env;
     coerced_gt := coerced_gt Example.env;
     dirname := dirname Example.env;
     dirname_shorter := dirname_shorter Example.env;
     refreshAccessToken := refreshAccessToken Example.env;
     localAuth := fun _ => Return authorised;
     read_fault := read_fault Example.env;
     write_fault := write_fault Example.env;
     mkdir_fault := mkdir_fault Example.env |}.

(** A file record of the Drive API, and services whose every call
    succeeds. *)
Definition report : json :=
  JObj [("id", JStr "f1"); ("name", JStr "report.txt");
        ("mimeType", JStr "text/plain")].

Definition answering_services : Server.Services :=
  fun t input =>
    match t return completion (Server.result t) with
    | Server.search => Return [report]
    | Server.drive_create_folder | Server.drive_create_file
    | Server.drive_update_file | Server.drive_get_file
    | Server.drive_list_files | Server.drive_update_metadata => Return report
    | Server.docs_create | Server.docs_get_content | Server.sheets_create =>
        Return "doc-1"
    | Server.docs_update_content | Server.sheets_update_values
    | Server.sheets_format_cells | Server.sheets_dimension_operation
    | Server.sheets_merge_cells => Return tt
    | Server.sheets_get_values => Return [["a"; "b"]]
    end.

(** Arguments of [sheets_dimension_operation] that resize without a size,
    of [docs_create] with a content descriptor, and of [docs_update_content]
    with two requests. *)
Definition resize_arguments : json :=
  JObj [("spreadsheetId", JStr "sheet-1"); ("sheetId", JNum 0);
        ("dimension", JStr "ROWS"); ("startIndex", JNum 2);
        ("operation", JStr "RESIZE")].

Definition create_with_content : list (string * json) :=
  [("title", JStr "Report");
   ("content", JObj [("body", JArr [JObj [("text", JStr "Hello")]])])].

Definition two_requests : list json :=
  [JObj [("insertText",
          JObj [("location", JObj [("index", JNum 1)]); ("text", JStr "Hello")])];
   JObj [("insertPageBreak", JObj [("location", JObj [("index", JNum 6)])])]].

(** Arguments of [sheets_format_cells] with a background colour that names
    no component. *)
Definition colourless_format : json :=
  JObj [("spreadsheetId", JStr "sheet-1"); ("range", JStr "A1:B2");
        ("format", JObj [("backgroundColor", JObj [])])].

(** A Drive whose every file is the plain text [hi], and the two decodings
    of a Buffer that the statements are tried with. *)
Definition text_drive : DriveFiles.Api :=
  {| DriveFiles.get_mimeType := fun _ => Return (Some "text/plain");
     DriveFiles.export := fun _ _ => Return "exported";
     DriveFiles.get_media := fun _ => Return [Byte.x68; Byte.x69] |}.

Definition utf8 (bytes : list Byte.byte) : string := String.string_of_list_byte bytes.
Definition base64 (bytes : list Byte.byte) : string := "aGk=".

(** A Docs API that answers every call, and an input of [createDocument]
    with a body of one section. *)
Definition docs_api : DocsCreate.Api :=
  {| DocsCreate.create := fun _ => Return (Some "doc-1");
     DocsCreate.batchUpdate := fun _ _ => Return tt |}.

Definition hello_document : DocsCreate.CreateDocInput :=
  {| DocsCreate.title := "Report";
     DocsCreate.content :=
       Some {| Docs.coverPage := None; Docs.headers := None;
               Docs.footer := None;
               Docs.body := Some [{| Docs.text := "Hello";
                                     Docs.style := None |}] |} |}.

(** A stored document whose body has a section break ending at 1 and a
    paragraph ending at 12, and a Docs API that returns it. *)
Definition stored_document : Docs.Document :=
  {| Docs.doc_body :=
       Some {| Docs.content :=
                 Some [{| Docs.se_endIndex := Some 1 |};
                       {| Docs.se_endIndex := Some 12 |}] |} |}.

Definition stored_docs : Docs.Api :=
  {| Docs.get := fun _ => Return stored_document;
     Docs.batchUpdate := fun _ _ => Return tt |}.

End Scenario.

(** * Properties *)

(** Unfolding [+:+] on a string that starts with known characters. *)
Ltac string_step :=
  match goal with
  | |- context [String.append EmptyString ?s] =>
      change (String.append EmptyString s) with s
  | |- context [String.append (String ?a ?s) ?t] =>
      change (String.append (String a s) t) with (String a (String.append s t))
  end.
Ltac string_simpl := repeat string_step.

(** Running the state-and-exception combinators. *)
Ltac run := unfold Effect.bind, Effect.read, Effect.ret, Effect.throw,
  Effect.update, Effect.lift, Effect.try_catch; cbn.

(** ** JSON: a printed value reads back *)

Module JsonFacts.
Import Js JsonText.

Lemma append_assoc (a b c : string) : (a +:+ b) +:+ c = a +:+ (b +:+ c).
Proof.
  induction a as [|x a IH]; string_simpl; [reflexivity|]. now rewrite IH.
Qed.

Lemma append_empty (a : string) : a +:+ EmptyString = a.
Proof. induction a as [|x a IH]; string_simpl; [reflexivity|]. now rewrite IH. Qed.

Lemma length_append (a b : string) :
  String.length (a +:+ b) = (String.length a + String.length b)%nat.
Proof.
  induction a as [|x a IH]; string_simpl; [reflexivity|]. cbn. now rewrite IH.
Qed.

(** *** Strings *)

Lemma parse_quote_body (s rest : string) :
  parse_string_body (quote_body s +:+ String dquote rest) = Some (s, rest).
Proof.
  induction s as [|a s IH].
  - reflexivity.
  - cbn [quote_body]. rewrite append_assoc.
    destruct a as [[] [] [] [] [] [] [] []];
      cbv [quote_char N_of_ascii N_of_digits N.eqb N.ltb N.compare N.add N.mul
           Pos.eqb Pos.compare Pos.compare_cont Pos.add Pos.mul Pos.succ
           hex_digit N.div N.modulo];
      cbn; string_simpl; cbn; rewrite IH; reflexivity.
Qed.

Lemma quote_append (k rest : string) :
  quote k +:+ rest = String dquote (quote_body k +:+ String dquote rest).
Proof. unfold quote. string_simpl. now rewrite append_assoc. Qed.

(** *** Numbers *)

Lemma scan_digits_print (d : Decimal.uint) (rest : string) :
  number_end rest = true ->
  scan_digits (DecimalString.NilEmpty.string_of_uint d +:+ rest) = (d, rest).
Proof.
  intros Hend. induction d; cbn [DecimalString.NilEmpty.string_of_uint];
    string_simpl; try (cbn; rewrite IHd; reflexivity).
  destruct rest as [|a rest]; [reflexivity|].
  cbn in Hend |- *. destruct (digit_of a); [discriminate|reflexivity].
Qed.

Lemma to_uint_normal (n : N) : Decimal.unorm (N.to_uint n) = N.to_uint n.
Proof.
  rewrite <- (DecimalN.Unsigned.to_of (N.to_uint n)).
  now rewrite DecimalN.Unsigned.of_to.
Qed.

Lemma number_end_fraction (rest : string) :
  number_end rest = true -> starts_fraction rest = false.
Proof.
  destruct rest as [|a rest]; [reflexivity|]. unfold number_end.
  intros H. apply andb_true_iff in H. destruct H as [_ H].
  now apply negb_true_iff in H.
Qed.

Lemma parse_number_unsigned (n : N) (rest : string) :
  number_end rest = true ->
  parse_number (DecimalString.NilEmpty.string_of_uint (N.to_uint n) +:+ rest)
  = Some (Z.of_N n, rest).
Proof.
  intros Hend. unfold parse_number.
  assert (Hhead :
    match DecimalString.NilEmpty.string_of_uint (N.to_uint n) +:+ rest with
    | String "-" r => (true, r)
    | _ => (false, DecimalString.NilEmpty.string_of_uint (N.to_uint n) +:+ rest)
    end = (false, DecimalString.NilEmpty.string_of_uint (N.to_uint n) +:+ rest)).
  { destruct n as [|p]; [reflexivity|].
    pose proof (DecimalPos.Unsigned.to_uint_nonnil p) as Hnil.
    cbn [N.to_uint]. destruct (Pos.to_uint p); try congruence; reflexivity. }
  rewrite Hhead. rewrite scan_digits_print by exact Hend.
  rewrite to_uint_normal, (Decimal.internal_uint_dec_lb _ _ eq_refl).
  rewrite (number_end_fraction _ Hend). cbn [negb andb].
  f_equal. f_equal.
  change (Z.of_int (Decimal.Pos (N.to_uint n)))
    with (Z.of_N (N.of_uint (N.to_uint n))).
  now rewrite DecimalN.Unsigned.of_to.
Qed.

Lemma parse_number_print (n : Z) (rest : string) :
  number_end rest = true ->
  parse_number (number_to_string n +:+ rest) = Some (n, rest).
Proof.
  intros Hend. destruct n as [|p|p].
  - exact (parse_number_unsigned 0%N rest Hend).
  - exact (parse_number_unsigned (Npos p) rest Hend).
  - unfold number_to_string. cbn [Z.to_int]. string_simpl.
    unfold parse_number. rewrite (scan_digits_print _ _ Hend).
    change (Pos.to_uint p) with (N.to_uint (Npos p)).
    rewrite to_uint_normal, (Decimal.internal_uint_dec_lb _ _ eq_refl).
    rewrite (number_end_fraction _ Hend). cbn [negb andb].
    f_equal. f_equal.
    exact (DecimalZ.of_to (Zneg p)).
Qed.

Lemma number_head (n : Z) (rest : string) :
  exists c r, number_to_string n +:+ rest = String c r /\ number_char c = true.
Proof.
  unfold number_to_string. destruct n as [|p|p]; cbn [Z.to_int]; string_simpl.
  - eexists; eexists; split; reflexivity.
  - pose proof (DecimalPos.Unsigned.to_uint_nonnil p) as Hnil.
    destruct (Pos.to_uint p); try congruence;
      cbn [DecimalString.NilEmpty.string_of_uint]; string_simpl;
      eexists; eexists; split; reflexivity.
  - eexists; eexists; split; reflexivity.
Qed.

Lemma number_starts (n : Z) (rest : string) :
  starts_value (number_to_string n +:+ rest) = true.
Proof.
  unfold number_to_string. destruct n as [|p|p]; cbn [Z.to_int]; string_simpl;
    try reflexivity.
  pose proof (DecimalPos.Unsigned.to_uint_nonnil p) as Hnil.
  destruct (Pos.to_uint p); try congruence; reflexivity.
Qed.

(** *** Values *)

(** Induction over values, with the hypothesis for every item of an array
    and every member of an object. *)
Lemma json_induction (P : json -> Prop) :
  P JNull -> (forall b, P (JBool b)) -> (forall n, P (JNum n)) ->
  (forall s, P (JStr s)) ->
  (forall l, Forall P l -> P (JArr l)) ->
  (forall l, Forall (fun m => P (snd m)) l -> P (JObj l)) ->
  forall v, P v.
Proof.
  intros Hnull Hbool Hnum Hstr Harr Hobj.
  fix IH 1. intros [| b | n | s | l | l].
  - exact Hnull.
  - apply Hbool.
  - apply Hnum.
  - apply Hstr.
  - apply Harr. induction l as [|x l IHl]; constructor; [apply IH | exact IHl].
  - apply Hobj. induction l as [|[k x] l IHl]; constructor; [apply IH | exact IHl].
Qed.

Lemma size_array (l : list json) : size (JArr l) = S (items_size l).
Proof. reflexivity. Qed.

Lemma size_object (l : list (string * json)) : size (JObj l) = S (members_size l).
Proof. reflexivity. Qed.

Lemma items_size_cons (x : json) (l : list json) :
  items_size (x :: l) = S (size x + items_size l).
Proof. reflexivity. Qed.

Lemma members_size_cons (m : string * json) (l : list (string * json)) :
  members_size (m :: l) = S (size (snd m) + members_size l).
Proof. reflexivity. Qed.

Lemma spaces_append (a b : string) :
  spaces a = true -> spaces b = true -> spaces (a +:+ b) = true.
Proof.
  induction a as [|x a IH]; string_simpl; cbn; [tauto|].
  intros H Hb. apply andb_true_iff in H. destruct H as [Hx Ha].
  rewrite Hx. cbn. now apply IH.
Qed.

Lemma skip_spaces (w s : string) :
  spaces w = true -> skip_ws (w +:+ s) = skip_ws s.
Proof.
  induction w as [|x w IH]; string_simpl; [reflexivity|].
  cbn. intros H. apply andb_true_iff in H. destruct H as [Hx Hw].
  apply Ascii.eqb_eq in Hx. subst x. cbn. now apply IH.
Qed.

Lemma stringify_items (gap indent : string) (x : json) (rest : list json) :
  stringify_at gap indent (JArr (x :: rest)) =
  "[" +:+ opening gap (indent +:+ gap) +:+
  stringify_at gap (indent +:+ gap) x +:+ items_tail gap (indent +:+ gap) rest +:+
  opening gap indent +:+ "]".
Proof.
  cbn [stringify_at]. unfold items_tail, opening, separator.
  destruct (is_empty gap); string_simpl; rewrite ?append_assoc; string_simpl;
    reflexivity.
Qed.

Lemma stringify_members (gap indent k : string) (x : json)
    (rest : list (string * json)) :
  stringify_at gap indent (JObj ((k, x) :: rest)) =
  "{" +:+ opening gap (indent +:+ gap) +:+ quote k +:+ colon gap +:+
  stringify_at gap (indent +:+ gap) x +:+ members_tail gap (indent +:+ gap) rest +:+
  opening gap indent +:+ "}".
Proof.
  cbn [stringify_at]. unfold members_tail, opening, separator, colon.
  destruct (is_empty gap); string_simpl; rewrite ?append_assoc; string_simpl;
    rewrite ?append_assoc; string_simpl; reflexivity.
Qed.

(** *** Reading a printed value back *)

Lemma blank_empty : blank EmptyString.
Proof. intros s. reflexivity. Qed.

Lemma blank_space : blank " ".
Proof. intros s. reflexivity. Qed.

Lemma blank_opening (gap indent : string) :
  spaces indent = true -> blank (opening gap indent).
Proof.
  intros Hi s. unfold opening. destruct (is_empty gap); [reflexivity|].
  unfold nl. string_simpl. cbn. now apply skip_spaces.
Qed.

Lemma stringify_starts (gap indent : string) (v : json) (rest : string) :
  starts_value (stringify_at gap indent v +:+ rest) = true.
Proof.
  destruct v as [|[]|n|s|[|x l]|[|[k x] l]]; try reflexivity.
  - apply number_starts.
  - rewrite stringify_items. reflexivity.
  - rewrite stringify_members. reflexivity.
Qed.

Lemma starts_value_skip (s : string) :
  starts_value s = true -> skip_ws s = s.
Proof.
  destruct s as [|c s]; [reflexivity|]. cbn.
  destruct c as [[] [] [] [] [] [] [] []]; cbn; intros H;
    try discriminate H; reflexivity.
Qed.

Lemma starts_value_not (a : ascii) (s : string) :
  value_char a = false -> starts_value s = true -> next_is a s = None.
Proof.
  intros Ha Hs. unfold next_is. rewrite (starts_value_skip s Hs).
  destruct s as [|c s]; [reflexivity|]. cbn in Hs.
  destruct (Ascii.eqb_spec c a) as [->|]; [congruence|reflexivity].
Qed.

Lemma next_is_head (a : ascii) (r : string) :
  is_ws a = false -> next_is a (String a r) = Some r.
Proof.
  intros Ha. unfold next_is. cbn [skip_ws]. rewrite Ha.
  now rewrite Ascii.eqb_refl.
Qed.

Lemma next_is_blank (a : ascii) (w s : string) :
  blank w -> next_is a (w +:+ s) = next_is a s.
Proof. intros Hw. unfold next_is. now rewrite Hw. Qed.

Lemma parse_value_blank (fuel : nat) (w s : string) :
  blank w -> parse_value fuel (w +:+ s) = parse_value fuel s.
Proof. intros Hw. destruct fuel; [reflexivity|]. cbn [parse_value]. now rewrite Hw. Qed.

Lemma separator_opening (gap indent : string) :
  separator gap indent = "," +:+ opening gap indent.
Proof. unfold separator, opening. destruct (is_empty gap); reflexivity. Qed.

Lemma number_end_opening (gap indent : string) (c : ascii) (rest : string) :
  number_end (String c rest) = true ->
  number_end (opening gap indent +:+ String c rest) = true.
Proof. unfold opening. destruct (is_empty gap); [tauto|reflexivity]. Qed.

Lemma parse_value_array (fuel : nat) (r : string) :
  parse_value (S fuel) (String "[" r) =
  match next_is "]" r with
  | Some r' => Some (JArr [], r')
  | None =>
      match parse_elements fuel r with
      | Some (l, r') => Some (JArr l, r')
      | None => None
      end
  end.
Proof. reflexivity. Qed.

Lemma parse_value_object (fuel : nat) (r : string) :
  parse_value (S fuel) (String "{" r) =
  match next_is "}" r with
  | Some r' => Some (JObj [], r')
  | None =>
      match parse_members fuel r with
      | Some (l, r') => Some (JObj l, r')
      | None => None
      end
  end.
Proof. reflexivity. Qed.

Lemma parse_value_number (fuel : nat) (c : ascii) (r : string) :
  number_char c = true ->
  parse_value (S fuel) (String c r) =
  match parse_number (String c r) with
  | Some (n, r') => Some (JNum n, r')
  | None => None
  end.
Proof.
  destruct c as [[] [] [] [] [] [] [] []]; cbn; intros H;
    try discriminate H; reflexivity.
Qed.

Section Roundtrip.
Variable gap : string.
Hypothesis gap_spaces : spaces gap = true.

Lemma next_is_colon (rest : string) :
  exists w, blank w /\ next_is ":" (colon gap +:+ rest) = Some (w +:+ rest).
Proof.
  unfold colon. destruct (is_empty gap).
  - exists EmptyString. split; [apply blank_empty | reflexivity].
  - exists " ". split; [apply blank_space | reflexivity].
Qed.

Lemma items_read_back (l : list json) :
  Forall (reads_back gap) l ->
  forall (x : json) (indent closing rest : string) (fuel : nat),
    reads_back gap x -> spaces indent = true ->
    (items_size (x :: l) <= fuel)%nat ->
    blank closing -> number_end (closing +:+ String "]" rest) = true ->
    parse_elements fuel
      (opening gap indent +:+ stringify_at gap indent x +:+
       items_tail gap indent l +:+ closing +:+ String "]" rest)
    = Some (x :: l, rest).
Proof.
  induction 1 as [|y l Hy Hl IH];
    intros x indent closing rest fuel Hx Hi Hfuel Hclosing Hend.
  - destruct fuel as [|f]; [cbn in Hfuel; lia|]. cbn [parse_elements].
    rewrite parse_value_blank by (now apply blank_opening).
    cbn [items_tail]. string_simpl.
    rewrite (Hx indent _ f Hi) by (cbn in Hfuel; lia || exact Hend).
    rewrite (next_is_blank _ _ _ Hclosing).
    replace (next_is "," (String "]" rest)) with (@None string) by reflexivity.
    rewrite (next_is_blank _ _ _ Hclosing).
    now rewrite next_is_head by reflexivity.
  - destruct fuel as [|f]; [cbn in Hfuel; lia|]. cbn [parse_elements].
    rewrite parse_value_blank by (now apply blank_opening).
    cbn [items_tail]. fold (items_tail gap indent).
    rewrite separator_opening. rewrite !append_assoc. string_simpl.
    rewrite (Hx indent _ f Hi) by (cbn in Hfuel; lia || reflexivity).
    rewrite next_is_head by reflexivity.
    rewrite (IH y indent closing rest f Hy Hi)
      by (cbn in Hfuel |- *; lia || assumption).
    reflexivity.
Qed.

Lemma members_read_back (l : list (string * json)) :
  Forall (fun m => reads_back gap (snd m)) l ->
  forall (k : string) (x : json) (indent closing rest : string) (fuel : nat),
    reads_back gap x -> spaces indent = true ->
    (members_size ((k, x) :: l) <= fuel)%nat ->
    blank closing -> number_end (closing +:+ String "}" rest) = true ->
    parse_members fuel
      (opening gap indent +:+ quote k +:+ colon gap +:+
       stringify_at gap indent x +:+
       members_tail gap indent l +:+ closing +:+ String "}" rest)
    = Some ((k, x) :: l, rest).
Proof.
  induction 1 as [|[k' y] l Hy Hl IH];
    intros k x indent closing rest fuel Hx Hi Hfuel Hclosing Hend.
  - destruct fuel as [|f]; [cbn in Hfuel; lia|]. cbn [parse_members].
    rewrite next_is_blank by (now apply blank_opening).
    rewrite quote_append, next_is_head by reflexivity.
    rewrite parse_quote_body.
    destruct (next_is_colon
                (stringify_at gap indent x +:+
                 members_tail gap indent [] +:+ closing +:+ String "}" rest))
      as (w & Hw & ->).
    rewrite parse_value_blank by exact Hw.
    cbn [members_tail]. string_simpl.
    rewrite (Hx indent _ f Hi) by (cbn in Hfuel; lia || exact Hend).
    rewrite (next_is_blank _ _ _ Hclosing).
    replace (next_is "," (String "}" rest)) with (@None string) by reflexivity.
    rewrite (next_is_blank _ _ _ Hclosing).
    now rewrite next_is_head by reflexivity.
  - destruct fuel as [|f]; [cbn in Hfuel; lia|]. cbn [parse_members].
    rewrite next_is_blank by (now apply blank_opening).
    rewrite quote_append, next_is_head by reflexivity.
    rewrite parse_quote_body.
    destruct (next_is_colon
                (stringify_at gap indent x +:+
                 members_tail gap indent ((k', y) :: l) +:+
                 closing +:+ String "}" rest))
      as (w & Hw & ->).
    rewrite parse_value_blank by exact Hw.
    cbn [members_tail]. fold (members_tail gap indent).
    rewrite separator_opening. rewrite !append_assoc. string_simpl.
    rewrite (Hx indent _ f Hi) by (cbn in Hfuel; lia || reflexivity).
    rewrite next_is_head by reflexivity.
    cbn [snd] in Hy.
    rewrite (IH k' y indent closing rest f Hy Hi)
      by (cbn in Hfuel |- *; lia || assumption).
    reflexivity.
Qed.

Lemma stringify_reads_back (v : json) : reads_back gap v.
Proof.
  induction v as [|b|n|s|l IH|l IH] using json_induction;
    intros indent rest fuel Hi Hfuel Hend;
    (destruct fuel as [|f]; [cbn in Hfuel; lia|]).
  - reflexivity.
  - destruct b; reflexivity.
  - cbn [stringify_at].
    destruct (number_head n rest) as (c & r & Heq & Hc).
    rewrite Heq, (parse_value_number f c r Hc), <- Heq.
    now rewrite parse_number_print.
  - cbn [stringify_at]. rewrite quote_append.
    change (parse_value (S f) (String dquote ?r)) with
      (match parse_string_body r with
       | Some (str, r') => Some (JStr str, r')
       | None => None
       end).
    now rewrite parse_quote_body.
  - destruct l as [|x l]; [reflexivity|].
    rewrite stringify_items. rewrite !append_assoc. string_simpl.
    rewrite parse_value_array.
    rewrite next_is_blank
      by (apply blank_opening, spaces_append; assumption).
    rewrite starts_value_not
      by (reflexivity || apply stringify_starts).
    inversion IH as [|? ? Hx Hl]; subst.
    rewrite (items_read_back l Hl x (indent +:+ gap) (opening gap indent) rest f Hx).
    + reflexivity.
    + now apply spaces_append.
    + cbn in Hfuel |- *. lia.
    + now apply blank_opening.
    + now apply number_end_opening.
  - destruct l as [|[k x] l]; [reflexivity|].
    rewrite stringify_members. rewrite !append_assoc. string_simpl.
    rewrite parse_value_object.
    rewrite next_is_blank
      by (apply blank_opening, spaces_append; assumption).
    rewrite quote_append.
    replace (next_is "}" (String dquote _)) with (@None string) by reflexivity.
    rewrite <- quote_append.
    inversion IH as [|? ? Hx Hl]; subst. cbn [snd] in Hx.
    rewrite (members_read_back l Hl k x (indent +:+ gap) (opening gap indent) rest f Hx).
    + reflexivity.
    + now apply spaces_append.
    + cbn in Hfuel |- *. lia.
    + now apply blank_opening.
    + now apply number_end_opening.
Qed.

Lemma size_le_length (v : json) :
  forall indent, (size v <= String.length (stringify_at gap indent v))%nat.
Proof.
  induction v as [|b|n|s|l IH|l IH] using json_induction; intros indent.
  - cbn. lia.
  - destruct b; cbn; lia.
  - cbn [size stringify_at].
    destruct (number_head n EmptyString) as (c & r & Heq & _).
    assert (Hlen : String.length (number_to_string n +:+ EmptyString) =
                   String.length (number_to_string n))
      by (rewrite length_append; cbn; lia).
    rewrite <- Hlen, Heq. cbn. lia.
  - cbn. lia.
  - destruct l as [|x l]; [cbn; lia|].
    rewrite stringify_items. inversion IH as [|? ? Hx Hl]; subst.
    assert (Htail : forall i,
      (items_size l <= String.length (items_tail gap i l))%nat).
    { intros i. clear Hx IH. induction Hl as [|y l Hy Hl IHl]; [cbn; lia|].
      cbn [items_tail]. fold (items_tail gap i).
      rewrite separator_opening, !length_append.
      specialize (Hy i). rewrite items_size_cons. cbn [String.length]. lia. }
    rewrite !length_append. specialize (Hx (indent +:+ gap)).
    specialize (Htail (indent +:+ gap)).
    rewrite size_array, items_size_cons. cbn [String.length]. lia.
  - destruct l as [|[k x] l]; [cbn; lia|].
    rewrite stringify_members. inversion IH as [|? ? Hx Hl]; subst.
    cbn [snd] in Hx.
    assert (Htail : forall i,
      (members_size l <= String.length (members_tail gap i l))%nat).
    { intros i. clear Hx IH. induction Hl as [|[k' y] l Hy Hl IHl]; [cbn; lia|].
      cbn [members_tail]. fold (members_tail gap i).
      rewrite separator_opening, !length_append.
      cbn [snd] in Hy. specialize (Hy i). rewrite members_size_cons.
      cbn [String.length snd]. lia. }
    rewrite !length_append. specialize (Hx (indent +:+ gap)).
    specialize (Htail (indent +:+ gap)).
    rewrite size_object, members_size_cons. cbn [String.length snd]. lia.
Qed.

Lemma parse_stringify_at (v : json) :
  parse (stringify_at gap EmptyString v) = Some v.
Proof.
  unfold parse.
  rewrite <- (append_empty (stringify_at gap EmptyString v)) at 2.
  rewrite stringify_reads_back; [reflexivity|reflexivity| |reflexivity].
  pose proof (size_le_length v EmptyString). lia.
Qed.

End Roundtrip.

(** [JSON.parse(JSON.stringify(v, null, 2))] gives [v] back. *)
Lemma parse_stringify_pretty (v : json) : parse (stringify_pretty v) = Some v.
Proof. apply parse_stringify_at. reflexivity. Qed.

(** [JSON.parse(JSON.stringify(v))] gives [v] back. *)
Lemma parse_stringify (v : json) : parse (stringify v) = Some v.
Proof. apply parse_stringify_at. reflexivity. Qed.

End JsonFacts.

(** ** Drive: the search filter *)

Module DriveFacts.
Import Drive.

Lemma escapedQuery_one_pass (query : string) :
  escapedQuery query = escape_pass query.
Proof.
  unfold escapedQuery.
  induction query as [|a rest IH]; simpl; [reflexivity|].
  destruct (Ascii.eqb a backslash) eqn:Hb.
  - string_simpl. simpl. now rewrite IH.
  - simpl. destruct (Ascii.eqb a quote) eqn:Hq; string_simpl.
    + now rewrite IH.
    + now rewrite IH.
Qed.

Lemma escape_pass_literal_body (query : string) :
  literal_body (escape_pass query) = true.
Proof.
  induction query as [|a rest IH]; simpl; [reflexivity|].
  destruct (Ascii.eqb a backslash) eqn:Hb; [exact IH|].
  destruct (Ascii.eqb a quote) eqn:Hq; [exact IH|].
  simpl. now rewrite Hb, Hq.
Qed.

Lemma unescape_escape_pass (query : string) :
  unescape (escape_pass query) = query.
Proof.
  induction query as [|a rest IH]; simpl; [reflexivity|].
  destruct (Ascii.eqb a backslash) eqn:Hb.
  - apply Ascii.eqb_eq in Hb. subst a. simpl. now rewrite IH.
  - destruct (Ascii.eqb a quote) eqn:Hq.
    + apply Ascii.eqb_eq in Hq. subst a. simpl. now rewrite IH.
    + simpl. rewrite Hb. now rewrite IH.
Qed.

(** C5. [searchFiles] replaces each backslash by two and then each single
    quote by a backslash and the quote, and sends the result between the
    quotes of [fullText contains '...']: the query [foo's bar] gives
    [fullText contains 'foo\'s bar'], and for every query the text between
    the quotes has no quote that is not taken by a backslash, ends in no
    pending backslash, and reads back as the query. *)
Theorem searchFiles_escapes_query :
  formattedQuery "foo's bar" = "fullText contains 'foo\'s bar'" /\
  forall (api : Api) (input : SearchInput),
    let escaped :=
      JsString.replace_all quote "\'"
        (JsString.replace_all backslash "\\" (query input)) in
    map q (snd (searchFiles api input)) =
      ["fullText contains '" +:+ escaped +:+ "'"] /\
    literal_body escaped = true /\
    unescape escaped = query input.
Proof.
  split; [reflexivity|].
  intros api input escaped.
  assert (Hpass : escaped = escape_pass (query input))
    by apply escapedQuery_one_pass.
  split; [reflexivity|].
  rewrite Hpass.
  split; [apply escape_pass_literal_body | apply unescape_escape_pass].
Qed.

End DriveFacts.

(** ** Sheets: the grid range *)

Module SheetsFacts.
Import Sheets.

Lemma getGridRange_constant (a1Range : string) :
  getGridRange a1Range = whole_first_sheet.
Proof. reflexivity. Qed.

(** C4. Whatever A1 range string [formatCells] or [mergeCells] is given,
    the one request of the batch update it sends carries the grid range
    sheet 0, rows 0 to 1000, columns 0 to 26. *)
Theorem grid_range_is_constant :
  forall (api : Api) (spreadsheet range : string) (format : Js.json),
    map (fun b => map range_of (requests b))
      (snd (formatCells api
         {| fc_spreadsheetId := spreadsheet; fc_range := range;
            fc_format := format |}))
    = [[ {| sheetId := 0; startRowIndex := 0; endRowIndex := 1000;
            startColumnIndex := 0; endColumnIndex := 26 |} ]] /\
    map (fun b => map range_of (requests b))
      (snd (mergeCells api
         {| mc_spreadsheetId := spreadsheet; mc_range := range |}))
    = [[ {| sheetId := 0; startRowIndex := 0; endRowIndex := 1000;
            startColumnIndex := 0; endColumnIndex := 26 |} ]].
Proof.
  intros api spreadsheet range format. split; reflexivity.
Qed.

End SheetsFacts.

(** ** Docs: the requests of an update *)

Module DocsFacts.
Import Docs.

Lemma bold_only_fields :
  snd (applyTextStyle empty_TextStyle bold_only) = ["bold"] /\
  snd (applyParagraphStyle empty_ParagraphStyle bold_only) = [].
Proof. split; reflexivity. Qed.

(** The end index that [updateDocument] deletes up to: the one of the last
    element of the body, and 1 when that element has none or has 0. *)
Lemma lastEndIndex_last (elements : list StructuralElement) (e : StructuralElement) :
  lastEndIndex {| doc_body := Some {| content := Some (elements ++ [e]) |} |}
  = match se_endIndex e with
    | Some n => if n =? 0 then 1 else n
    | None => 1
    end.
Proof.
  unfold lastEndIndex. cbn [doc_body content]. rewrite last_snoc.
  destruct (se_endIndex e) as [n|]; [|reflexivity].
  cbn. destruct (n =? 0); reflexivity.
Qed.

Lemma lastEndIndex_without_elements (doc : Document) :
  doc_body doc = None \/
  doc_body doc = Some {| content := None |} \/
  doc_body doc = Some {| content := Some [] |} ->
  lastEndIndex doc = 1.
Proof. unfold lastEndIndex. intros [->| [->| ->]]; reflexivity. Qed.

(** C9. Updating a document with the one section [{text: "Hello", style:
    {bold: true}}] sends, after reading the document, one batch of exactly
    three requests: the deletion of the range from 1 to the end index of
    the last element of the body that was read, the insertion of [Hello] at
    index 1, and one text-style update over [1, 6) whose field mask is
    [bold]; there is no paragraph-style request.  The deletion ends at 1 when
    the last element has no end index or the end index 0, and when the
    document has no body, no content or no element.  When the document
    cannot be read, no batch is sent. *)
Theorem update_with_bold_section :
  forall (api : Api) (id : string),
    let input :=
      {| document_id := id;
         input_content :=
           ContentSection {| text := "Hello"; style := Some bold_only |} |} in
    let calls (prior_end : Z) :=
      [documents_get id;
       documents_batchUpdate id
         [deleteContentRange {| startIndex := 1; endIndex := prior_end |};
          insertText {| segmentId := None; index := 1 |} "Hello";
          updateTextStyle {| startIndex := 1; endIndex := 6 |}
            bold_TextStyle "bold"]] in
    (forall (elements : list StructuralElement) (e : StructuralElement),
        get api id
        = Js.Return {| doc_body := Some {| content := Some (elements ++ [e]) |} |} ->
        snd (updateDocument api input)
        = calls match se_endIndex e with
                | Some n => if n =? 0 then 1 else n
                | None => 1
                end) /\
    (forall doc : Document,
        get api id = Js.Return doc ->
        doc_body doc = None \/
        doc_body doc = Some {| content := None |} \/
        doc_body doc = Some {| content := Some [] |} ->
        snd (updateDocument api input) = calls 1) /\
    (forall e, get api id = Js.Throw e ->
        snd (updateDocument api input) = [documents_get id]).
Proof.
  intros api id input calls.
  assert (Hsent : forall doc, get api id = Js.Return doc ->
            snd (updateDocument api input) = calls (lastEndIndex doc)).
  { intros doc Hdoc. unfold updateDocument. simpl. rewrite Hdoc. reflexivity. }
  split; [|split].
  - intros elements e Hdoc. rewrite (Hsent _ Hdoc).
    now rewrite lastEndIndex_last.
  - intros doc Hdoc Hnone. rewrite (Hsent _ Hdoc).
    now rewrite (lastEndIndex_without_elements doc Hnone).
  - intros e He. unfold updateDocument. simpl. rewrite He. reflexivity.
Qed.

(** A document whose body ends at index 12. *)
Lemma update_with_bold_section_witness :
  snd (updateDocument Scenario.stored_docs
         {| document_id := "doc-1";
            input_content :=
              ContentSection {| text := "Hello"; style := Some bold_only |} |})
  = [documents_get "doc-1";
     documents_batchUpdate "doc-1"
       [deleteContentRange {| startIndex := 1; endIndex := 12 |};
        insertText {| segmentId := None; index := 1 |} "Hello";
        updateTextStyle {| startIndex := 1; endIndex := 6 |} bold_TextStyle "bold"]].
Proof.
  exact (proj1 (update_with_bold_section Scenario.stored_docs "doc-1")
           [{| se_endIndex := Some 1 |}] {| se_endIndex := Some 12 |} eq_refl).
Defined.

End DocsFacts.

(** ** The credential manager *)

Module AuthFacts.
Import Js Effect Auth.

Ltac count_refresh :=
  unfold refresh_calls; rewrite ?List.filter_app, ?List.length_app; cbn; try lia.

Lemma within_margin_expiring (env : Env) (record : json) :
  within_margin env record -> not_expiring env (get record "expiry_date") = false.
Proof.
  unfold within_margin, not_expiring, fiveMinutes.
  destruct (get record "expiry_date") as [[| | e | | |]|]; cbn; try tauto.
  intros He. apply andb_false_iff. right. lia.
Qed.

(** *** Making directories *)

Lemma ancestors_within_shorter (env : Env) (fuel : nat) :
  forall dir a,
    In a (ancestors_within fuel env dir) ->
    (String.length a < String.length dir)%nat /\ a <> EmptyString.
Proof.
  induction fuel as [|fuel IH]; intros dir a; cbn [ancestors_within]; [intros []|].
  cbn zeta.
  destruct (Nat.ltb_spec (String.length (dirname env dir)) (String.length dir))
    as [Hlt|_]; cbn [andb]; [|intros []].
  destruct (is_empty (dirname env dir)) eqn:Hempty; cbn [negb]; [intros []|].
  intros [<-|Hin].
  - split; [exact Hlt|]. intros Heq. rewrite Heq in Hempty. discriminate Hempty.
  - destruct (IH _ _ Hin) as [Hlen Hne]. split; [lia|exact Hne].
Qed.

(** No path is above its own directory. *)
Lemma not_own_ancestor (env : Env) (path : string) :
  ~ In path (ancestors env (dirname env path)).
Proof.
  intros Hin. apply ancestors_within_shorter in Hin. destruct Hin as [Hlt Hne].
  pose proof (dirname_shorter env path) as Hle.
  destruct path as [|c rest]; [congruence|]. cbn [String.length] in *. lia.
Qed.

Lemma make_missing_existing (dirs : list string) (files : gmap string node)
    (p : string) :
  is_Some (files !! p) -> make_missing dirs files !! p = files !! p.
Proof.
  intros Hp. induction dirs as [|d rest IH]; [reflexivity|]. cbn [make_missing fold_right].
  fold (make_missing rest files).
  destruct (make_missing rest files !! d) eqn:Hd; [exact IH|].
  rewrite lookup_insert_ne; [exact IH|].
  intros ->. rewrite IH in Hd. rewrite Hd in Hp. destruct Hp as [x Hx]. discriminate Hx.
Qed.

Lemma make_missing_outside (dirs : list string) (files : gmap string node)
    (p : string) :
  ~ In p dirs -> make_missing dirs files !! p = files !! p.
Proof.
  induction dirs as [|d rest IH]; intros Hp; [reflexivity|].
  cbn [make_missing fold_right]. fold (make_missing rest files).
  assert (Hrest : ~ In p rest) by (intros H; apply Hp; now right).
  destruct (make_missing rest files !! d); [exact (IH Hrest)|].
  rewrite lookup_insert_ne; [exact (IH Hrest)|].
  intros ->. apply Hp. now left.
Qed.

Lemma make_missing_made (dirs : list string) (files : gmap string node)
    (p : string) :
  files !! p = None -> In p dirs -> make_missing dirs files !! p = Some Directory.
Proof.
  intros Hnone. induction dirs as [|d rest IH]; intros Hp; [destruct Hp|].
  cbn [make_missing fold_right]. fold (make_missing rest files).
  destruct (string_dec d p) as [->|Hne].
  - destruct (make_missing rest files !! p) as [n|] eqn:Hd.
    + destruct (in_dec string_dec p rest) as [Hin|Hout].
      * pose proof (IH Hin) as Hmade. congruence.
      * rewrite (make_missing_outside rest files p Hout), Hnone in Hd.
        discriminate Hd.
    + apply lookup_insert_eq.
  - assert (Hin : In p rest) by (destruct Hp as [Heq|Hin]; [congruence|exact Hin]).
    destruct (make_missing rest files !! d); [exact (IH Hin)|].
    rewrite lookup_insert_ne by exact Hne. exact (IH Hin).
Qed.

Lemma make_missing_all (dirs : list string) (files : gmap string node)
    (p : string) :
  In p dirs -> is_Some (make_missing dirs files !! p).
Proof.
  intros Hin. destruct (files !! p) as [n|] eqn:Hp.
  - rewrite make_missing_existing; rewrite Hp; eauto.
  - rewrite (make_missing_made dirs files p Hp Hin). eauto.
Qed.

(** *** Saving *)

Lemma saveCredentials_outcome (env : Env) (cp : string) (c : json) (st : State) :
  let r := fst (saveCredentials env cp c st) in
  let st' := snd (saveCredentials env cp c st) in
  auth st' = auth st /\ credentials st' = credentials st /\
  refresh_calls (trace st') = refresh_calls (trace st) /\
  match r with
  | Return _ =>
      fs st' !! cp = Some (File (stringify_pretty c)) /\
      exists t, trace st' = trace st ++ t ++ [WriteFile cp (stringify_pretty c)]
  | Throw e => e = save_failed cp
  end.
Proof.
  destruct st as [a cr f t].
  unfold saveCredentials, ensureDirectory, existsSync, mkdirSync, writeFile. run.
  destruct (f !! dirname env cp) as [d|] eqn:Hdir; cbn.
  - destruct (f !! cp) as [[content|]|] eqn:Hcp; cbn;
      try destruct (write_fault env cp); cbn;
      repeat split; try count_refresh;
      try (apply lookup_insert_eq); try (now exists []).
  - destruct (mkdir_fault env (dirname env cp)); cbn.
    + repeat split; count_refresh.
    + destruct (<[dirname env cp:=Directory]>
                  (make_missing (ancestors env (dirname env cp)) f) !! cp)
        as [[content|]|] eqn:Hcp; cbn;
        try destruct (write_fault env cp); cbn;
        repeat split; try count_refresh;
        try (apply lookup_insert_eq);
        try (exists [MkDir (dirname env cp)]; now rewrite <- !app_assoc).
Qed.

Lemma saveCredentials_succeeds (env : Env) (cp : string) (c : json) (st : State) :
  write_fault env cp = false ->
  mkdir_fault env (dirname env cp) = false ->
  fs st !! cp <> Some Directory ->
  dirname env cp <> cp ->
  fst (saveCredentials env cp c st) = Return tt.
Proof.
  intros Hw Hm Hnd Hne. destruct st as [a cr f t]. cbn in Hnd.
  unfold saveCredentials, ensureDirectory, existsSync, mkdirSync, writeFile. run.
  destruct (f !! dirname env cp) as [d|] eqn:Hdir; cbn.
  - destruct (f !! cp) as [[content|]|] eqn:Hcp; cbn; rewrite ?Hw; cbn;
      congruence.
  - rewrite Hm. cbn. rewrite lookup_insert_ne by exact Hne.
    rewrite (make_missing_outside _ f cp (not_own_ancestor env cp)).
    destruct (f !! cp) as [[content|]|] eqn:Hcp; cbn; rewrite ?Hw; cbn;
      congruence.
Qed.

(** The file system that [saveCredentials] leaves: the one it found when
    making the directory fails; the one with the directories made when the
    write fails; that one with the file written otherwise. *)
Lemma saveCredentials_steps (env : Env) (cp : string) (c : json) (st : State) :
  let r := fst (saveCredentials env cp c st) in
  let st' := snd (saveCredentials env cp c st) in
  let made :=
    match fs st !! dirname env cp with
    | Some _ => fs st
    | None =>
        <[dirname env cp := Directory]>
          (make_missing (ancestors env (dirname env cp)) (fs st))
    end in
  (mkdir_fault env (dirname env cp) = true /\
   r = Throw (save_failed cp) /\ fs st' = fs st) \/
  (r = Throw (save_failed cp) /\ fs st' = made) \/
  (r = Return tt /\ write_fault env cp = false /\
   fs st' = <[cp := File (stringify_pretty c)]> made).
Proof.
  destruct st as [a cr f t].
  unfold saveCredentials, ensureDirectory, existsSync, mkdirSync, writeFile. run.
  destruct (f !! dirname env cp) as [d|] eqn:Hdir; cbn.
  - destruct (f !! cp) as [[content|]|] eqn:Hcp; cbn;
      destruct (write_fault env cp) eqn:Hw; cbn; auto.
  - destruct (mkdir_fault env (dirname env cp)) eqn:Hm; cbn; [auto|].
    destruct (<[dirname env cp:=Directory]>
                (make_missing (ancestors env (dirname env cp)) f) !! cp)
      as [[content|]|] eqn:Hcp; cbn;
      destruct (write_fault env cp) eqn:Hw; cbn; auto.
Qed.

(** *** authenticate *)

(** C2. When the service holds a client and a credential record whose
    expiry is more than five minutes after the current time, [authenticate]
    returns that client and leaves the state as it was: the trace gains no
    call (no refresh, no write) and the file system is untouched. *)
Theorem authenticate_keeps_unexpired_client :
  forall (env : Env) (credentialsPath oauthPath : string) (st : State)
         (client : OAuth2Client) (expiry : Z),
    auth st = Some client ->
    get (credentials st) "expiry_date" = Some (JNum expiry) ->
    Z.of_N (now env) + 5 * 60 * 1000 < expiry ->
    authenticate env credentialsPath oauthPath st = (Return client, st).
Proof.
  intros env cp op [a c f t] client e Hauth Hexp Hlt.
  cbn in Hauth, Hexp. subst a.
  destruct c as [| | | | |members]; try discriminate Hexp.
  unfold authenticate, missing, not_expiring, fiveMinutes. run.
  cbn in Hexp. rewrite Hexp. cbn.
  assert (He : (e =? 0) = false) by lia.
  assert (Hl : (Z.of_N (now env) + 5 * 60 * 1000 <? e) = true) by lia.
  rewrite He, Hl. reflexivity.
Qed.

Lemma authenticate_keeps_unexpired_client_witness :
  auth (Example.holding Example.held_valid)
    = Some (Example.client_of Example.held_valid) /\
  get (credentials (Example.holding Example.held_valid)) "expiry_date"
    = Some (JNum 1700003600000) /\
  Z.of_N (now Example.env) + 5 * 60 * 1000 < 1700003600000 /\
  authenticate Example.env Example.credentialsPath Example.oauthPath
    (Example.holding Example.held_valid)
  = (Return (Example.client_of Example.held_valid),
     Example.holding Example.held_valid).
Proof.
  assert (H1 : auth (Example.holding Example.held_valid)
               = Some (Example.client_of Example.held_valid)) by reflexivity.
  assert (H2 : get (credentials (Example.holding Example.held_valid)) "expiry_date"
               = Some (JNum 1700003600000)) by reflexivity.
  assert (H3 : Z.of_N (now Example.env) + 5 * 60 * 1000 < 1700003600000)
    by reflexivity.
  refine (conj H1 (conj H2 (conj H3 _))).
  exact (authenticate_keeps_unexpired_client Example.env Example.credentialsPath
           Example.oauthPath _ _ _ H1 H2 H3).
Defined.

(** C7. When the held credential record has no refresh token and its expiry
    is at or past the five-minute margin, [authenticate] fails with
    NO_REFRESH_TOKEN and leaves the state as it was: no refresh call, the
    stored credentials and the credential file unchanged. *)
Theorem authenticate_without_refresh_token :
  forall (env : Env) (credentialsPath oauthPath : string) (st : State)
         (client : OAuth2Client) (members : list (string * json)),
    auth st = Some client ->
    credentials st = JObj members ->
    within_margin env (credentials st) ->
    truthy (get (credentials st) "refresh_token") = false ->
    authenticate env credentialsPath oauthPath st = (Throw no_refresh_token, st).
Proof.
  intros env cp op [a c f t] client members Hauth Hc Hexp Hrt.
  cbn in Hauth, Hc, Hexp, Hrt. subst a c.
  apply within_margin_expiring in Hexp.
  unfold authenticate, missing. run.
  cbn in Hexp, Hrt. rewrite Hexp, Hrt. reflexivity.
Qed.

Lemma authenticate_without_refresh_token_witness :
  within_margin Example.env Example.held_without_refresh /\
  truthy (get Example.held_without_refresh "refresh_token") = false /\
  authenticate Example.env Example.credentialsPath Example.oauthPath
    (Example.holding Example.held_without_refresh)
  = (Throw no_refresh_token, Example.holding Example.held_without_refresh).
Proof.
  assert (H3 : within_margin Example.env Example.held_without_refresh)
    by (vm_compute; discriminate).
  assert (H4 : truthy (get Example.held_without_refresh "refresh_token") = false)
    by reflexivity.
  refine (conj H3 (conj H4 _)).
  exact (authenticate_without_refresh_token Example.env Example.credentialsPath
           Example.oauthPath (Example.holding Example.held_without_refresh)
           _ _ eq_refl eq_refl H3 H4).
Defined.

(** C3. When the held credential record carries a refresh token and its
    expiry is at or past the five-minute margin, one call of [authenticate]
    calls the token endpoint exactly once.  When the endpoint answers, the
    answer becomes the stored credentials; the client is returned only after
    the answer was written to the credential file (the write is the last
    call of the trace, after the refresh), and it is returned whenever the
    file system raises no fault.  When the endpoint fails, the call fails
    with REFRESH_FAILED and stores nothing. *)
Theorem authenticate_refreshes_once :
  forall (env : Env) (credentialsPath oauthPath : string) (st : State)
         (client : OAuth2Client) (members : list (string * json)),
    auth st = Some client ->
    credentials st = JObj members ->
    within_margin env (credentials st) ->
    truthy (get (credentials st) "refresh_token") = true ->
    let r := fst (authenticate env credentialsPath oauthPath st) in
    let st' := snd (authenticate env credentialsPath oauthPath st) in
    refresh_calls (trace st') = (refresh_calls (trace st) + 1)%nat /\
    (forall fresh client',
        refreshAccessToken env client = Return (fresh, client') ->
        credentials st' = fresh /\ auth st' = Some client' /\
        (forall x, r = Return x ->
           x = client' /\
           fs st' !! credentialsPath = Some (File (stringify_pretty fresh)) /\
           exists t, trace st' =
             trace st ++ RefreshAccessToken ::
               t ++ [WriteFile credentialsPath (stringify_pretty fresh)]) /\
        (write_fault env credentialsPath = false ->
         mkdir_fault env (dirname env credentialsPath) = false ->
         fs st !! credentialsPath <> Some Directory ->
         dirname env credentialsPath <> credentialsPath ->
         r = Return client')) /\
    (forall e,
        refreshAccessToken env client = Throw e ->
        r = Throw refresh_failed /\ credentials st' = credentials st /\
        auth st' = auth st /\ fs st' = fs st).
Proof.
  intros env cp op [a c f t] client members Hauth Hc Hexp Hrt.
  cbn in Hauth, Hc, Hexp, Hrt. subst a c.
  apply within_margin_expiring in Hexp.
  unfold authenticate, missing, refresh.
  unfold bind, read, ret, throw, update, lift, try_catch. cbn -[saveCredentials].
  cbn in Hexp, Hrt. rewrite Hexp, Hrt.
  destruct (refreshAccessToken env client) as [[fresh client']|e] eqn:Href;
    cbn -[saveCredentials].
  - match goal with
    | |- context [saveCredentials env cp fresh ?s] => set (st1 := s)
    end.
    pose proof (saveCredentials_outcome env cp fresh st1) as Hsave.
    pose proof (saveCredentials_succeeds env cp fresh st1) as Hok.
    cbn zeta in Hsave.
    destruct (saveCredentials env cp fresh st1) as [[[]|e] st2].
    all: cbn [fst snd] in Hsave, Hok.
    all: destruct Hsave as (Ha & Hcr & Hn & Hres).
    all: subst st1; cbn in Ha, Hcr, Hn, Hok.
    all: rewrite ?Ha; cbn.
    all: (split; [rewrite Hn; count_refresh|]).
    all: split; [|intros e0 He0; discriminate He0].
    all: intros fresh0 client0 Heq; injection Heq as <- <-.
    all: cbn in Hres; refine (conj Hcr (conj Ha (conj _ _))).
    + intros x Hx. injection Hx as <-. destruct Hres as [Hfile [u Hu]].
      refine (conj eq_refl (conj Hfile _)).
      exists u. rewrite Hu. cbn. now rewrite <- app_assoc.
    + reflexivity.
    + intros x Hx. discriminate Hx.
    + intros Hw Hm Hd Hne. specialize (Hok Hw Hm Hd Hne). discriminate Hok.
  - split; [count_refresh|].
    split; [intros fresh0 client0 Heq; discriminate Heq|].
    intros e0 _. repeat split.
Qed.

Lemma authenticate_refreshes_once_witness :
  within_margin Example.env Example.held_expiring /\
  truthy (get Example.held_expiring "refresh_token") = true /\
  fst (authenticate Example.env Example.credentialsPath Example.oauthPath
         (Example.holding Example.held_expiring))
  = Return (setCredentials (Example.client_of Example.held_expiring) Example.refreshed) /\
  refresh_calls
    (trace (snd (authenticate Example.env Example.credentialsPath Example.oauthPath
                   (Example.holding Example.held_expiring)))) = 1%nat /\
  fs (snd (authenticate Example.env Example.credentialsPath Example.oauthPath
             (Example.holding Example.held_expiring))) !! Example.credentialsPath
  = Some (File (stringify_pretty Example.refreshed)).
Proof.
  assert (H3 : within_margin Example.env Example.held_expiring)
    by (vm_compute; discriminate).
  assert (H4 : truthy (get Example.held_expiring "refresh_token") = true)
    by reflexivity.
  refine (conj H3 (conj H4 _)).
  destruct (authenticate_refreshes_once Example.env Example.credentialsPath
              Example.oauthPath (Example.holding Example.held_expiring)
              _ _ eq_refl eq_refl H3 H4) as (Hcount & Hanswer & _).
  destruct (Hanswer Example.refreshed
              (setCredentials (Example.client_of Example.held_expiring)
                 Example.refreshed) eq_refl)
    as (_ & _ & Hreturned & Hreturns).
  assert (Hr : fst (authenticate Example.env Example.credentialsPath
                      Example.oauthPath (Example.holding Example.held_expiring))
               = Return (setCredentials (Example.client_of Example.held_expiring)
                           Example.refreshed)).
  { apply Hreturns; [reflexivity | reflexivity | | ].
    - vm_compute. discriminate.
    - vm_compute. discriminate. }
  refine (conj Hr (conj Hcount _)).
  exact (proj1 (proj2 (Hreturned _ Hr))).
Defined.

(** *** Loading *)

Lemma oauth_arguments_installed (cfg inst uris : json) :
  get cfg "installed" = Some inst ->
  get inst "redirect_uris" = Some uris ->
  uris <> JNull ->
  exists uri,
    get_index0 (Some uris) = Return uri /\
    oauth_arguments cfg =
      Return (get inst "client_id", get inst "client_secret", uri).
Proof.
  intros Hinst Huris Hnn.
  destruct cfg as [| | | | |cl]; try discriminate Hinst.
  destruct inst as [| | | | |il]; try discriminate Huris.
  unfold oauth_arguments. cbn in *. rewrite Hinst. cbn. rewrite Huris.
  destruct uris as [| | |[|a s]| |]; try congruence; cbn; eexists; split; reflexivity.
Qed.

Lemma load_found (env : Env) (cp op : string) (st : State)
    (text cfg_text : string) (c cfg : json) (args : value * value * value) :
  fs st !! cp = Some (File text) -> read_fault env cp = false ->
  parse text = Some c ->
  fs st !! op = Some (File cfg_text) -> read_fault env op = false ->
  parse cfg_text = Some cfg ->
  oauth_arguments cfg = Return args ->
  let client := setCredentials (new_OAuth2 args.1.1 args.1.2 args.2) c in
  loadSavedCredentials env cp op st =
    (Return (Some client),
     {| auth := Some client; credentials := c; fs := fs st;
        trace := trace st ++ [ReadFile cp; ReadFile op] |}).
Proof.
  intros Hcp Hr Hp Hop Hro Hpc Hargs client.
  destruct st as [a cr f t]. cbn in Hcp, Hop.
  unfold loadSavedCredentials, existsSync, readFile, JSON_parse. run.
  repeat (progress (rewrite ?Hcp, ?Hop, ?Hr, ?Hp, ?Hro, ?Hpc, ?Hargs; cbn)).
  destruct args as [[i s] u]. unfold with_credentials, with_auth, log. cbn.
  rewrite <- app_assoc. reflexivity.
Qed.

Lemma load_returns_credentials (env : Env) (cp op : string) (st st' : State)
    (text : string) (c : json) (client : OAuth2Client) :
  fs st !! cp = Some (File text) -> parse text = Some c ->
  loadSavedCredentials env cp op st = (Return (Some client), st') ->
  client_credentials client = c /\ credentials st' = c /\ auth st' = Some client.
Proof.
  intros Hcp Hp. destruct st as [a cr f t]. cbn in Hcp.
  unfold loadSavedCredentials, existsSync, readFile, JSON_parse. run.
  rewrite Hcp. cbn.
  destruct (f !! op) as [[cfg_text|]|] eqn:Hop; cbn; try discriminate.
  - rewrite Hcp. cbn. destruct (read_fault env cp); cbn; try discriminate.
    rewrite Hp. cbn. rewrite Hop. cbn.
    destruct (read_fault env op); cbn; try discriminate.
    destruct (parse cfg_text) as [cfg|]; cbn; try discriminate.
    destruct (oauth_arguments cfg) as [[[i s] u]|e]; cbn.
    + intros H. injection H as <- <-. repeat split.
    + destruct (is_AuthenticationError e); discriminate.
  - rewrite Hcp. cbn. destruct (read_fault env cp); cbn; try discriminate.
    rewrite Hp. cbn. rewrite Hop. cbn. discriminate.
Qed.

Lemma load_not_null (env : Env) (cp op : string) (st : State) (n : node) :
  fs st !! cp = Some n ->
  fst (loadSavedCredentials env cp op st) <> Return None.
Proof.
  intros Hcp. destruct st as [a cr f t]. cbn in Hcp.
  unfold loadSavedCredentials, existsSync, readFile, JSON_parse. run.
  rewrite Hcp. cbn.
  destruct (f !! op) as [[cfg_text|]|] eqn:Hop; cbn; try discriminate.
  - rewrite Hcp. destruct n as [text|]; cbn; try discriminate.
    destruct (read_fault env cp); cbn; try discriminate.
    destruct (parse text) as [c|]; cbn; try discriminate.
    rewrite Hop. cbn.
    destruct (read_fault env op); cbn; try discriminate.
    destruct (parse cfg_text) as [cfg|]; cbn; try discriminate.
    destruct (oauth_arguments cfg) as [[[i s] u]|e]; cbn; try discriminate.
    destruct (is_AuthenticationError e); discriminate.
  - rewrite Hcp. destruct n as [text|]; cbn; try discriminate.
    destruct (read_fault env cp); cbn; try discriminate.
    destruct (parse text) as [c|]; cbn; try discriminate.
    rewrite Hop. cbn. discriminate.
Qed.

(** C8. [loadSavedCredentials] returns null when there is no
    credential file, and fails with NO_OAUTH_KEYS when there is one and no
    client-config file.  When both are files that can be read and parse, and
    the parsed configuration has an [installed] member with a [redirect_uris]
    member that is not null, it returns a client built from that member and
    carrying the parsed credentials, which it also stores. *)
Theorem loadSavedCredentials_cases :
  forall (env : Env) (credentialsPath oauthPath : string) (st : State),
    (fs st !! credentialsPath = None ->
     loadSavedCredentials env credentialsPath oauthPath st = (Return None, st)) /\
    (is_Some (fs st !! credentialsPath) -> fs st !! oauthPath = None ->
     loadSavedCredentials env credentialsPath oauthPath st
     = (Throw (no_oauth_keys oauthPath), st)) /\
    (forall (text cfg_text : string) (c cfg inst uris : json),
       fs st !! credentialsPath = Some (File text) ->
       read_fault env credentialsPath = false ->
       parse text = Some c ->
       fs st !! oauthPath = Some (File cfg_text) ->
       read_fault env oauthPath = false ->
       parse cfg_text = Some cfg ->
       get cfg "installed" = Some inst ->
       get inst "redirect_uris" = Some uris -> uris <> JNull ->
       exists client st',
         loadSavedCredentials env credentialsPath oauthPath st
         = (Return (Some client), st') /\
         client_credentials client = c /\
         clientId client = get inst "client_id" /\
         clientSecret client = get inst "client_secret" /\
         get_index0 (Some uris) = Return (redirectUri client) /\
         auth st' = Some client /\ credentials st' = c /\ fs st' = fs st).
Proof.
  intros env cp op st. split; [|split].
  - intros Hcp. destruct st as [a cr f t]. cbn in Hcp.
    unfold loadSavedCredentials, existsSync. run. rewrite Hcp. reflexivity.
  - intros [n Hcp] Hop. destruct st as [a cr f t]. cbn in Hcp, Hop.
    unfold loadSavedCredentials, existsSync. run. rewrite Hcp. cbn.
    rewrite Hop. reflexivity.
  - intros text cfg_text c cfg inst uris Hcp Hr Hp Hop Hro Hpc Hinst Huris Hnn.
    destruct (oauth_arguments_installed cfg inst uris Hinst Huris Hnn)
      as (uri & Huri & Hargs).
    eexists; eexists. split.
    + exact (load_found env cp op st text cfg_text c cfg _ Hcp Hr Hp Hop Hro Hpc Hargs).
    + cbn. repeat split. exact Huri.
Qed.

Lemma loadSavedCredentials_cases_witness :
  exists client st',
    loadSavedCredentials Example.env Example.credentialsPath Example.oauthPath
      (Example.on_disk Example.installed_keys)
    = (Return (Some client), st') /\
    client_credentials client = Example.held_valid /\
    clientId client = Some (JStr "client-id").
Proof.
  destruct (proj2 (proj2 (loadSavedCredentials_cases Example.env
              Example.credentialsPath Example.oauthPath
              (Example.on_disk Example.installed_keys)))
              (stringify_pretty Example.held_valid)
              (stringify Example.installed_keys)
              Example.held_valid Example.installed_keys Example.client_keys
              (JArr [JStr "http://localhost"]))
    as (client & st' & Hload & Hc & Hid & _).
  - vm_compute. reflexivity.
  - reflexivity.
  - vm_compute. reflexivity.
  - vm_compute. reflexivity.
  - reflexivity.
  - vm_compute. reflexivity.
  - reflexivity.
  - reflexivity.
  - discriminate.
  - exists client, st'. exact (conj Hload (conj Hc Hid)).
Defined.

(** Both files exist and parse, the key file being that of a web
    application: the call fails with LOAD_FAILED and returns no client. *)
Lemma load_rejects_web_keys :
  fs (Example.on_disk Example.web_keys) !! Example.credentialsPath
    = Some (File (stringify_pretty Example.held_valid)) /\
  parse (stringify_pretty Example.held_valid) = Some Example.held_valid /\
  fs (Example.on_disk Example.web_keys) !! Example.oauthPath
    = Some (File (stringify Example.web_keys)) /\
  parse (stringify Example.web_keys) = Some Example.web_keys /\
  fst (loadSavedCredentials Example.env Example.credentialsPath Example.oauthPath
         (Example.on_disk Example.web_keys))
  = Throw load_failed.
Proof. repeat split; vm_compute; reflexivity. Qed.

(** *** Saving, then loading *)

(** C10. After [saveCredentials] has written a credential record, a
    [loadSavedCredentials] that returns at all returns a client (never null)
    whose credentials are the saved record, so that its access token,
    refresh token and expiry are those that were saved; and it does return
    whenever both files can be read and the client configuration is one it
    accepts. *)
Theorem credentials_round_trip :
  forall (env : Env) (credentialsPath oauthPath : string) (st : State)
         (record : json),
    fst (saveCredentials env credentialsPath record st) = Return tt ->
    let saved := snd (saveCredentials env credentialsPath record st) in
    fst (loadSavedCredentials env credentialsPath oauthPath saved) <> Return None /\
    (forall client st',
        loadSavedCredentials env credentialsPath oauthPath saved
        = (Return (Some client), st') ->
        client_credentials client = record /\
        get (client_credentials client) "access_token" = get record "access_token" /\
        get (client_credentials client) "refresh_token" = get record "refresh_token" /\
        get (client_credentials client) "expiry_date" = get record "expiry_date") /\
    (forall (cfg_text : string) (cfg inst uris : json),
        read_fault env credentialsPath = false ->
        fs saved !! oauthPath = Some (File cfg_text) ->
        read_fault env oauthPath = false ->
        parse cfg_text = Some cfg ->
        get cfg "installed" = Some inst ->
        get inst "redirect_uris" = Some uris -> uris <> JNull ->
        exists client st',
          loadSavedCredentials env credentialsPath oauthPath saved
          = (Return (Some client), st') /\
          client_credentials client = record).
Proof.
  intros env cp op st c Hsave saved.
  pose proof (saveCredentials_outcome env cp c st) as Hout.
  cbn zeta in Hout. rewrite Hsave in Hout.
  destruct Hout as (_ & _ & _ & Hfile & _). fold saved in Hfile.
  pose proof (JsonFacts.parse_stringify_pretty c) as Hparse.
  split; [|split].
  - exact (load_not_null env cp op saved _ Hfile).
  - intros client st' Hload.
    destruct (load_returns_credentials env cp op saved st' _ c client
                Hfile Hparse Hload) as (Hc & _ & _).
    rewrite Hc. repeat split.
  - intros cfg_text cfg inst uris Hr Hop Hro Hpc Hinst Huris Hnn.
    destruct (oauth_arguments_installed cfg inst uris Hinst Huris Hnn)
      as (uri & _ & Hargs).
    eexists; eexists. split.
    + exact (load_found env cp op saved _ cfg_text c cfg _
               Hfile Hr Hparse Hop Hro Hpc Hargs).
    + reflexivity.
Qed.

Lemma credentials_round_trip_witness :
  fst (saveCredentials Example.env Example.credentialsPath Example.held_valid
         Example.fresh_install) = Return tt /\
  exists client st',
    loadSavedCredentials Example.env Example.credentialsPath Example.oauthPath
      (snd (saveCredentials Example.env Example.credentialsPath Example.held_valid
              Example.fresh_install))
    = (Return (Some client), st') /\
    client_credentials client = Example.held_valid.
Proof.
  assert (Hsave : fst (saveCredentials Example.env Example.credentialsPath
                         Example.held_valid Example.fresh_install) = Return tt)
    by (vm_compute; reflexivity).
  split; [exact Hsave|].
  destruct (credentials_round_trip Example.env Example.credentialsPath
              Example.oauthPath Example.fresh_install Example.held_valid Hsave)
    as (_ & _ & Hloads).
  apply (Hloads (stringify Example.installed_keys) Example.installed_keys
           Example.client_keys (JArr [JStr "http://localhost"])).
  - reflexivity.
  - vm_compute. reflexivity.
  - reflexivity.
  - vm_compute. reflexivity.
  - reflexivity.
  - reflexivity.
  - discriminate.
Defined.

End AuthFacts.

(** ** The tool dispatcher *)

Module ServerFacts.
Import Js Effect Server.

Lemma tool_of_name_tool_name (t : Tool) : tool_of_name (tool_name t) = Some t.
Proof. destruct t; reflexivity. Qed.

Lemma tool_of_name_outside (n : string) :
  ~ In n catalog -> tool_of_name n = None.
Proof.
  intros Hn. unfold tool_of_name.
  repeat match goal with
  | |- context [String.eqb n ?s] =>
      destruct (String.eqb_spec n s) as [->|_];
        [exfalso; apply Hn; cbn; tauto|]
  end.
  reflexivity.
Qed.

Lemma tool_of_name_inside (n : string) :
  In n catalog -> exists t, tool_of_name n = Some t /\ n = tool_name t.
Proof.
  intros Hn. cbn in Hn.
  repeat (destruct Hn as [<-|Hn]; [eexists; split; reflexivity|]).
  contradiction.
Qed.

Lemma catalog_has_sixteen_names : List.length catalog = 16%nat /\ NoDup catalog.
Proof.
  split; [reflexivity|].
  apply (bool_decide_unpack (NoDup catalog)). vm_compute. exact I.
Qed.

Section Handler.
Variable zod_message : Zod.schema -> value -> string.
Variable services : Services.

(** What the handler makes of a request whose case throws. *)
Lemma callTool_catch (request : CallToolRequest) (t : Tool) (trace trace' : Trace)
    (e : thrown) :
  name request = tool_name t ->
  run_tool zod_message services t (arguments request) trace = (Throw e, trace') ->
  callTool zod_message services request trace =
    match errorMessage e with
    | Return message =>
        (Return {| content := [text_block message]; isError := true |}, trace')
    | Throw e' => (Throw e', trace')
    end.
Proof.
  intros Hname Hbody. unfold callTool, try_catch.
  rewrite Hname, tool_of_name_tool_name, Hbody.
  unfold bind, lift, ret. destruct (errorMessage e); reflexivity.
Qed.

Lemma run_tool_adapter_throws (t : Tool) (args input : value) (e : thrown)
    (trace : Trace) :
  Zod.parse (schema_of t) args = Some input ->
  services t input = Throw e ->
  run_tool zod_message services t args trace = (Throw e, trace ++ [(t, input)]).
Proof.
  intros Hparse Hthrow.
  unfold run_tool, validate, call, bind, ret, throw, update, lift.
  rewrite Hparse. cbn. rewrite Hthrow. reflexivity.
Qed.

(** C1. For a name outside the catalog of sixteen tools the handler returns
    the error response with the text [An error occurred: Tool not found] and
    calls no adapter.  When the adapter of a recognized tool throws an error
    without cause, the handler returns the error response whose text is
    [An error occurred: ] and the error's message; a cause that is JSON data
    is added on a second line, and a thrown value that is no error is put as
    its JSON text.  But when the cause, or the thrown value, is an object
    that refers to itself or a BigInt, [JSON.stringify] throws inside the
    catch clause and the handler returns no response: a [TypeError] leaves
    it. *)
Theorem callTool_error_paths (request : CallToolRequest) (trace : Trace) :
  (~ In (name request) catalog ->
   callTool zod_message services request trace =
     (Return {| content := [text_block "An error occurred: Tool not found"];
                isError := true |}, trace)) /\
  (forall (t : Tool) (input : value),
      name request = tool_name t ->
      Zod.parse (schema_of t) (arguments request) = Some input ->
      let after := trace ++ [(t, input)] in
      let handled := callTool zod_message services request trace in
      (forall class message code,
          services t input = Throw (ThrowError class message code None) ->
          handled =
            (Return {| content := [text_block ("An error occurred: " +:+ message)];
                       isError := true |}, after)) /\
      (forall class message code cause,
          services t input = Throw (ThrowError class message code (Some (Data cause))) ->
          handled =
            (Return {| content :=
                         [text_block ("An error occurred: " +:+ message +:+ nl +:+
                                      "Cause: " +:+ stringify_value cause)];
                       isError := true |}, after)) /\
      (forall v,
          services t input = Throw (ThrowValue (Data v)) ->
          handled =
            (Return {| content :=
                         [text_block ("An error occurred: " +:+ stringify_value v)];
                       isError := true |}, after)) /\
      (forall class message code cause,
          cause = Circular \/ (exists n, cause = BigInt n) ->
          services t input = Throw (ThrowError class message code (Some cause)) ->
          exists reason,
            handled = (Throw (ThrowError TypeError reason None None), after)) /\
      (forall v,
          v = Circular \/ (exists n, v = BigInt n) ->
          services t input = Throw (ThrowValue v) ->
          exists reason,
            handled = (Throw (ThrowError TypeError reason None None), after))).
Proof.
  split.
  - intros Hn. unfold callTool, try_catch.
    rewrite (tool_of_name_outside _ Hn). reflexivity.
  - intros t input Hname Hparse after handled.
    assert (Hcatch : forall e, services t input = Throw e ->
              handled = match errorMessage e with
                        | Return message =>
                            (Return {| content := [text_block message];
                                       isError := true |}, after)
                        | Throw e' => (Throw e', after)
                        end).
    { intros e Hthrow. apply (callTool_catch request t trace after e Hname).
      exact (run_tool_adapter_throws t _ input e trace Hparse Hthrow). }
    repeat split; intros; try (erewrite Hcatch by eassumption; reflexivity).
    all: match goal with
         | H : _ \/ _ |- _ => destruct H as [->|[n ->]]
         end.
    all: eexists; erewrite Hcatch by eassumption; reflexivity.
Qed.

End Handler.

(** A failed request behind an error whose cause holds a reference to
    itself, as the response object of an HTTP library does. *)
Lemma callTool_error_paths_witness :
  (exists reason,
     callTool Example.zod_message Example.circular_cause_services
       {| name := "search"; arguments := Some (JObj [("query", JStr "report")]) |} []
     = (Throw (ThrowError TypeError reason None None),
        [(search, Some (JObj [("query", JStr "report"); ("page_size", JNum 10)]))])) /\
  callTool Example.zod_message Example.failing_services
    {| name := "search"; arguments := Some (JObj [("query", JStr "report")]) |} []
  = (Return {| content := [text_block "An error occurred: Request failed"];
               isError := true |},
     [(search, Some (JObj [("query", JStr "report"); ("page_size", JNum 10)]))]) /\
  callTool Example.zod_message Example.failing_services
    {| name := "drive_delete_file"; arguments := None |} []
  = (Return {| content := [text_block "An error occurred: Tool not found"];
               isError := true |}, []).
Proof.
  pose (request := {| name := "search";
                      arguments := Some (JObj [("query", JStr "report")]) |}).
  pose (input := Some (JObj [("query", JStr "report"); ("page_size", JNum 10)])).
  split; [|split].
  - pose proof (proj2 (callTool_error_paths Example.zod_message
                         Example.circular_cause_services request [])
                  search input eq_refl eq_refl) as H.
    exact (proj1 (proj2 (proj2 (proj2 H))) _ _ _ Circular (or_introl eq_refl) eq_refl).
  - pose proof (proj2 (callTool_error_paths Example.zod_message
                         Example.failing_services request [])
                  search input eq_refl eq_refl) as H.
    exact (proj1 H _ _ _ eq_refl).
  - apply (proj1 (callTool_error_paths Example.zod_message Example.failing_services
                    {| name := "drive_delete_file"; arguments := None |} [])).
    cbn. intuition discriminate.
Defined.

(** *** The two schemas of docs_update_content *)

Lemma parse_without_requests (args : value) :
  has_requests_array args = false ->
  Zod.parse Zod.UpdateDocContentInputSchema args = None.
Proof.
  destruct args as [[| | | | |l]|]; try reflexivity.
  cbn. intros H.
  destruct (assoc_last "requests" l) as [[| | | |items|]|]; try discriminate H;
    cbn; destruct (assoc_last "document_id" l) as [[]|]; reflexivity.
Qed.

Lemma valid_object_required (type : option string)
    (properties : list (string * JsonSchema.schema)) (required : list string)
    (anyOf : option (list JsonSchema.schema)) (items : option JsonSchema.schema)
    (minimum maximum : option Z) (l : list (string * json)) :
  JsonSchema.valid
    (JsonSchema.Schema type properties required anyOf items minimum maximum)
    (JObj l) = true ->
  forallb (JsonSchema.has_key l) required = true.
Proof.
  simpl. intros H.
  do 3 (apply andb_true_iff in H; destruct H as [H _]).
  apply andb_true_iff in H. destruct H as [_ H].
  apply andb_true_iff in H. exact (proj2 H).
Qed.

Lemma advertised_requires_content (l : list (string * json)) :
  assoc_last "content" l = None ->
  JsonSchema.valid JsonSchema.docs_update_content_inputSchema (JObj l) = false.
Proof.
  intros Hc.
  destruct (JsonSchema.valid JsonSchema.docs_update_content_inputSchema (JObj l))
    eqn:Hvalid; [|reflexivity].
  apply valid_object_required in Hvalid. cbn in Hvalid.
  unfold JsonSchema.has_key in Hvalid. rewrite Hc in Hvalid.
  rewrite andb_false_r in Hvalid. discriminate Hvalid.
Qed.

(** C6. Arguments of [docs_update_content] that have no array
    under [requests] are rejected by the schema the handler validates with:
    the response is the error response that carries zod's message, and the
    update adapter is not called.  Arguments made of the advertised
    properties alone ([document_id] and [content]) are among them, whatever
    the two values; and arguments that the handler's schema accepts but that
    have no [content] are not valid for the advertised schema. *)
Theorem docs_update_content_needs_requests :
  forall (zod_message : Zod.schema -> value -> string) (services : Services)
         (args : value) (trace : Trace),
    has_requests_array args = false ->
    Zod.parse Zod.UpdateDocContentInputSchema args = None /\
    callTool zod_message services
      {| name := "docs_update_content"; arguments := args |} trace
    = (Return
         {| content :=
              [text_block ("An error occurred: " +:+
                           zod_message Zod.UpdateDocContentInputSchema args)];
            isError := true |},
       trace) /\
    (forall shaped, advertised_shape shaped -> has_requests_array (Some shaped) = false) /\
    (forall accepted : json,
        Zod.parse Zod.UpdateDocContentInputSchema (Some accepted) <> None ->
        get accepted "content" = None ->
        JsonSchema.valid JsonSchema.docs_update_content_inputSchema accepted = false).
Proof.
  intros zm svc args trace Hargs.
  pose proof (parse_without_requests args Hargs) as Hparse.
  split; [exact Hparse|]. split; [|split].
  - unfold callTool, try_catch. cbn [name arguments].
    change (tool_of_name "docs_update_content") with (Some docs_update_content).
    unfold run_tool, validate, bind. cbn [schema_of]. rewrite Hparse.
    reflexivity.
  - intros shaped (id & content & ->). reflexivity.
  - intros accepted Haccepted Hcontent.
    destruct accepted as [| | | | |l]; try (exfalso; apply Haccepted; reflexivity).
    exact (advertised_requires_content l Hcontent).
Qed.

Lemma docs_update_content_needs_requests_witness :
  has_requests_array (Some Example.advertised_arguments) = false /\
  JsonSchema.valid JsonSchema.docs_update_content_inputSchema
    Example.advertised_arguments = true /\
  callTool Example.zod_message Example.failing_services
    {| name := "docs_update_content";
       arguments := Some Example.advertised_arguments |} []
  = (Return {| content := [text_block "An error occurred: Required"];
               isError := true |}, []).
Proof.
  assert (H : has_requests_array (Some Example.advertised_arguments) = false)
    by reflexivity.
  refine (conj H (conj _ _)).
  - vm_compute. reflexivity.
  - exact (proj1 (proj2 (docs_update_content_needs_requests Example.zod_message
                           Example.failing_services
                           (Some Example.advertised_arguments) [] H))).
Defined.

(** Arguments with [document_id], [content] and an array under [requests]
    are valid for the advertised schema and accepted by the handler's
    schema, which keeps [document_id] and [requests]. *)
Lemma both_schemas_accept :
  JsonSchema.valid JsonSchema.docs_update_content_inputSchema
    Example.arguments_with_requests = true /\
  Zod.parse Zod.UpdateDocContentInputSchema (Some Example.arguments_with_requests)
  = Some (Some (JObj [("document_id", JStr "doc-1"); ("requests", JArr [])])).
Proof. split; vm_compute; reflexivity. Qed.

End ServerFacts.

(** ** The credential manager: failures, loading and the entry point *)

Module AuthMore.
Import Js Effect Auth Entry.

(** The property accesses throw TypeErrors only. *)
Lemma get_prop_throws (o : value) (k : string) (e : thrown) :
  get_prop o k = Throw e -> is_AuthenticationError e = false.
Proof. destruct o as [[]|]; cbn; intros H; inversion H; reflexivity. Qed.

Lemma get_index0_throws (o : value) (e : thrown) :
  get_index0 o = Throw e -> is_AuthenticationError e = false.
Proof.
  destruct o as [[| | |[]| |]|]; cbn; intros H; inversion H; reflexivity.
Qed.

Lemma oauth_arguments_throws (cfg : json) (e : thrown) :
  oauth_arguments cfg = Throw e -> is_AuthenticationError e = false.
Proof.
  unfold oauth_arguments.
  destruct (get_prop (Some cfg) "installed") as [inst|e1] eqn:H1.
  2:{ intros H. injection H as <-. exact (get_prop_throws _ _ _ H1). }
  destruct (get_prop inst "client_id") as [id|e2] eqn:H2.
  2:{ intros H. injection H as <-. exact (get_prop_throws _ _ _ H2). }
  destruct (get_prop inst "client_secret") as [sec|e3] eqn:H3.
  2:{ intros H. injection H as <-. exact (get_prop_throws _ _ _ H3). }
  destruct (get_prop inst "redirect_uris") as [uris|e4] eqn:H4.
  2:{ intros H. injection H as <-. exact (get_prop_throws _ _ _ H4). }
  destruct (get_index0 uris) as [uri|e5] eqn:H5.
  2:{ intros H. injection H as <-. exact (get_index0_throws _ _ H5). }
  discriminate.
Qed.

(** What [loadSavedCredentials] does in every case. *)
Lemma load_outcome (env : Env) (cp op : string) (st : State) :
  let r := fst (loadSavedCredentials env cp op st) in
  let st' := snd (loadSavedCredentials env cp op st) in
  fs st' = fs st /\
  (exists reads, trace st' = trace st ++ reads /\ forallb is_read reads = true) /\
  match r with
  | Return None =>
      fs st !! cp = None /\ auth st' = auth st /\ credentials st' = credentials st
  | Return (Some client) =>
      auth st' = Some client /\ credentials st' = client_credentials client /\
      is_Some (fs st !! cp) /\ is_Some (fs st !! op)
  | Throw e =>
      (e = no_oauth_keys op /\ fs st !! op = None \/ e = load_failed) /\
      is_Some (fs st !! cp) /\
      auth st' = auth st /\ credentials st' = credentials st
  end.
Proof.
  destruct st as [a cr f t].
  unfold loadSavedCredentials, existsSync, readFile, JSON_parse. run.
  destruct (f !! cp) as [n|] eqn:Hcp; cbn.
  2:{ split; [reflexivity|]. split; [exists []; now rewrite app_nil_r|]. auto. }
  destruct (f !! op) as [k|] eqn:Hop; cbn.
  2:{ split; [reflexivity|]. split; [exists []; now rewrite app_nil_r|].
      repeat split; eauto. }
  rewrite Hcp.
  destruct n as [text|]; cbn.
  2:{ split; [reflexivity|]. split; [now exists [ReadFile cp]|].
      repeat split; eauto. }
  destruct (read_fault env cp); cbn.
  { split; [reflexivity|]. split; [now exists [ReadFile cp]|].
    repeat split; eauto. }
  destruct (parse text) as [c|]; cbn.
  2:{ split; [reflexivity|]. split; [now exists [ReadFile cp]|].
      repeat split; eauto. }
  rewrite Hop.
  destruct k as [cfg_text|]; cbn.
  2:{ split; [reflexivity|].
      split; [exists [ReadFile cp; ReadFile op]; now rewrite <- app_assoc|].
      repeat split; eauto. }
  destruct (read_fault env op); cbn.
  { split; [reflexivity|].
    split; [exists [ReadFile cp; ReadFile op]; now rewrite <- app_assoc|].
    repeat split; eauto. }
  destruct (parse cfg_text) as [cfg|]; cbn.
  2:{ split; [reflexivity|].
      split; [exists [ReadFile cp; ReadFile op]; now rewrite <- app_assoc|].
      repeat split; eauto. }
  destruct (oauth_arguments cfg) as [[[i s] u]|e] eqn:Hargs; cbn.
  - split; [reflexivity|].
    split; [exists [ReadFile cp; ReadFile op]; now rewrite <- app_assoc|].
    repeat split; eauto.
  - rewrite (oauth_arguments_throws cfg e Hargs). cbn.
    split; [reflexivity|].
    split; [exists [ReadFile cp; ReadFile op]; now rewrite <- app_assoc|].
    repeat split; eauto.
Qed.


Lemma load_absent (env : Env) (cp op : string) (st : State) :
  fs st !! cp = None -> loadSavedCredentials env cp op st = (Return None, st).
Proof.
  intros Hcp. destruct st as [a cr f t]. cbn in Hcp.
  unfold loadSavedCredentials, existsSync. run. rewrite Hcp. reflexivity.
Qed.

(** *** authenticate, case by case *)

(** With a client and credentials held, [authenticate] does not load. *)
Lemma authenticate_held (env : Env) (cp op : string) (st : State)
    (client : OAuth2Client) :
  auth st = Some client -> truthy (Some (credentials st)) = true ->
  authenticate env cp op st =
    if not_expiring env (get (credentials st) "expiry_date") then (Return client, st)
    else if truthy (get (credentials st) "refresh_token") then
      try_catch
        (let! response := refresh env client in
         do! update (with_credentials (fst response)) in
         do! saveCredentials env cp (fst response) in
         ret (snd response))
        (fun error => throw refresh_failed) st
    else (Throw no_refresh_token, st).
Proof.
  intros Ha Hc. destruct st as [a c f t]. cbn [auth credentials] in Ha, Hc.
  subst a.
  unfold authenticate, missing.
  unfold bind at 1. unfold read at 1. cbn [auth credentials]. rewrite Hc.
  cbn [negb]. unfold bind at 1. unfold ret at 1.
  unfold bind at 1. unfold read at 1. unfold bind at 1. unfold read at 1.
  cbn [auth credentials]. rewrite Hc. cbn [negb].
  destruct (not_expiring env (get c "expiry_date")); [reflexivity|].
  destruct (truthy (get c "refresh_token")); reflexivity.
Qed.

(** With nothing usable held, [authenticate] loads first. *)
Lemma authenticate_loads (env : Env) (cp op : string) (st : State) :
  missing st = true ->
  authenticate env cp op st =
    match loadSavedCredentials env cp op st with
    | (Return None, st1) => (Throw no_credentials, st1)
    | (Return (Some _), st1) =>
        if missing st1 then (Throw invalid_state, st1)
        else authenticate env cp op st1
    | (Throw e, st1) => (Throw e, st1)
    end.
Proof.
  intros Hm. unfold authenticate at 1.
  unfold bind at 1. unfold read at 1. rewrite Hm.
  unfold bind at 1. unfold bind at 1.
  destruct (loadSavedCredentials env cp op st) as [[[loaded|]|e] st1];
    [|reflexivity|reflexivity].
  unfold ret at 1. unfold bind at 1. unfold read at 1.
  unfold bind at 1. unfold read at 1.
  destruct (missing st1) eqn:Hm1.
  - unfold missing in Hm1. destruct (auth st1) as [client|]; [|reflexivity].
    rewrite Hm1. reflexivity.
  - unfold missing in Hm1. destruct (auth st1) as [client|] eqn:Ha1;
      [|discriminate Hm1].
    apply negb_false_iff in Hm1.
    rewrite (authenticate_held env cp op st1 client Ha1 Hm1).
    rewrite Hm1. cbn [negb].
    destruct (not_expiring env (get (credentials st1) "expiry_date"));
      [reflexivity|].
    destruct (truthy (get (credentials st1) "refresh_token")); reflexivity.
Qed.


(** The try block of [authenticate], step by step. *)
Lemma refresh_block (env : Env) (cp : string) (client : OAuth2Client) (st : State) :
  try_catch
    (let! response := refresh env client in
     do! update (with_credentials (fst response)) in
     do! saveCredentials env cp (fst response) in
     ret (snd response))
    (fun error => throw refresh_failed) st
  = match refreshAccessToken env client with
    | Throw _ => (Throw refresh_failed, log RefreshAccessToken st)
    | Return (fresh, client') =>
        match saveCredentials env cp fresh
                (with_credentials fresh
                   (with_auth (Some client') (log RefreshAccessToken st))) with
        | (Return _, st2) => (Return client', st2)
        | (Throw _, st2) => (Throw refresh_failed, st2)
        end
    end.
Proof.
  unfold refresh, try_catch, bind, update, throw, ret. cbn -[saveCredentials].
  destruct (refreshAccessToken env client) as [[fresh client']|e];
    cbn -[saveCredentials]; [|reflexivity].
  destruct (saveCredentials env cp fresh _) as [[[]|e] st2]; reflexivity.
Qed.

(** *** Saving touches the credential file and the directories above it *)

Lemma made_lookup_existing (env : Env) (cp p : string) (files : gmap string node) :
  is_Some (files !! p) ->
  match files !! dirname env cp with
  | Some _ => files
  | None =>
      <[dirname env cp := Directory]>
        (make_missing (ancestors env (dirname env cp)) files)
  end !! p = files !! p.
Proof.
  intros Hp. destruct (files !! dirname env cp) eqn:Hdir; [reflexivity|].
  rewrite lookup_insert_ne.
  - now apply AuthFacts.make_missing_existing.
  - intros Heq. rewrite <- Heq, Hdir in Hp. destruct Hp as [x Hx].
    discriminate Hx.
Qed.

Lemma made_lookup_file (env : Env) (cp : string) (files : gmap string node) :
  dirname env cp <> cp ->
  match files !! dirname env cp with
  | Some _ => files
  | None =>
      <[dirname env cp := Directory]>
        (make_missing (ancestors env (dirname env cp)) files)
  end !! cp = files !! cp.
Proof.
  intros Hne. destruct (files !! dirname env cp); [reflexivity|].
  rewrite lookup_insert_ne by exact Hne.
  apply AuthFacts.make_missing_outside, AuthFacts.not_own_ancestor.
Qed.

Lemma made_lookup_missing (env : Env) (cp p : string) (files : gmap string node) :
  files !! p = None ->
  let made :=
    match files !! dirname env cp with
    | Some _ => files
    | None =>
        <[dirname env cp := Directory]>
          (make_missing (ancestors env (dirname env cp)) files)
    end in
  made !! p = None \/
  (made !! p = Some Directory /\
   (p = dirname env cp \/ In p (ancestors env (dirname env cp)))).
Proof.
  intros Hp. cbn zeta. destruct (files !! dirname env cp); [now left|].
  destruct (string_dec p (dirname env cp)) as [->|Hne].
  - right. rewrite lookup_insert_eq. auto.
  - rewrite lookup_insert_ne by congruence.
    destruct (in_dec string_dec p (ancestors env (dirname env cp))) as [Hin|Hout].
    + right. rewrite (AuthFacts.make_missing_made _ files p Hp Hin). auto.
    + left. now rewrite (AuthFacts.make_missing_outside _ files p Hout).
Qed.

Lemma made_has_directory (env : Env) (cp : string) (files : gmap string node) :
  is_Some (match files !! dirname env cp with
           | Some _ => files
           | None =>
               <[dirname env cp := Directory]>
                 (make_missing (ancestors env (dirname env cp)) files)
           end !! dirname env cp).
Proof.
  destruct (files !! dirname env cp) eqn:Hdir.
  - rewrite Hdir. eauto.
  - rewrite lookup_insert_eq. eauto.
Qed.

Lemma save_frame (env : Env) (cp : string) (c : json) (st : State) :
  let r := fst (saveCredentials env cp c st) in
  let st' := snd (saveCredentials env cp c st) in
  (forall p, p <> cp -> is_Some (fs st !! p) -> fs st' !! p = fs st !! p) /\
  (forall p, p <> cp -> fs st !! p = None ->
     fs st' !! p = None \/
     (fs st' !! p = Some Directory /\
      (p = dirname env cp \/ In p (ancestors env (dirname env cp))))) /\
  (forall e, r = Throw e -> dirname env cp <> cp -> fs st' !! cp = fs st !! cp) /\
  (r = Return tt -> is_Some (fs st' !! dirname env cp)) /\
  (write_fault env cp = true -> r = Throw (save_failed cp)).
Proof.
  pose proof (AuthFacts.saveCredentials_steps env cp c st) as Hsteps.
  cbn zeta in *.
  destruct Hsteps as [(_ & Hr & Hfs)|[[Hr Hfs]|(Hr & Hw & Hfs)]]; rewrite Hr, Hfs.
  - split; [reflexivity|]. split; [intros p _ Hp; now left|].
    split; [reflexivity|]. split; [discriminate|reflexivity].
  - split; [intros p _ Hp; now apply made_lookup_existing|].
    split; [intros p _ Hp; now apply made_lookup_missing|].
    split; [intros e _ Hne; now apply made_lookup_file|].
    split; [discriminate|reflexivity].
  - split; [intros p Hne Hp; rewrite lookup_insert_ne by congruence;
            now apply made_lookup_existing|].
    split; [intros p Hne Hp; rewrite lookup_insert_ne by congruence;
            now apply made_lookup_missing|].
    split; [discriminate|].
    split; [|intros Hw'; congruence].
    intros _. destruct (string_dec cp (dirname env cp)) as [Heq|Hne].
    + rewrite <- Heq, lookup_insert_eq. eauto.
    + rewrite lookup_insert_ne by exact Hne. apply made_has_directory.
Qed.


(** When the directory is missing and can be made, it is there afterwards,
    and so is every directory above it. *)
Lemma save_makes_directories (env : Env) (cp : string) (c : json) (st : State) :
  let st' := snd (saveCredentials env cp c st) in
  fs st !! dirname env cp = None ->
  mkdir_fault env (dirname env cp) = false ->
  forall a,
    a = dirname env cp \/ In a (ancestors env (dirname env cp)) ->
    a <> cp ->
    is_Some (fs st' !! a).
Proof.
  cbn zeta. intros Hdir Hm a Ha Hne.
  pose proof (AuthFacts.saveCredentials_steps env cp c st) as Hsteps.
  cbn zeta in Hsteps. rewrite Hdir in Hsteps.
  assert (Hmade : is_Some (<[dirname env cp:=Directory]>
                             (make_missing (ancestors env (dirname env cp)) (fs st))
                           !! a)).
  { destruct (string_dec a (dirname env cp)) as [->|Hd].
    - rewrite lookup_insert_eq. eauto.
    - rewrite lookup_insert_ne by congruence.
      destruct Ha as [Ha|Ha]; [contradiction|].
      now apply AuthFacts.make_missing_all. }
  destruct Hsteps as [(Hfault & _)|[[_ Hfs]|(_ & _ & Hfs)]].
  - congruence.
  - rewrite Hfs. exact Hmade.
  - rewrite Hfs, lookup_insert_ne by congruence. exact Hmade.
Qed.

Lemma missing_false (st : State) :
  missing st = false ->
  exists client, auth st = Some client /\ truthy (Some (credentials st)) = true.
Proof.
  unfold missing. destruct (auth st) as [client|]; [|discriminate].
  intros H. apply negb_false_iff in H. eauto.
Qed.

Lemma authenticate_held_failure (env : Env) (cp op : string) (st : State)
    (e : thrown) :
  missing st = false ->
  fst (authenticate env cp op st) = Throw e ->
  e = refresh_failed \/ e = no_refresh_token.
Proof.
  intros Hm. destruct (missing_false st Hm) as (client & Ha & Hc).
  rewrite (authenticate_held env cp op st client Ha Hc).
  destruct (not_expiring env _); [discriminate|].
  destruct (truthy (get (credentials st) "refresh_token")).
  - rewrite refresh_block.
    destruct (refreshAccessToken env client) as [[fresh client']|e0].
    + destruct (saveCredentials env cp fresh _) as [[[]|e1] st2]; cbn;
        [discriminate|]. intros H. injection H as <-. now left.
    + cbn. intros H. injection H as <-. now left.
  - cbn. intros H. injection H as <-. now right.
Qed.

(** The failures of [authenticate]. *)
Lemma authenticate_failures :
  forall (env : Env) (credentialsPath oauthPath : string) (st : State)
         (e : thrown),
    fst (authenticate env credentialsPath oauthPath st) = Throw e ->
    e = no_credentials \/ e = no_oauth_keys oauthPath \/ e = load_failed \/
    e = invalid_state \/ e = refresh_failed \/ e = no_refresh_token.
Proof.
  intros env cp op st e.
  destruct (missing st) eqn:Hm.
  - rewrite (authenticate_loads env cp op st Hm).
    pose proof (load_outcome env cp op st) as Hload. cbn zeta in Hload.
    destruct (loadSavedCredentials env cp op st) as [[[loaded|]|e0] st1];
      cbn [fst snd] in Hload.
    + destruct (missing st1) eqn:Hm1.
      * cbn. intros H. injection H as <-. tauto.
      * intros H. apply (authenticate_held_failure env cp op st1 e Hm1) in H.
        tauto.
    + cbn. intros H. injection H as <-. tauto.
    + cbn. intros H. injection H as <-.
      destruct Hload as (_ & _ & [[-> _]| ->] & _); tauto.
  - intros H. apply (authenticate_held_failure env cp op st e Hm) in H. tauto.
Qed.

(** X1. Whatever the state, the clock, the files and the token endpoint: when
    [authenticate] fails, the error is one of six authentication errors
    (NO_CREDENTIALS, NO_OAUTH_KEYS, LOAD_FAILED, INVALID_STATE,
    REFRESH_FAILED, NO_REFRESH_TOKEN).  A failure to write the credential
    file is never reported as SAVE_FAILED, and no error of a library gets
    through. *)
Theorem authenticate_failure_codes :
  forall (env : Env) (credentialsPath oauthPath : string) (st : State)
         (e : thrown),
    fst (authenticate env credentialsPath oauthPath st) = Throw e ->
    e = no_credentials \/ e = no_oauth_keys oauthPath \/ e = load_failed \/
    e = invalid_state \/ e = refresh_failed \/ e = no_refresh_token.
Proof. exact authenticate_failures. Qed.

Lemma authenticate_failure_codes_witness :
  fst (authenticate Example.env Example.credentialsPath Example.oauthPath
         Scenario.saved_without_refresh) = Throw no_refresh_token /\
  (no_refresh_token = no_credentials \/
   no_refresh_token = no_oauth_keys Example.oauthPath \/
   no_refresh_token = load_failed \/ no_refresh_token = invalid_state \/
   no_refresh_token = refresh_failed \/ no_refresh_token = no_refresh_token).
Proof.
  assert (H : fst (authenticate Example.env Example.credentialsPath
                     Example.oauthPath Scenario.saved_without_refresh)
              = Throw no_refresh_token) by (vm_compute; reflexivity).
  split; [exact H|].
  exact (authenticate_failure_codes Example.env Example.credentialsPath
           Example.oauthPath Scenario.saved_without_refresh no_refresh_token H).
Defined.

(** X2. A service that holds nothing, started beside a readable credential
    file whose record expires more than five minutes from now and a key file
    it accepts: [authenticate] returns the client built from the key file,
    carrying the record of the credential file.  It reads the two files and
    does nothing else: no refresh, no write, the file system as it was. *)
Theorem authenticate_loads_from_disk :
  forall (env : Env) (credentialsPath oauthPath : string) (st : State)
         (text cfg_text : string) (members : list (string * json))
         (cfg inst uris : json) (expiry : Z),
    missing st = true ->
    fs st !! credentialsPath = Some (File text) ->
    read_fault env credentialsPath = false ->
    parse text = Some (JObj members) ->
    fs st !! oauthPath = Some (File cfg_text) ->
    read_fault env oauthPath = false ->
    parse cfg_text = Some cfg ->
    get cfg "installed" = Some inst ->
    get inst "redirect_uris" = Some uris -> uris <> JNull ->
    get (JObj members) "expiry_date" = Some (JNum expiry) ->
    Z.of_N (now env) + 5 * 60 * 1000 < expiry ->
    exists client,
      authenticate env credentialsPath oauthPath st =
        (Return client,
         {| auth := Some client; credentials := JObj members; fs := fs st;
            trace := trace st ++ [ReadFile credentialsPath; ReadFile oauthPath] |}) /\
      client_credentials client = JObj members /\
      clientId client = get inst "client_id" /\
      clientSecret client = get inst "client_secret".
Proof.
  intros env cp op st text cfg_text members cfg inst uris expiry
    Hm Hcp Hr Hp Hop Hro Hpc Hinst Huris Hnn Hexp Hlt.
  destruct (AuthFacts.oauth_arguments_installed cfg inst uris Hinst Huris Hnn)
    as (uri & _ & Hargs).
  rewrite (authenticate_loads env cp op st Hm).
  rewrite (AuthFacts.load_found env cp op st text cfg_text (JObj members) cfg _
             Hcp Hr Hp Hop Hro Hpc Hargs).
  cbn [fst snd missing auth credentials truthy negb].
  eexists. split.
  - match goal with
    | |- authenticate _ _ _ ?s = _ =>
        rewrite (authenticate_held env cp op s _ eq_refl eq_refl)
    end.
    cbn [credentials]. unfold not_expiring, fiveMinutes. rewrite Hexp.
    assert (He : (expiry =? 0) = false) by lia.
    assert (Hl : (Z.of_N (now env) + 5 * 60 * 1000 <? expiry) = true) by lia.
    cbn. rewrite He, Hl. reflexivity.
  - repeat split.
Qed.

Lemma authenticate_loads_from_disk_witness :
  exists client,
    authenticate Example.env Example.credentialsPath Example.oauthPath
      (Example.on_disk Example.installed_keys)
    = (Return client,
       {| auth := Some client; credentials := Example.held_valid;
          fs := fs (Example.on_disk Example.installed_keys);
          trace := [ReadFile Example.credentialsPath; ReadFile Example.oauthPath] |}) /\
    client_credentials client = Example.held_valid.
Proof.
  destruct (authenticate_loads_from_disk Example.env Example.credentialsPath
              Example.oauthPath (Example.on_disk Example.installed_keys)
              (stringify_pretty Example.held_valid)
              (stringify Example.installed_keys)
              [("access_token", JStr "ya29.held");
               ("refresh_token", JStr "1//refresh");
               ("expiry_date", JNum 1700003600000)]
              Example.installed_keys Example.client_keys
              (JArr [JStr "http://localhost"]) 1700003600000)
    as (client & Hrun & Hc & _).
  - reflexivity.
  - vm_compute. reflexivity.
  - reflexivity.
  - vm_compute. reflexivity.
  - vm_compute. reflexivity.
  - reflexivity.
  - vm_compute. reflexivity.
  - reflexivity.
  - reflexivity.
  - discriminate.
  - reflexivity.
  - reflexivity.
  - exists client. exact (conj Hrun Hc).
Defined.

(** X3. A service that holds nothing usable.  Without a credential file
    [authenticate] fails with NO_CREDENTIALS and the state is as it was: no
    file is read, no flow is started.  When the credential file parses to a
    value that counts as false (the text [null], for one) and the key file is
    accepted, the loaded client is not used: the call fails with
    INVALID_STATE. *)
Theorem authenticate_without_usable_credentials :
  forall (env : Env) (credentialsPath oauthPath : string) (st : State),
    missing st = true ->
    (fs st !! credentialsPath = None ->
     authenticate env credentialsPath oauthPath st = (Throw no_credentials, st)) /\
    (forall (text cfg_text : string) (c cfg inst uris : json),
        fs st !! credentialsPath = Some (File text) ->
        read_fault env credentialsPath = false ->
        parse text = Some c -> truthy (Some c) = false ->
        fs st !! oauthPath = Some (File cfg_text) ->
        read_fault env oauthPath = false ->
        parse cfg_text = Some cfg ->
        get cfg "installed" = Some inst ->
        get inst "redirect_uris" = Some uris -> uris <> JNull ->
        fst (authenticate env credentialsPath oauthPath st) = Throw invalid_state /\
        fs (snd (authenticate env credentialsPath oauthPath st)) = fs st).
Proof.
  intros env cp op st Hm. split.
  - intros Hcp. rewrite (authenticate_loads env cp op st Hm).
    rewrite (load_absent env cp op st Hcp). reflexivity.
  - intros text cfg_text c cfg inst uris Hcp Hr Hp Hc Hop Hro Hpc Hinst Huris Hnn.
    destruct (AuthFacts.oauth_arguments_installed cfg inst uris Hinst Huris Hnn)
      as (uri & _ & Hargs).
    rewrite (authenticate_loads env cp op st Hm).
    rewrite (AuthFacts.load_found env cp op st text cfg_text c cfg _
               Hcp Hr Hp Hop Hro Hpc Hargs).
    cbn [fst snd missing auth credentials]. rewrite Hc. split; reflexivity.
Qed.

Lemma authenticate_without_usable_credentials_witness :
  authenticate Example.env Example.credentialsPath Example.oauthPath
    Example.fresh_install = (Throw no_credentials, Example.fresh_install) /\
  fst (authenticate Example.env Example.credentialsPath Example.oauthPath
         Scenario.saved_null) = Throw invalid_state.
Proof.
  split.
  - apply (authenticate_without_usable_credentials Example.env
             Example.credentialsPath Example.oauthPath Example.fresh_install);
      reflexivity.
  - apply (proj2 (authenticate_without_usable_credentials Example.env
             Example.credentialsPath Example.oauthPath Scenario.saved_null
             eq_refl)
             "null" (stringify Example.installed_keys) JNull
             Example.installed_keys Example.client_keys
             (JArr [JStr "http://localhost"])).
    + vm_compute. reflexivity.
    + reflexivity.
    + vm_compute. reflexivity.
    + reflexivity.
    + vm_compute. reflexivity.
    + reflexivity.
    + vm_compute. reflexivity.
    + reflexivity.
    + reflexivity.
    + discriminate.
Defined.


(** X4. The refresh succeeds and the credential file cannot be written: the
    call fails with REFRESH_FAILED, not SAVE_FAILED.  The refreshed
    credentials are already the ones held in memory while the file keeps what
    it had; and once they are held, a later call that finds them more than
    five minutes from expiry returns the client without trying the write
    again. *)
Theorem refresh_survives_failed_save :
  forall (env : Env) (credentialsPath oauthPath : string) (st : State)
         (client client' : OAuth2Client) (members : list (string * json))
         (fresh : json),
    auth st = Some client ->
    credentials st = JObj members ->
    within_margin env (credentials st) ->
    truthy (get (credentials st) "refresh_token") = true ->
    refreshAccessToken env client = Return (fresh, client') ->
    write_fault env credentialsPath = true ->
    dirname env credentialsPath <> credentialsPath ->
    let r := fst (authenticate env credentialsPath oauthPath st) in
    let st' := snd (authenticate env credentialsPath oauthPath st) in
    r = Throw refresh_failed /\
    credentials st' = fresh /\ auth st' = Some client' /\
    fs st' !! credentialsPath = fs st !! credentialsPath /\
    (truthy (Some fresh) = true ->
     not_expiring env (get fresh "expiry_date") = true ->
     authenticate env credentialsPath oauthPath st' = (Return client', st')).
Proof.
  intros env cp op st client client' members fresh Ha Hc Hexp Hrt Href Hw Hne.
  assert (Htruthy : truthy (Some (credentials st)) = true) by now rewrite Hc.
  apply AuthFacts.within_margin_expiring in Hexp.
  rewrite (authenticate_held env cp op st client Ha Htruthy).
  rewrite Hexp, Hrt, refresh_block, Href.
  match goal with
  | |- context [saveCredentials env cp fresh ?s] => set (st1 := s)
  end.
  pose proof (AuthFacts.saveCredentials_outcome env cp fresh st1) as Hout.
  pose proof (save_frame env cp fresh st1) as Hframe.
  cbn zeta in Hout, Hframe.
  destruct Hframe as (_ & _ & Hkeep & _ & Hfail). specialize (Hfail Hw).
  destruct (saveCredentials env cp fresh st1) as [[[]|e] st2];
    cbn [fst snd] in *; [discriminate Hfail|].
  destruct Hout as (Hauth & Hcred & _).
  specialize (Hkeep e eq_refl Hne).
  subst st1. cbn in Hauth, Hcred, Hkeep.
  refine (conj eq_refl (conj Hcred (conj Hauth (conj Hkeep _)))).
  intros Hf Hnot.
  assert (Hf' : truthy (Some (credentials st2)) = true) by now rewrite Hcred.
  rewrite (authenticate_held env cp op st2 client' Hauth Hf').
  rewrite Hcred, Hnot. reflexivity.
Qed.

Lemma refresh_survives_failed_save_witness :
  fst (authenticate Scenario.read_only Example.credentialsPath Example.oauthPath
         (Example.holding Example.held_expiring)) = Throw refresh_failed /\
  credentials
    (snd (authenticate Scenario.read_only Example.credentialsPath Example.oauthPath
            (Example.holding Example.held_expiring))) = Example.refreshed /\
  fs (snd (authenticate Scenario.read_only Example.credentialsPath
             Example.oauthPath (Example.holding Example.held_expiring)))
    !! Example.credentialsPath = None.
Proof.
  destruct (refresh_survives_failed_save Scenario.read_only
              Example.credentialsPath Example.oauthPath
              (Example.holding Example.held_expiring) _
              (setCredentials (Example.client_of Example.held_expiring)
                 Example.refreshed)
              _ Example.refreshed eq_refl eq_refl)
    as (Hr & Hc & _ & Hfs & _).
  - vm_compute. discriminate.
  - reflexivity.
  - reflexivity.
  - reflexivity.
  - vm_compute. discriminate.
  - refine (conj Hr (conj Hc _)). rewrite Hfs. vm_compute. reflexivity.
Defined.


(** *** The interactive authorisation *)

(** [performFullAuthentication], step by step. *)
Lemma full_authentication (env : Env) (cp op : string) (st : State) :
  performFullAuthentication env cp op st =
  match fs st !! op with
  | None => (Throw (no_oauth_keys op), st)
  | Some node =>
      let st0 := log (ReadFile op) st in
      match node with
      | Directory => (Throw auth_failed, st0)
      | File cfg_text =>
          if read_fault env op then (Throw auth_failed, st0)
          else
            match parse cfg_text with
            | None => (Throw auth_failed, st0)
            | Some cfg =>
                match oauth_arguments cfg with
                | Throw _ => (Throw auth_failed, st0)
                | Return (id, secret, uri) =>
                    let st1 :=
                      log (LocalAuth op)
                        (with_auth (Some (new_OAuth2 id secret uri)) st0) in
                    match localAuth env op with
                    | Throw _ => (Throw auth_failed, st1)
                    | Return client =>
                        match saveCredentials env cp (client_credentials client)
                                (with_credentials (client_credentials client)
                                   (with_auth (Some client) st1)) with
                        | (Return _, st2) => (Return client, st2)
                        | (Throw _, st2) => (Throw auth_failed, st2)
                        end
                    end
                end
            end
      end
  end.
Proof.
  destruct st as [a cr f t].
  unfold performFullAuthentication, existsSync, readFile, JSON_parse.
  unfold bind, read, ret, throw, update, lift, try_catch.
  cbn -[saveCredentials].
  destruct (f !! op) as [[cfg_text|]|] eqn:Hop; cbn -[saveCredentials];
    rewrite ?Hop; try reflexivity.
  destruct (read_fault env op); cbn -[saveCredentials]; [reflexivity|].
  destruct (parse cfg_text) as [cfg|]; cbn -[saveCredentials]; [|reflexivity].
  destruct (oauth_arguments cfg) as [[[id secret] uri]|e];
    cbn -[saveCredentials]; [|reflexivity].
  destruct (localAuth env op) as [client|e]; cbn -[saveCredentials];
    [|reflexivity].
  destruct (saveCredentials env cp (client_credentials client) _)
    as [[[]|e] st2]; reflexivity.
Qed.





(** X6. What an authorisation saved, a later run loads.  After
    [performFullAuthentication] has returned a client, a process started on
    the file system it left (holding nothing yet) gets from
    [loadSavedCredentials] a client with the same credentials, provided the
    credential file is not the key file and can be read. *)
Theorem authorisation_is_loaded_later :
  forall (env : Env) (credentialsPath oauthPath : string) (st st' : State)
         (client : OAuth2Client),
    performFullAuthentication env credentialsPath oauthPath st
      = (Return client, st') ->
    credentialsPath <> oauthPath ->
    read_fault env credentialsPath = false ->
    exists loaded st'',
      loadSavedCredentials env credentialsPath oauthPath (initial (fs st'))
        = (Return (Some loaded), st'') /\
      client_credentials loaded = client_credentials client /\
      credentials st'' = client_credentials client.
Proof.
  intros env cp op st st' client Hrun Hneq Hr.
  rewrite full_authentication in Hrun.
  destruct (fs st !! op) as [[cfg_text|]|] eqn:Hop; cbn zeta in Hrun;
    try discriminate Hrun.
  destruct (read_fault env op) eqn:Hro; try discriminate Hrun.
  destruct (parse cfg_text) as [cfg|] eqn:Hpc; try discriminate Hrun.
  destruct (oauth_arguments cfg) as [[[id secret] uri]|e0] eqn:Hargs;
    try discriminate Hrun.
  destruct (localAuth env op) as [flow|e0]; try discriminate Hrun.
  match type of Hrun with
  | context [saveCredentials env cp ?c ?s] =>
      pose proof (AuthFacts.saveCredentials_outcome env cp c s) as Hout;
      pose proof (save_frame env cp c s) as Hframe
  end.
  cbn zeta in Hout, Hframe.
  destruct (saveCredentials env cp (client_credentials flow) _)
    as [[[]|e1] st2]; cbn [fst snd] in *; try discriminate Hrun.
  injection Hrun as <- <-.
  destruct Hout as (_ & _ & _ & Hfile & _).
  destruct Hframe as (Hother & _).
  cbn in Hother.
  assert (Hkeys : fs st2 !! op = Some (File cfg_text)).
  { rewrite Hother; [exact Hop|congruence|]. rewrite Hop. eauto. }
  eexists; eexists. split.
  - apply (AuthFacts.load_found env cp op (initial (fs st2))
             (stringify_pretty (client_credentials flow)) cfg_text
             (client_credentials flow) cfg (id, secret, uri)); cbn [fs initial];
      auto using JsonFacts.parse_stringify_pretty.
  - split; reflexivity.
Qed.

Lemma authorisation_is_loaded_later_witness :
  exists loaded st'',
    loadSavedCredentials Scenario.interactive Example.credentialsPath
      Example.oauthPath
      (initial (fs (snd (performFullAuthentication Scenario.interactive
                           Example.credentialsPath Example.oauthPath
                           Example.fresh_install))))
    = (Return (Some loaded), st'') /\
    client_credentials loaded = Example.held_valid.
Proof.
  destruct (authorisation_is_loaded_later Scenario.interactive
              Example.credentialsPath Example.oauthPath Example.fresh_install
              (snd (performFullAuthentication Scenario.interactive
                      Example.credentialsPath Example.oauthPath
                      Example.fresh_install))
              Scenario.authorised)
    as (loaded & st'' & Hload & Hc & _).
  - vm_compute. reflexivity.
  - vm_compute. discriminate.
  - reflexivity.
  - exists loaded, st''. exact (conj Hload Hc).
Defined.


(** *** Saving and loading: what is touched *)

(** X7. [saveCredentials] touches the credential file and the directories
    above it, and nothing else.  Every other path that held something keeps
    it; a path that held nothing still holds nothing, unless it is the
    directory of the file or a directory above that one.  Those the
    recursive [mkdirSync] makes: when the directory of the file is missing
    and making it raises no fault, it and every directory above it are there
    afterwards; the directory just above is among them whenever its name is
    shorter and not empty.  The client and credentials held are not changed.
    When it returns, the file holds the record printed with two spaces and
    its directory exists; when it fails, the error is SAVE_FAILED. *)
Theorem saveCredentials_touches_two_paths :
  forall (env : Env) (credentialsPath : string) (record : json) (st : State),
    let r := fst (saveCredentials env credentialsPath record st) in
    let st' := snd (saveCredentials env credentialsPath record st) in
    let dir := dirname env credentialsPath in
    (forall p, p <> credentialsPath -> is_Some (fs st !! p) ->
               fs st' !! p = fs st !! p) /\
    (forall p, p <> credentialsPath -> fs st !! p = None ->
       fs st' !! p = None \/
       (fs st' !! p = Some Directory /\ (p = dir \/ In p (ancestors env dir)))) /\
    (fs st !! dir = None -> mkdir_fault env dir = false ->
     forall a, a = dir \/ In a (ancestors env dir) -> a <> credentialsPath ->
               is_Some (fs st' !! a)) /\
    ((String.length (dirname env dir) < String.length dir)%nat ->
     dirname env dir <> EmptyString ->
     In (dirname env dir) (ancestors env dir)) /\
    auth st' = auth st /\ credentials st' = credentials st /\
    (r = Return tt ->
     fs st' !! credentialsPath = Some (File (stringify_pretty record)) /\
     is_Some (fs st' !! dir)) /\
    (forall e, r = Throw e -> e = save_failed credentialsPath).
Proof.
  intros env cp c st.
  pose proof (AuthFacts.saveCredentials_outcome env cp c st) as Hout.
  pose proof (save_frame env cp c st) as Hframe.
  pose proof (save_makes_directories env cp c st) as Hmakes.
  cbn zeta in *.
  destruct Hout as (Ha & Hc & _ & Hres).
  destruct Hframe as (Hother & Hmade & _ & Hdir & _).
  refine (conj Hother (conj Hmade (conj Hmakes (conj _
            (conj Ha (conj Hc (conj _ _))))))).
  - intros Hlt Hne. unfold ancestors.
    destruct (String.length (dirname env cp)) as [|n] eqn:Hlen; [lia|].
    cbn [ancestors_within]. cbn zeta.
    assert (Hcond : (String.length (dirname env (dirname env cp)) <? S n)%nat = true)
      by (apply Nat.ltb_lt; lia).
    rewrite Hlen, Hcond. cbn [andb].
    destruct (dirname env (dirname env cp)) as [|ch rest]; [congruence|].
    cbn [is_empty negb]. now left.
  - intros Hr. rewrite Hr in Hres. split; [exact (proj1 Hres)|exact (Hdir Hr)].
  - intros e He. rewrite He in Hres. exact Hres.
Qed.

(** Saving on an empty file system: the file is written, and its directory
    and the directories above it are made. *)
Lemma saveCredentials_touches_two_paths_witness :
  let st' := snd (saveCredentials Example.env Example.credentialsPath
                    Example.held_valid (initial ∅)) in
  (fs st' !! Example.credentialsPath
     = Some (File (stringify_pretty Example.held_valid)) /\
   is_Some (fs st' !! dirname Example.env Example.credentialsPath)) /\
  ancestors Example.env "/home/user/.google" = ["/home/user"; "/home"; "/"] /\
  fs st' !! "/home/user" = Some Directory /\
  fs st' !! "/home/user/Documents" = None.
Proof.
  cbn zeta. split; [|vm_compute; auto].
  apply (proj1 (proj2 (proj2 (proj2 (proj2 (proj2 (proj2
           (saveCredentials_touches_two_paths Example.env Example.credentialsPath
              Example.held_valid (initial ∅))))))))).
  vm_compute. reflexivity.
Defined.

(** X8. [loadSavedCredentials] only reads: the file system is as it was and
    the calls it adds to the trace are file reads (no refresh, no flow, no
    write).  It answers null only when there is no credential file.  When it
    fails, the error is NO_OAUTH_KEYS (the key file is missing) or
    LOAD_FAILED, and the client and credentials held are the ones held
    before; when it returns a client, client and credentials are held. *)
Theorem loadSavedCredentials_only_reads :
  forall (env : Env) (credentialsPath oauthPath : string) (st : State),
    let r := fst (loadSavedCredentials env credentialsPath oauthPath st) in
    let st' := snd (loadSavedCredentials env credentialsPath oauthPath st) in
    fs st' = fs st /\
    (exists reads, trace st' = trace st ++ reads /\ forallb is_read reads = true) /\
    (r = Return None -> fs st !! credentialsPath = None) /\
    (forall client, r = Return (Some client) ->
       auth st' = Some client /\ credentials st' = client_credentials client) /\
    (forall e, r = Throw e ->
       (e = no_oauth_keys oauthPath /\ fs st !! oauthPath = None \/ e = load_failed) /\
       auth st' = auth st /\ credentials st' = credentials st).
Proof.
  intros env cp op st.
  pose proof (load_outcome env cp op st) as H. cbn zeta in *.
  destruct H as (Hfs & Hreads & Hres).
  refine (conj Hfs (conj Hreads _)).
  destruct (fst (loadSavedCredentials env cp op st)) as [[client|]|e].
  - split; [discriminate|]. split; [|discriminate].
    intros c Hc. injection Hc as <-. tauto.
  - split; [tauto|]. split; discriminate.
  - split; [discriminate|]. split; [discriminate|].
    intros e0 He. injection He as <-. tauto.
Qed.

(** *** The service base class and the entry point *)

(** X9. [ensureValidAuth] passes on what [authenticate] does.  When
    [authenticate] returns a client, the client becomes the service's own and
    the default of [google.options]; when it fails, the same error is
    thrown and the service keeps the client it had.  The UNKNOWN_ERROR of
    its catch clause is never thrown. *)
Theorem ensureValidAuth_follows_authenticate :
  forall (env : Env) (credentialsPath oauthPath : string) (st : ServiceState),
    let r := fst (ensureValidAuth env credentialsPath oauthPath st) in
    let st' := snd (ensureValidAuth env credentialsPath oauthPath st) in
    manager st' = snd (authenticate env credentialsPath oauthPath (manager st)) /\
    match fst (authenticate env credentialsPath oauthPath (manager st)) with
    | Return client =>
        r = Return tt /\ service_auth st' = client /\ google_auth st' = client
    | Throw e =>
        r = Throw e /\ service_auth st' = service_auth st /\
        google_auth st' = google_auth st
    end /\
    r <> Throw unknown_error.
Proof.
  intros env cp op [sa ga m]. cbn zeta.
  pose proof (authenticate_failures env cp op m) as Hcodes.
  unfold ensureValidAuth, on_manager, try_catch, bind, update, throw.
  cbn [manager service_auth google_auth].
  destruct (authenticate env cp op m) as [[client|e] m'] eqn:Hrun;
    cbn [fst snd manager service_auth google_auth] in *.
  - repeat split. discriminate.
  - assert (He : is_AuthenticationError e = true).
    { destruct (Hcodes e eq_refl) as [->|[->|[->|[->|[->| ->]]]]]; reflexivity. }
    rewrite He. cbn. repeat split.
    intros H. injection H as ->.
    destruct (Hcodes unknown_error eq_refl) as [H|[H|[H|[H|[H|H]]]]];
      discriminate H.
Qed.






End AuthMore.

(** ** The call-tool handler: validation and the adapter call *)

Module ServerMore.
Import Js Effect Server.


Lemma schema_of_object (t : Tool) : exists shape, schema_of t = Zod.z_object shape.
Proof. destruct t; eexists; reflexivity. Qed.






Section Handler.
Variable zod_message : Zod.schema -> value -> string.
Variable services : Services.

(** X11. For each of the sixteen tools: arguments that the tool's schema
    rejects give the error response whose text is [An error occurred: ]
    followed by zod's message, and no adapter is called. *)
Theorem callTool_rejects_invalid_arguments :
  forall (t : Tool) (args : value) (trace : Trace),
    Zod.parse (schema_of t) args = None ->
    callTool zod_message services
      {| name := tool_name t; arguments := args |} trace
    = (Return
         {| content :=
              [text_block ("An error occurred: " +:+
                           zod_message (schema_of t) args)];
            isError := true |},
       trace).
Proof.
  intros t args trace Hparse.
  unfold callTool, try_catch. cbn [name arguments].
  rewrite ServerFacts.tool_of_name_tool_name.
  unfold run_tool, validate, bind. rewrite Hparse. reflexivity.
Qed.


(** X13. Whatever the request: the handler calls at most one adapter, the
    one of the tool that was named, and only with arguments that passed the
    tool's schema.  The trace of adapter calls is either unchanged or longer
    by that one call. *)
Theorem callTool_calls_one_validated_adapter :
  forall (request : CallToolRequest) (trace : Trace),
    let trace' := snd (callTool zod_message services request trace) in
    trace' = trace \/
    exists t input,
      name request = tool_name t /\
      Zod.parse (schema_of t) (arguments request) = Some input /\
      trace' = trace ++ [(t, input)].
Proof.
  intros request trace. cbn zeta. unfold callTool, try_catch.
  destruct (tool_of_name (name request)) as [t|] eqn:Ht; [|now left].
  assert (Hname : name request = tool_name t).
  { destruct (in_dec string_dec (name request) catalog) as [Hc|Hc].
    - destruct (ServerFacts.tool_of_name_inside _ Hc) as (t' & Ht' & Hn).
      rewrite Ht in Ht'. injection Ht' as <-. exact Hn.
    - rewrite (ServerFacts.tool_of_name_outside _ Hc) in Ht. discriminate Ht. }
  unfold run_tool, validate, call, bind, ret, throw, update, lift.
  destruct (Zod.parse (schema_of t) (arguments request)) as [input|] eqn:Hparse;
    [|now left].
  right. exists t, input. split; [exact Hname|]. split; [exact Hparse|].
  destruct (services t input) as [outcome|e].
  - destruct (success_text t input outcome) as [message|e]; [reflexivity|].
    destruct (errorMessage e); reflexivity.
  - destruct (errorMessage e); reflexivity.
Qed.

End Handler.

Lemma callTool_rejects_invalid_arguments_witness :
  callTool Example.zod_message Example.failing_services
    {| name := "search"; arguments := Some (JObj [("page_size", JNum 5)]) |} []
  = (Return {| content := [text_block "An error occurred: Required"];
               isError := true |}, []).
Proof.
  exact (callTool_rejects_invalid_arguments Example.zod_message
           Example.failing_services search
           (Some (JObj [("page_size", JNum 5)])) [] eq_refl).
Defined.


End ServerMore.

(** ** Sheets adapter: dimension operations, creation *)

Module SheetsMore.
Import Js SheetsOps.

Lemma getDimensionOperation_supported (operation : string) :
  (operation = "INSERT" \/ operation = "DELETE" \/ operation = "RESIZE") ->
  exists name, getDimensionOperation operation = Return name /\
    (name = "insertDimension" \/ name = "deleteDimension" \/
     name = "updateDimensionProperties").
Proof.
  intros [->|[->| ->]]; eexists; (split; [reflexivity|]); tauto.
Qed.

(** X14. [dimensionOperation].  An operation other than INSERT, DELETE and
    RESIZE throws [Unsupported dimension operation: ...] before anything is
    sent.  A supported operation sends one batch with one request, whose
    range starts at [startIndex] and ends at [endIndex] when that is given
    and is not 0, and at [startIndex + 1] otherwise (so an [endIndex] of 0
    is replaced); the request has a [size] property for RESIZE only, with
    the size of the input even when that is undefined. *)
Theorem dimensionOperation_requests :
  forall (api : Api) (input : DimensionOperation),
    (operation input <> "INSERT" -> operation input <> "DELETE" ->
     operation input <> "RESIZE" ->
     dimensionOperation api input
     = (Throw (ThrowError Error
                 ("Unsupported dimension operation: " +:+ operation input)
                 None None), [])) /\
    (operation input = "INSERT" \/ operation input = "DELETE" \/
     operation input = "RESIZE" ->
     exists request,
       snd (dimensionOperation api input)
         = [{| bu_spreadsheetId := spreadsheetId input; requests := [request] |}] /\
       fst (dimensionOperation api input)
         = api {| bu_spreadsheetId := spreadsheetId input; requests := [request] |} /\
       getDimensionOperation (operation input) = Return (key request) /\
       dr_startIndex (range request) = startIndex input /\
       (forall e, endIndex input = Some e -> e <> 0 ->
                  dr_endIndex (range request) = e) /\
       (endIndex input = None \/ endIndex input = Some 0 ->
        dr_endIndex (range request) = startIndex input + 1) /\
       (operation input = "RESIZE" -> req_size request = Some (size input)) /\
       (operation input <> "RESIZE" -> req_size request = None)).
Proof.
  intros api input. split.
  - intros Hi Hd Hr. unfold dimensionOperation, getDimensionOperation.
    apply String.eqb_neq in Hi, Hd, Hr. rewrite Hi, Hd, Hr. reflexivity.
  - intros Hop.
    destruct (getDimensionOperation_supported _ Hop) as (name & Hname & _).
    unfold dimensionOperation. rewrite Hname. cbn zeta.
    eexists. split; [reflexivity|]. split; [reflexivity|].
    cbn [key range req_size dr_startIndex dr_endIndex].
    split; [reflexivity|]. split; [reflexivity|].
    split; [|split; [|split]].
    + intros e -> He. unfold end_of.
      apply Z.eqb_neq in He. now rewrite He.
    + intros [->| ->]; reflexivity.
    + intros ->. reflexivity.
    + intros Hr. apply String.eqb_neq in Hr. now rewrite Hr.
Qed.

(** X15. [createSpreadsheet] sends one create request and returns the
    identifier of the answer only when that is a string that is not empty;
    with a missing or empty identifier it throws [Failed to create
    spreadsheet], after the request was sent.  It never returns an empty
    identifier, and an error of the endpoint is passed on as it is. *)
Theorem createSpreadsheet_returns_identifier :
  forall (api : CreateApi) (input : CreateSpreadsheet),
    exists request,
      snd (createSpreadsheet api input) = [request] /\
      properties_title request = title input /\
      (forall id, fst (createSpreadsheet api input) = Return id ->
                  api request = Return (Some id) /\ id <> EmptyString) /\
      (forall id, api request = Return (Some id) -> id <> EmptyString ->
                  fst (createSpreadsheet api input) = Return id) /\
      (api request = Return None \/ api request = Return (Some EmptyString) ->
       fst (createSpreadsheet api input) = Throw create_failed) /\
      (forall e, api request = Throw e ->
                 fst (createSpreadsheet api input) = Throw e).
Proof.
  intros api input. unfold createSpreadsheet. cbn zeta.
  eexists. split; [reflexivity|]. split; [reflexivity|]. cbn [fst].
  destruct (api _) as [[[|a id']|]|e]; cbn.
  - split; [discriminate|]. split; [intros id H; injection H as <-; congruence|].
    split; [reflexivity|]. discriminate.
  - split; [intros id H; injection H as <-; split; [reflexivity|discriminate]|].
    split; [intros id H _; injection H as <-; reflexivity|].
    split; [intros [H|H]; discriminate H|]. discriminate.
  - split; [discriminate|]. split; [discriminate|].
    split; [reflexivity|]. discriminate.
  - split; [discriminate|]. split; [discriminate|].
    split; [intros [H|H]; discriminate H|].
    intros e0 H. injection H as <-. reflexivity.
Qed.

End SheetsMore.

(** ** Validation: what the schemas let through *)

Module ZodMore.
Import Js Effect Server.

(** Splitting the lookups of a validation that succeeded. *)
Ltac split_lookups H :=
  repeat match type of H with
         | context [match assoc_last ?k ?l with _ => _ end] =>
             let E := fresh "Hfield" in
             destruct (assoc_last k l) as [[]|] eqn:E; cbn in H;
             try discriminate H
         | context [if ?b then _ else _] =>
             let E := fresh "Htest" in
             destruct b eqn:E; cbn in H; try discriminate H
         end.

Lemma member_three (x a b c : string) :
  (x =? a)%string || ((x =? b)%string || ((x =? c)%string || false)) = true ->
  x = a \/ x = b \/ x = c.
Proof.
  rewrite !orb_true_iff, !String.eqb_eq. intuition discriminate.
Qed.

(** X16. Arguments that [DimensionOperationSchema] accepts carry an
    [operation] that is INSERT, DELETE or RESIZE, so [getDimensionOperation]
    returns for it: behind the handler's validation the adapter's
    [Unsupported dimension operation] error cannot arise.  The validation
    does not ask for a [size] with RESIZE. *)
Theorem validated_dimension_operation_is_supported :
  forall (args input : value),
    Zod.parse Zod.DimensionOperationSchema args = Some input ->
    exists operation name,
      get_prop input "operation" = Return (Some (JStr operation)) /\
      (operation = "INSERT" \/ operation = "DELETE" \/ operation = "RESIZE") /\
      SheetsOps.getDimensionOperation operation = Return name /\
      success_text sheets_dimension_operation input tt
        = Return (operation +:+ " operation completed successfully").
Proof.
  intros args input H.
  destruct args as [[| | | | |l]|]; try discriminate H.
  cbn in H. split_lookups H.
  all: injection H as <-.
  all: match goal with
       | Hm : (?op =? "INSERT")%string || _ = true |- _ =>
           apply member_three in Hm;
           destruct (SheetsMore.getDimensionOperation_supported op Hm)
             as (name & Hname & _);
           exists op, name;
           refine (conj eq_refl (conj Hm (conj Hname eq_refl)))
       end.
Qed.

Lemma validated_dimension_operation_is_supported_witness :
  exists operation name,
    get_prop (Some Scenario.resize_arguments) "operation"
      = Return (Some (JStr operation)) /\
    SheetsOps.getDimensionOperation operation = Return name.
Proof.
  destruct (validated_dimension_operation_is_supported
              (Some Scenario.resize_arguments) (Some Scenario.resize_arguments)
              eq_refl)
    as (operation & name & Hop & _ & Hname & _).
  exists operation, name. exact (conj Hop Hname).
Defined.

(** [z.array(z.any())] keeps every element. *)
Lemma parse_any_array (l : list json) :
  Zod.parse (Zod.z_array Zod.z_any) (Some (JArr l)) = Some (Some (JArr l)).
Proof.
  cbn. induction l as [|x rest IH]; [reflexivity|].
  match goal with
  | IH : option_map _ ?e = _ |- option_map _ (match _ with _ => _ end) = _ =>
      destruct e as [ys|] eqn:He; [|discriminate IH]
  end.
  cbn in IH. injection IH as ->. reflexivity.
Qed.

(** What is left once the adapter call is reached: the trace is the same
    whatever the adapter, the success text and the catch clause do. *)
Ltac settle_call :=
  cbn;
  repeat match goal with
  | |- context [match ?x with Return _ => _ | Throw _ => _ end] =>
      destruct x; cbn
  end;
  reflexivity.

Section Handler.
Variable zod_message : Zod.schema -> value -> string.
Variable services : Services.

(** X17. [docs_create] passes the title alone.  Whatever else the arguments
    hold beside a string [title] (a [content] descriptor as the catalog
    advertises it, for one), the adapter is called with the object that has
    the title and nothing else. *)
Theorem docs_create_passes_title_only :
  forall (l : list (string * json)) (title : string) (trace : Trace),
    assoc_last "title" l = Some (JStr title) ->
    Zod.parse Zod.CreateDocInputSchema (Some (JObj l))
      = Some (Some (JObj [("title", JStr title)])) /\
    snd (callTool zod_message services
           {| name := "docs_create"; arguments := Some (JObj l) |} trace)
      = trace ++ [(docs_create, Some (JObj [("title", JStr title)]))].
Proof.
  intros l title trace Ht.
  assert (Hparse : Zod.parse Zod.CreateDocInputSchema (Some (JObj l))
                   = Some (Some (JObj [("title", JStr title)]))).
  { cbn. rewrite Ht. reflexivity. }
  split; [exact Hparse|].
  unfold callTool, try_catch. cbn [name arguments].
  change (tool_of_name "docs_create") with (Some docs_create).
  unfold run_tool, validate, call, bind, ret, throw, update, lift.
  cbn [schema_of]. rewrite Hparse.
  destruct (services docs_create _) as [outcome|e]; settle_call.
Qed.

(** X18. [search] fills in the page size.  With a string [query] and no
    [page_size] the adapter is called with [page_size] 10; a [page_size]
    that is a number is passed as it is; other properties are dropped. *)
Theorem search_fills_in_page_size :
  forall (l : list (string * json)) (query : string) (trace : Trace),
    assoc_last "query" l = Some (JStr query) ->
    (assoc_last "page_size" l = None ->
     snd (callTool zod_message services
            {| name := "search"; arguments := Some (JObj l) |} trace)
       = trace ++ [(search, Some (JObj [("query", JStr query);
                                        ("page_size", JNum 10)]))]) /\
    (forall n, assoc_last "page_size" l = Some (JNum n) ->
     snd (callTool zod_message services
            {| name := "search"; arguments := Some (JObj l) |} trace)
       = trace ++ [(search, Some (JObj [("query", JStr query);
                                        ("page_size", JNum n)]))]).
Proof.
  intros l query trace Hq.
  split; [intros Hp|intros n Hp].
  all: unfold callTool, try_catch; cbn [name arguments].
  all: change (tool_of_name "search") with (Some search).
  all: unfold run_tool, validate, call, bind, ret, throw, update, lift.
  all: cbn [schema_of].
  all: match goal with
       | |- context [Zod.parse Zod.SearchInputSchema ?d] =>
           let out := fresh "out" in
           let E := fresh "E" in
           destruct (Zod.parse Zod.SearchInputSchema d) as [out|] eqn:E;
           cbn in E; rewrite Hq, Hp in E; cbn in E; [|discriminate E];
           injection E as <-
       end.
  all: destruct (services search _) as [outcome|e]; settle_call.
Qed.

(** X19. [docs_update_content] passes the requests through.  With a string
    [document_id] and an array under [requests], the adapter is called with
    the document id and the very same array, whatever its elements are;
    the forwarding revision of the adapter then sends that array in one
    batch update. *)
Theorem docs_update_content_forwards_requests :
  forall (l : list (string * json)) (id : string) (requests : list json)
         (trace : Trace) (api : DocsRaw.Api),
    assoc_last "document_id" l = Some (JStr id) ->
    assoc_last "requests" l = Some (JArr requests) ->
    snd (callTool zod_message services
           {| name := "docs_update_content"; arguments := Some (JObj l) |} trace)
      = trace ++ [(docs_update_content,
                   Some (JObj [("document_id", JStr id);
                               ("requests", JArr requests)]))] /\
    snd (DocsRaw.updateDocument api
           {| DocsRaw.document_id := id; DocsRaw.requests := requests |})
      = [(id, requests)].
Proof.
  intros l id requests trace api Hid Hrs.
  split; [|reflexivity].
  assert (Hparse : Zod.parse Zod.UpdateDocContentInputSchema (Some (JObj l))
                   = Some (Some (JObj [("document_id", JStr id);
                                       ("requests", JArr requests)]))).
  { pose proof (parse_any_array requests) as Harr.
    unfold Zod.UpdateDocContentInputSchema.
    change (Zod.parse (Zod.z_object ?shape) (Some (JObj l)))
      with (option_map (fun ys => Some (JObj ys))
              (match Zod.parse Zod.z_string (assoc_last "document_id" l),
                     match
                       Zod.parse (Zod.z_array Zod.z_any) (assoc_last "requests" l),
                       Some []
                     with
                     | Some (Some y), Some ys => Some (("requests", y) :: ys)
                     | Some None, Some ys => Some ys
                     | _, _ => None
                     end
               with
               | Some (Some y), Some ys => Some (("document_id", y) :: ys)
               | Some None, Some ys => Some ys
               | _, _ => None
               end)).
    rewrite Hid, Hrs, Harr. reflexivity. }
  unfold callTool, try_catch. cbn [name arguments].
  change (tool_of_name "docs_update_content") with (Some docs_update_content).
  unfold run_tool, validate, call, bind, ret, throw, update, lift.
  cbn [schema_of]. rewrite Hparse.
  destruct (services docs_update_content _) as [outcome|e]; settle_call.
Qed.

End Handler.

Lemma docs_create_passes_title_only_witness :
  snd (callTool Example.zod_message Scenario.answering_services
         {| name := "docs_create";
            arguments := Some (JObj Scenario.create_with_content) |} [])
  = [(docs_create, Some (JObj [("title", JStr "Report")]))].
Proof.
  exact (proj2 (docs_create_passes_title_only Example.zod_message
                  Scenario.answering_services Scenario.create_with_content
                  "Report" [] eq_refl)).
Defined.

Lemma search_fills_in_page_size_witness :
  snd (callTool Example.zod_message Scenario.answering_services
         {| name := "search";
            arguments := Some (JObj [("query", JStr "report")]) |} [])
  = [(search, Some (JObj [("query", JStr "report"); ("page_size", JNum 10)]))].
Proof.
  exact (proj1 (search_fills_in_page_size Example.zod_message
                  Scenario.answering_services [("query", JStr "report")]
                  "report" [] eq_refl) eq_refl).
Defined.

Lemma docs_update_content_forwards_requests_witness :
  snd (callTool Example.zod_message Scenario.answering_services
         {| name := "docs_update_content";
            arguments :=
              Some (JObj [("document_id", JStr "doc-1");
                          ("requests", JArr Scenario.two_requests)]) |} [])
  = [(docs_update_content,
      Some (JObj [("document_id", JStr "doc-1");
                  ("requests", JArr Scenario.two_requests)]))].
Proof.
  exact (proj1 (docs_update_content_forwards_requests Example.zod_message
                  Scenario.answering_services
                  [("document_id", JStr "doc-1");
                   ("requests", JArr Scenario.two_requests)]
                  "doc-1" Scenario.two_requests []
                  (fun _ _ => Return tt) eq_refl eq_refl)).
Defined.

End ZodMore.

(** ** Validation: laws of the schemas *)

Module ZodLaws.
Import Js Zod ZodShape Server.

Lemma schema_induction (P : schema -> Prop) :
  P z_string -> (forall lo hi, P (z_number lo hi)) -> P z_boolean -> P z_any ->
  P z_buffer -> (forall options, P (z_enum options)) ->
  (forall item, P item -> P (z_array item)) ->
  (forall shape, Forall (fun field => P (snd field)) shape -> P (z_object shape)) ->
  (forall alternatives, Forall P alternatives -> P (z_union alternatives)) ->
  (forall inner, P inner -> P (z_optional inner)) ->
  (forall inner value, P inner -> P (z_default inner value)) ->
  forall s, P s.
Proof.
  intros Hs Hn Hb Ha Hbuf He Harr Hobj Hun Hopt Hdef.
  fix IH 1. intros [ | lo hi | | | | options | item | shape | alts | inner | inner v].
  - exact Hs.
  - apply Hn.
  - exact Hb.
  - exact Ha.
  - exact Hbuf.
  - apply He.
  - apply Harr, IH.
  - apply Hobj. induction shape as [|[k f] rest IHs]; constructor;
      [apply IH | exact IHs].
  - apply Hun. induction alts as [|a rest IHs]; constructor;
      [apply IH | exact IHs].
  - apply Hopt, IH.
  - apply Hdef, IH.
Qed.

(** The equations of [parse] on arrays, objects and unions. *)
Lemma parse_array_nil (item : schema) :
  parse (z_array item) (Some (JArr [])) = Some (Some (JArr [])).
Proof. reflexivity. Qed.

Lemma parse_array_cons (item : schema) (x : json) (rest : list json) :
  parse (z_array item) (Some (JArr (x :: rest))) =
  match parse item (Some x), parse (z_array item) (Some (JArr rest)) with
  | Some (Some y), Some (Some (JArr ys)) => Some (Some (JArr (y :: ys)))
  | _, _ => None
  end.
Proof.
  cbn.
  destruct (parse item (Some x)) as [[y|]|]; [|reflexivity|reflexivity].
  match goal with
  | |- option_map _ (match ?e with _ => _ end) = _ => destruct e as [ys|]
  end; reflexivity.
Qed.

Lemma parse_object_nil (l : list (string * json)) :
  parse (z_object []) (Some (JObj l)) = Some (Some (JObj [])).
Proof. reflexivity. Qed.

Lemma parse_object_cons (k : string) (field : schema)
    (rest : list (string * schema)) (l : list (string * json)) :
  parse (z_object ((k, field) :: rest)) (Some (JObj l)) =
  match parse field (assoc_last k l), parse (z_object rest) (Some (JObj l)) with
  | Some (Some y), Some (Some (JObj ys)) => Some (Some (JObj ((k, y) :: ys)))
  | Some None, Some (Some (JObj ys)) => Some (Some (JObj ys))
  | _, _ => None
  end.
Proof.
  cbn.
  destruct (parse field (assoc_last k l)) as [[y|]|]; [| |reflexivity].
  all: match goal with
       | |- context [option_map _ (match ?e with _ => _ end)] => destruct e as [ys|]
       end; reflexivity.
Qed.

Lemma parse_union_cons (alt : schema) (rest : list schema) (data : value) :
  parse (z_union (alt :: rest)) data =
  match parse alt data with
  | Some v => Some v
  | None => parse (z_union rest) data
  end.
Proof. reflexivity. Qed.

Lemma parse_object_shape (shape : list (string * schema)) (data out : value) :
  parse (z_object shape) data = Some out ->
  exists l ys, data = Some (JObj l) /\ out = Some (JObj ys).
Proof.
  destruct data as [[| | | | |l]|]; cbn; try discriminate.
  match goal with
  | |- option_map _ ?x = _ -> _ => destruct x as [ys|]
  end; cbn; [|discriminate].
  intros H. injection H as <-. eauto.
Qed.


(** Lookups in a member list. *)
Lemma assoc_last_absent (k : string) (l : list (string * json)) :
  ~ In k (map fst l) -> assoc_last k l = None.
Proof.
  induction l as [|[k' v] rest IH]; [reflexivity|].
  cbn. intros Hnot. rewrite IH by tauto.
  destruct (String.eqb_spec k' k) as [->|_]; [|reflexivity].
  exfalso. apply Hnot. now left.
Qed.

Lemma assoc_last_first (k : string) (v : json) (l : list (string * json)) :
  ~ In k (map fst l) -> assoc_last k ((k, v) :: l) = Some v.
Proof.
  intros Hnot. cbn. rewrite (assoc_last_absent k l Hnot).
  now rewrite String.eqb_refl.
Qed.

Lemma assoc_last_other (k k' : string) (v : json) (l : list (string * json)) :
  k <> k' -> assoc_last k ((k', v) :: l) = assoc_last k l.
Proof.
  intros Hne. cbn. destruct (assoc_last k l); [reflexivity|].
  destruct (String.eqb_spec k' k) as [Heq|_]; [congruence|reflexivity].
Qed.

(** The output of an object schema has keys of the shape, in its order. *)
Lemma object_output_keys (shape : list (string * schema))
    (l ys : list (string * json)) :
  parse (z_object shape) (Some (JObj l)) = Some (Some (JObj ys)) ->
  sublist (map fst ys) (map fst shape).
Proof.
  revert ys. induction shape as [|[k field] rest IH]; intros ys.
  - rewrite parse_object_nil. intros H. injection H as <-. constructor.
  - rewrite parse_object_cons.
    destruct (parse field (assoc_last k l)) as [[y|]|]; try discriminate.
    + destruct (parse (z_object rest) (Some (JObj l))) as [[[| | | | |ys']|]|];
        try discriminate.
      intros H. injection H as <-. cbn. apply sublist_skip. now apply IH.
    + destruct (parse (z_object rest) (Some (JObj l))) as [[[| | | | |ys']|]|];
        try discriminate.
      intros H. injection H as <-. cbn. apply sublist_cons. now apply IH.
Qed.

(** An object schema looks at the members it declares only. *)
Lemma parse_object_ext (shape : list (string * schema))
    (l1 l2 : list (string * json)) :
  (forall k, In k (map fst shape) -> assoc_last k l1 = assoc_last k l2) ->
  parse (z_object shape) (Some (JObj l1)) = parse (z_object shape) (Some (JObj l2)).
Proof.
  induction shape as [|[k field] rest IH]; intros Hsame; [reflexivity|].
  rewrite !parse_object_cons.
  rewrite (Hsame k) by now left.
  rewrite IH by (intros k' Hk'; apply Hsame; now right).
  reflexivity.
Qed.

Lemma transparent_output (s : schema) :
  transparent s = true ->
  forall data out, parse s data = Some out -> out = data.
Proof.
  induction s as [ | lo hi | | | | options | item IH | shape IH | alts IH
                 | inner IH | inner v IH] using schema_induction;
    intros Ht data out; cbn in Ht; try discriminate Ht.
  - destruct data as [[]|]; cbn; congruence.
  - destruct data as [[| |n| | |]|]; cbn; try congruence.
    destruct (in_bounds lo hi n); congruence.
  - destruct data as [[]|]; cbn; congruence.
  - cbn. congruence.
  - cbn. discriminate.
  - destruct data as [[| | |x| |]|]; cbn; try congruence.
    destruct (member x options); congruence.
  - destruct data as [[| | | |l|]|]; try (cbn; discriminate).
    revert out. induction l as [|x rest IHl]; intros out.
    + rewrite parse_array_nil. congruence.
    + rewrite parse_array_cons.
      destruct (parse item (Some x)) as [[y|]|] eqn:Hx; try discriminate.
      destruct (parse (z_array item) (Some (JArr rest)))
        as [[[| | | |ys|]|]|] eqn:Hrest; try discriminate.
      intros H. injection H as <-.
      apply (IH Ht) in Hx. injection Hx as ->.
      specialize (IHl _ eq_refl). injection IHl as ->. reflexivity.
  - induction alts as [|alt rest IHa]; [cbn; discriminate|].
    rewrite parse_union_cons. cbn in Ht. apply andb_true_iff in Ht.
    destruct Ht as [Halt Hrest].
    inversion IH as [|? ? Hhead Htail]; subst.
    destruct (parse alt data) as [v|] eqn:Hv.
    + intros H. injection H as <-. exact (Hhead Halt _ _ Hv).
    + exact (IHa Htail Hrest).
  - destruct data as [d|]; cbn; [|congruence]. apply (IH Ht).
Qed.

(** A value that is there is never validated to undefined. *)
Lemma parse_defined (s : schema) :
  forall (d : json) (out : value), parse s (Some d) = Some out -> out <> None.
Proof.
  induction s as [ | lo hi | | | | options | item IH | shape IH | alts IH
                 | inner IH | inner v IH] using schema_induction;
    intros d out.
  - destruct d; cbn; congruence.
  - destruct d as [| |n| | |]; cbn; try congruence.
    destruct (in_bounds lo hi n); congruence.
  - destruct d; cbn; congruence.
  - cbn. congruence.
  - cbn. discriminate.
  - destruct d as [| | |x| |]; cbn; try congruence.
    destruct (member x options); congruence.
  - intros H. destruct d as [| | | |l|]; try (cbn in H; discriminate H).
    cbn in H.
    match type of H with
    | option_map _ ?e = _ => destruct e; cbn in H
    end; congruence.
  - intros H. destruct (parse_object_shape shape _ _ H) as (l & ys & _ & ->).
    discriminate.
  - induction alts as [|alt rest IHa]; [cbn; discriminate|].
    rewrite parse_union_cons.
    inversion IH as [|? ? Hhead Htail]; subst.
    destruct (parse alt (Some d)) as [v|] eqn:Hv.
    + intros H. injection H as <-. exact (Hhead _ _ Hv).
    + exact (IHa Htail).
  - cbn. apply IH.
  - cbn. apply IH.
Qed.

(** Validating the output of a validation gives it back. *)
Lemma parse_idempotent (s : schema) :
  regular s = true ->
  forall data out, parse s data = Some out -> parse s out = Some out.
Proof.
  induction s as [ | lo hi | | | | options | item IH | shape IH | alts IH
                 | inner IH | inner v IH] using schema_induction;
    intros Hr data out; cbn in Hr.
  - destruct data as [[]|]; cbn; try discriminate. intros H. injection H as <-.
    reflexivity.
  - destruct data as [[| |n| | |]|]; cbn; try discriminate.
    destruct (in_bounds lo hi n) eqn:Hb; [|discriminate].
    intros H. injection H as <-. cbn. now rewrite Hb.
  - destruct data as [[]|]; cbn; try discriminate. intros H. injection H as <-.
    reflexivity.
  - cbn. intros H. injection H as <-. reflexivity.
  - cbn. discriminate.
  - destruct data as [[| | |x| |]|]; cbn; try discriminate.
    destruct (member x options) eqn:Hm; [|discriminate].
    intros H. injection H as <-. cbn. now rewrite Hm.
  - destruct data as [[| | | |l|]|]; try (cbn; discriminate).
    revert out. induction l as [|x rest IHl]; intros out.
    + rewrite parse_array_nil. intros H. injection H as <-. reflexivity.
    + rewrite parse_array_cons.
      destruct (parse item (Some x)) as [[y|]|] eqn:Hx; try discriminate.
      destruct (parse (z_array item) (Some (JArr rest)))
        as [[[| | | |ys|]|]|] eqn:Hrest; try discriminate.
      intros H. injection H as <-.
      rewrite parse_array_cons, (IH Hr _ _ Hx), (IHl _ eq_refl). reflexivity.
  - apply andb_true_iff in Hr. destruct Hr as [Hnodup Hfields].
    apply bool_decide_eq_true_1 in Hnodup.
    intros Hparse.
    destruct (parse_object_shape shape data out Hparse) as (l & ys & -> & ->).
    revert ys Hparse.
    induction shape as [|[k field] rest IHs]; intros ys.
    + rewrite parse_object_nil. intros H. injection H as <-. reflexivity.
    + cbn in Hnodup, Hfields. apply NoDup_cons in Hnodup.
      destruct Hnodup as [Hk Hnodup].
      apply andb_true_iff in Hfields. destruct Hfields as [Hfield Hfields].
      inversion IH as [|? ? Hhead Htail]; subst. cbn in Hhead.
      rewrite parse_object_cons.
      destruct (parse field (assoc_last k l)) as [[y|]|] eqn:Hy;
        try discriminate;
        destruct (parse (z_object rest) (Some (JObj l)))
          as [[[| | | | |ys']|]|] eqn:Hrest; try discriminate;
        intros H; injection H as <-.
      all: pose proof (object_output_keys rest l ys' Hrest) as Hsub.
      all: assert (Hnot : ~ In k (map fst ys'))
        by (intros Hin; apply Hk;
            apply (elem_of_sublist _ _ _ (proj2 (list_elem_of_In _ _) Hin) Hsub)).
      * rewrite parse_object_cons.
        rewrite (assoc_last_first k y ys' Hnot).
        rewrite (Hhead Hfield _ _ Hy).
        rewrite (parse_object_ext rest ((k, y) :: ys') ys').
        -- rewrite (IHs Htail Hnodup Hfields ys' eq_refl). reflexivity.
        -- intros k' Hk'. apply assoc_last_other.
           intros ->. apply Hk. apply list_elem_of_In. exact Hk'.
      * rewrite parse_object_cons.
        rewrite (assoc_last_absent k ys' Hnot).
        rewrite (Hhead Hfield _ _ Hy).
        rewrite (IHs Htail Hnodup Hfields ys' eq_refl). reflexivity.
  - intros Hparse.
    assert (Hsame : out = data).
    { apply (transparent_output (z_union alts)); [exact Hr|exact Hparse]. }
    subst out. exact Hparse.
  - destruct data as [d|]; cbn.
    + intros H. destruct out as [o|]; [|reflexivity].
      cbn. exact (IH Hr _ _ H).
    + intros H. injection H as <-. reflexivity.
  - destruct data as [d|]; cbn.
    + intros H. destruct out as [o|]; cbn; [exact (IH Hr _ _ H)|].
      destruct (parse_defined inner d None H eq_refl).
    + intros H. destruct out as [o|]; cbn; [exact (IH Hr _ _ H)|exact H].
Qed.

Lemma schemas_regular (t : Tool) : regular (schema_of t) = true.
Proof. destruct t; vm_compute; reflexivity. Qed.

(** X20. What a tool's schema lets through is a fixed point of the schema:
    validating the validated input again succeeds and changes nothing (no
    default is applied twice, nothing more is dropped). *)
Theorem validation_is_idempotent :
  forall (t : Tool) (args input : value),
    parse (schema_of t) args = Some input ->
    parse (schema_of t) input = Some input.
Proof.
  intros t args input. apply parse_idempotent, schemas_regular.
Qed.

Lemma validation_is_idempotent_witness :
  parse (schema_of search)
    (Some (JObj [("query", JStr "report"); ("page_size", JNum 10)]))
  = Some (Some (JObj [("query", JStr "report"); ("page_size", JNum 10)])).
Proof.
  exact (validation_is_idempotent search
           (Some (JObj [("verbose", JBool true); ("query", JStr "report")]))
           (Some (JObj [("query", JStr "report"); ("page_size", JNum 10)]))
           eq_refl).
Defined.

(** X21. The adapter sees declared properties only.  For each tool, the
    validated input is an object whose keys are keys that the tool's schema
    declares, in the schema's order and each at most once: a property that
    the schema does not declare never reaches the adapter. *)
Theorem validation_keeps_declared_keys :
  forall (t : Tool) (args input : value),
    parse (schema_of t) args = Some input ->
    exists l,
      input = Some (JObj l) /\
      sublist (map fst l) (declared_keys (schema_of t)) /\
      NoDup (map fst l).
Proof.
  intros t args input Hparse.
  pose proof (schemas_regular t) as Hregular.
  destruct (ServerMore.schema_of_object t) as [shape Hshape].
  rewrite Hshape in Hparse, Hregular |- *.
  destruct (parse_object_shape shape args input Hparse) as (l & ys & -> & ->).
  exists ys. split; [reflexivity|].
  pose proof (object_output_keys shape l ys Hparse) as Hsub.
  split; [exact Hsub|].
  cbn in Hregular. apply andb_true_iff in Hregular.
  destruct Hregular as [Hnodup _]. apply bool_decide_eq_true_1 in Hnodup.
  exact (sublist_NoDup _ _ Hnodup Hsub).
Qed.

Lemma validation_keeps_declared_keys_witness :
  exists l,
    Some (JObj [("title", JStr "Report")]) = Some (JObj l) /\
    sublist (map fst l) ["title"].
Proof.
  destruct (validation_keeps_declared_keys docs_create
              (Some (JObj Scenario.create_with_content))
              (Some (JObj [("title", JStr "Report")])) eq_refl)
    as (l & Hl & Hsub & _).
  exists l. exact (conj Hl Hsub).
Defined.

End ZodLaws.

(** ** The advertised schemas against the validation schemas *)

Module CatalogFacts.
Import Js Server Catalog.

Lemma valid_parts (type : option string) (properties : list (string * schema))
    (required : list string) (anyOf : option (list schema))
    (items : option schema) (minimum maximum : option Z)
    (enum : option (list string)) (default : option json) (j : json) :
  valid (Schema type properties required anyOf items minimum maximum enum default) j
    = true ->
  JsonSchema.has_type type j = true /\
  (forall l, j = JObj l ->
     (forall k sub v, In (k, sub) properties -> assoc_last k l = Some v ->
                      valid sub v = true) /\
     (forall k, In k required -> exists v, assoc_last k l = Some v)) /\
  (forall item l, items = Some item -> j = JArr l ->
     Forall (fun x => valid item x = true) l) /\
  (forall n, j = JNum n ->
     (forall lo, minimum = Some lo -> lo <= n) /\
     (forall hi, maximum = Some hi -> n <= hi)) /\
  (forall values, enum = Some values ->
     exists x, j = JStr x /\ Zod.member x values = true).
Proof.
  cbn [valid]. intros H.
  apply andb_true_iff in H. destruct H as [H Henum].
  apply andb_true_iff in H. destruct H as [H Hbounds].
  apply andb_true_iff in H. destruct H as [H Hitems].
  apply andb_true_iff in H. destruct H as [H Hany].
  apply andb_true_iff in H. destruct H as [Htype Hobj].
  split; [exact Htype|]. split; [|split; [|split]].
  - intros l ->. apply andb_true_iff in Hobj. destruct Hobj as [Hprops Hreq].
    rewrite forallb_forall in Hprops, Hreq. split.
    + intros k sub v Hin Hv. specialize (Hprops (k, sub) Hin). cbn in Hprops.
      now rewrite Hv in Hprops.
    + intros k Hin. specialize (Hreq k Hin). unfold JsonSchema.has_key in Hreq.
      destruct (assoc_last k l) as [v|]; [eauto|discriminate].
  - intros item l -> ->. apply Forall_forall. intros x Hx.
    rewrite forallb_forall in Hitems. apply Hitems. 
    apply list_elem_of_In. exact Hx.
  - intros n ->. apply andb_true_iff in Hbounds. destruct Hbounds as [Hlo Hhi].
    split.
    + intros lo ->. lia.
    + intros hi ->. lia.
  - intros values ->. destruct j as [| | |x| |]; try discriminate Henum. eauto.
Qed.

Lemma is_type_eq (t : string) (type : option string) :
  is_type t type = true -> type = Some t.
Proof.
  destruct type as [t'|]; cbn; [|discriminate].
  intros H. apply String.eqb_eq in H. now subst.
Qed.

Lemma member_In (x : string) (l : list string) :
  Zod.member x l = true <-> In x l.
Proof.
  unfold Zod.member. rewrite existsb_exists. split.
  - intros (y & Hy & Heq). apply String.eqb_eq in Heq. now subst.
  - intros Hin. exists x. split; [exact Hin|apply String.eqb_refl].
Qed.

(** A property that follows a field is found among the properties. *)
Lemma property_follows (k : string) (zs : Zod.schema)
    (properties : list (string * schema)) :
  existsb (fun property =>
             String.eqb (fst property) k && follows zs (snd property)) properties
    = true ->
  exists sub, In (k, sub) properties /\ follows zs sub = true.
Proof.
  rewrite existsb_exists. intros ([k' sub] & Hin & H).
  apply andb_true_iff in H. destruct H as [Hk Hf]. cbn in Hk, Hf.
  apply String.eqb_eq in Hk. subst k'. eauto.
Qed.

(** Arrays, objects and unions succeed when their parts do. *)
Lemma parse_array_succeeds (item : Zod.schema) (l : list json) :
  Forall (fun x => exists y, Zod.parse item (Some x) = Some (Some y)) l ->
  exists ys, Zod.parse (Zod.z_array item) (Some (JArr l)) = Some (Some (JArr ys)).
Proof.
  induction 1 as [|x rest [y Hy] _ [ys Hys]].
  - eexists; reflexivity.
  - rewrite ZodLaws.parse_array_cons, Hy, Hys. eexists; reflexivity.
Qed.

Lemma parse_object_succeeds (shape : list (string * Zod.schema))
    (l : list (string * json)) :
  Forall (fun field =>
            exists out, Zod.parse (snd field) (assoc_last (fst field) l) = Some out)
    shape ->
  exists ys, Zod.parse (Zod.z_object shape) (Some (JObj l)) = Some (Some (JObj ys)).
Proof.
  induction 1 as [|[k field] rest [out Hout] _ [ys Hys]].
  - eexists; reflexivity.
  - cbn in Hout. rewrite ZodLaws.parse_object_cons, Hout, Hys.
    destruct out; eexists; reflexivity.
Qed.

Lemma parse_union_succeeds (alts : list Zod.schema) (data : value) :
  (exists alt out, In alt alts /\ Zod.parse alt data = Some out) ->
  exists out, Zod.parse (Zod.z_union alts) data = Some out.
Proof.
  intros (alt & out & Hin & Hparse).
  induction alts as [|a rest IHa]; [destruct Hin|].
  rewrite ZodLaws.parse_union_cons.
  destruct (Zod.parse a data) as [v|] eqn:Hv; [eauto|].
  destruct Hin as [->|Hin]; [congruence|]. exact (IHa Hin).
Qed.

(** What [follows] promises. *)
Lemma follows_sound (zs : Zod.schema) :
  forall (js : schema) (j : json),
    follows zs js = true -> valid js j = true ->
    exists out, Zod.parse zs (Some j) = Some (Some out).
Proof.
  induction zs as [ | lo hi | | | | options | item IH | shape IH | alts IH
                  | inner IH | inner v IH] using ZodLaws.schema_induction;
    intros [type properties required anyOf items minimum maximum enum default] j
      Hf Hv;
    pose proof (valid_parts _ _ _ _ _ _ _ _ _ _ Hv)
      as (Htype & Hobj & Hitems & Hbounds & Henum);
    cbn [follows] in Hf.
  - apply is_type_eq in Hf. subst type.
    destruct j; try discriminate Htype. eexists; reflexivity.
  - apply andb_true_iff in Hf. destruct Hf as [Hf Hhi].
    apply andb_true_iff in Hf. destruct Hf as [Hf Hlo].
    apply is_type_eq in Hf. subst type.
    destruct j as [| |n| | |]; try discriminate Htype.
    destruct (Hbounds n eq_refl) as [Hmin Hmax].
    cbn. unfold Zod.in_bounds.
    assert (H1 : match lo with Some l => l <=? n | None => true end = true).
    { destruct lo as [l|]; [|reflexivity]. cbn in Hlo.
      destruct minimum as [m|]; [|discriminate Hlo].
      specialize (Hmin m eq_refl). lia. }
    assert (H2 : match hi with Some h => n <=? h | None => true end = true).
    { destruct hi as [h|]; [|reflexivity]. cbn in Hhi.
      destruct maximum as [m|]; [|discriminate Hhi].
      specialize (Hmax m eq_refl). lia. }
    rewrite H1, H2. eexists; reflexivity.
  - apply is_type_eq in Hf. subst type.
    destruct j; try discriminate Htype. eexists; reflexivity.
  - eexists; reflexivity.
  - discriminate Hf.
  - destruct enum as [values|]; [|discriminate Hf].
    destruct (Henum values eq_refl) as (x & -> & Hx).
    rewrite forallb_forall in Hf. apply member_In in Hx.
    cbn. rewrite (Hf x Hx). eexists; reflexivity.
  - apply andb_true_iff in Hf. destruct Hf as [Hty Hf].
    apply is_type_eq in Hty. subst type.
    destruct items as [advertised|]; [|discriminate Hf].
    destruct j as [| | | |l|]; try discriminate Htype.
    specialize (Hitems advertised l eq_refl eq_refl).
    destruct (parse_array_succeeds item l) as [ys Hys]; [|eauto].
    apply Forall_forall. intros x Hx.
    apply (IH advertised x Hf).
    rewrite Forall_forall in Hitems. exact (Hitems x Hx).
  - apply andb_true_iff in Hf. destruct Hf as [Hty Hf].
    apply is_type_eq in Hty. subst type.
    destruct j as [| | | | |l]; try discriminate Htype.
    destruct (Hobj l eq_refl) as [Hprops Hreq].
    destruct (parse_object_succeeds shape l) as [ys Hys]; [|eauto].
    rewrite forallb_forall in Hf.
    rewrite Forall_forall in IH. apply Forall_forall.
    intros [k field] Hin. cbn [fst snd].
    specialize (Hf (k, field) (proj1 (list_elem_of_In _ _) Hin)).
    specialize (IH (k, field) Hin). cbn [fst snd] in Hf, IH.
    assert (Hplain :
      Zod.member k required &&
      existsb (fun property =>
                 String.eqb (fst property) k && follows field (snd property))
        properties = true ->
      exists out, Zod.parse field (assoc_last k l) = Some out).
    { intros H. apply andb_true_iff in H. destruct H as [Hk Hp].
      apply member_In in Hk. destruct (Hreq k Hk) as [v Hv'].
      destruct (property_follows k field properties Hp) as (sub & Hsub & Hfs).
      destruct (IH sub v Hfs (Hprops k sub v Hsub Hv')) as [out Hout].
      rewrite Hv'. eauto. }
    destruct field as [ | lo hi | | | | options | item | shape' | alts'
                      | inner | inner v]; try exact (Hplain Hf).
    + destruct (assoc_last k l) as [v|] eqn:Hv'; [|eexists; reflexivity].
      destruct (property_follows k inner properties Hf) as (sub & Hsub & Hfs).
      assert (Hfs' : follows (Zod.z_optional inner) sub = true)
        by (destruct sub; exact Hfs).
      destruct (IH sub v Hfs' (Hprops k sub v Hsub Hv')) as [out Hout]. eauto.
    + apply andb_true_iff in Hf. destruct Hf as [Hp Hdefault].
      destruct (assoc_last k l) as [v'|] eqn:Hv'.
      * destruct (property_follows k inner properties Hp) as (sub & Hsub & Hfs).
        assert (Hfs' : follows (Zod.z_default inner v) sub = true)
          by (destruct sub; exact Hfs).
        destruct (IH sub v' Hfs' (Hprops k sub v' Hsub Hv')) as [out Hout].
        eauto.
      * cbn. destruct (Zod.parse inner (Some v)) as [[out|]|];
          try discriminate Hdefault. eauto.
  - destruct (parse_union_succeeds alts (Some j)) as [out Hout].
    + apply existsb_exists in Hf. destruct Hf as (alt & Hin & Hfa).
      rewrite Forall_forall in IH.
      destruct (IH alt (proj2 (list_elem_of_In _ _) Hin) _ j Hfa Hv) as [out Hout].
      eauto.
    + destruct out as [out|]; [eauto|].
      destruct (ZodLaws.parse_defined _ _ _ Hout eq_refl).
  - cbn. exact (IH _ _ Hf Hv).
  - cbn. exact (IH _ _ Hf Hv).
Qed.

(** X22. A caller that follows the catalog.  For fourteen of the sixteen
    tools, every argument object that is valid for the tool's advertised
    input schema passes the schema the handler validates with.  The two
    others are [docs_update_content] and [sheets_format_cells]: each has
    arguments that are valid for the advertised schema and rejected by the
    handler (for [sheets_format_cells], a background colour without
    components, which the advertised schema does not require). *)
Theorem advertised_arguments_pass_validation :
  (forall (t : Tool) (args : json),
      t <> docs_update_content -> t <> sheets_format_cells ->
      valid (inputSchema t) args = true ->
      exists input, Zod.parse (schema_of t) (Some args) = Some (Some input)) /\
  (valid (inputSchema docs_update_content) Example.advertised_arguments = true /\
   Zod.parse (schema_of docs_update_content) (Some Example.advertised_arguments)
     = None) /\
  (valid (inputSchema sheets_format_cells) Scenario.colourless_format = true /\
   Zod.parse (schema_of sheets_format_cells) (Some Scenario.colourless_format)
     = None).
Proof.
  split; [|split; split; vm_compute; reflexivity].
  intros t args Hd Hs. apply follows_sound.
  destruct t; try contradiction; vm_compute; reflexivity.
Qed.

Lemma advertised_arguments_pass_validation_witness :
  exists input,
    Zod.parse (schema_of search) (Some (JObj [("query", JStr "report")]))
      = Some (Some input).
Proof.
  apply (proj1 advertised_arguments_pass_validation search);
    [discriminate | discriminate | vm_compute; reflexivity].
Defined.

End CatalogFacts.

(** ** Drive: file content and resources *)

Module DriveMore.
Import Js DriveFiles.



Section Decoding.
Variable utf8 : list Byte.byte -> string.
Variable base64 : list Byte.byte -> string.


Lemma after_prefix_append (prefix s : string) :
  after_prefix prefix (prefix +:+ s) = Some s.
Proof.
  induction prefix as [|a prefix IH]; [destruct s; reflexivity|].
  string_simpl. cbn. now rewrite Ascii.eqb_refl.
Qed.

Lemma replace_first_at (pattern by_ s rest : string) :
  after_prefix pattern s = Some rest -> replace_first pattern by_ s = by_ +:+ rest.
Proof. intros H. destruct s; cbn; rewrite H; reflexivity. Qed.

Lemma replace_first_prefix (prefix s : string) :
  replace_first prefix "" (prefix +:+ s) = s.
Proof.
  exact (replace_first_at prefix "" _ s (after_prefix_append prefix s)).
Qed.

(** X24. What is listed can be read.  The URI that [listResources] gives
    for a file with a string [id] is taken back to that [id] by
    [readResource], whatever characters the id has: reading it is
    [getFileContent] of the file, and the contents carry the same URI, the
    type that [getFileContent] returned, and its string or the base64
    encoding of its Buffer. *)
Theorem listed_resource_is_read_by_id :
  forall (api : Api) (file : json) (id : string),
    get file "id" = Some (JStr id) ->
    uri (resource_of file) = "gdrive:///" +:+ id /\
    snd (readResource utf8 base64 api (uri (resource_of file)))
      = snd (getFileContent utf8 api id) /\
    (forall e, fst (getFileContent utf8 api id) = Throw e ->
       fst (readResource utf8 base64 api (uri (resource_of file))) = Throw e) /\
    (forall read, fst (getFileContent utf8 api id) = Return read ->
       fst (readResource utf8 base64 api (uri (resource_of file)))
       = Return [{| rc_uri := "gdrive:///" +:+ id;
                    rc_mimeType := mimeType read;
                    rc_text := match content read with
                               | Text text => text
                               | Buffer bytes => base64 bytes
                               end |}]).
Proof.
  intros api file id Hid.
  assert (Huri : uri (resource_of file) = "gdrive:///" +:+ id).
  { unfold resource_of. cbn [uri]. rewrite Hid. reflexivity. }
  split; [exact Huri|]. rewrite Huri. unfold readResource.
  rewrite replace_first_prefix.
  destruct (getFileContent utf8 api id) as [[read|e] calls]; cbn [fst snd].
  - split; [reflexivity|]. split; [discriminate|].
    intros read' H. injection H as <-. reflexivity.
  - split; [reflexivity|]. split; [|discriminate].
    intros e' H. injection H as <-. reflexivity.
Qed.

End Decoding.

Lemma listed_resource_is_read_by_id_witness :
  fst (readResource Scenario.utf8 Scenario.base64 Scenario.text_drive
         (uri (resource_of Scenario.report)))
  = Return [{| rc_uri := "gdrive:///f1"; rc_mimeType := "text/plain";
               rc_text := "hi" |}].
Proof.
  pose proof (listed_resource_is_read_by_id Scenario.utf8 Scenario.base64
                Scenario.text_drive Scenario.report "f1" eq_refl)
    as (_ & _ & _ & Hread).
  exact (Hread {| mimeType := "text/plain"; content := Text "hi" |} eq_refl).
Defined.

End DriveMore.

(** ** Docs: the layout of a batch *)

Module DocsMore.
Import Js Docs DocsCreate DocsLayout.

Lemma inserted_length_text (location : Location) (text : string) :
  inserted_length (insertText location text) = JsString.length text.
Proof. cbn. destruct text; reflexivity. Qed.

Lemma fold_inserted (requests : list Request) (start : Z) :
  fold_left (fun i request => i + inserted_length request) requests start
  = start + (index_after requests - 1).
Proof.
  unfold index_after. revert start.
  induction requests as [|r rest IH]; intros start; cbn [fold_left]; [lia|].
  rewrite (IH (start + inserted_length r)), (IH (1 + inserted_length r)). lia.
Qed.

Lemma index_after_app (l1 l2 : list Request) :
  index_after (l1 ++ l2) = index_after l1 + (index_after l2 - 1).
Proof.
  unfold index_after at 1. rewrite fold_left_app.
  fold (index_after l1). apply fold_inserted.
Qed.

Lemma index_after_cons (r : Request) (l : list Request) :
  index_after (r :: l) = inserted_length r + index_after l.
Proof.
  change (r :: l) with ([r] ++ l). rewrite index_after_app.
  unfold index_after at 1. cbn. lia.
Qed.

Lemma in_step_app (index : Z) (l1 l2 : list Request) :
  in_step index (l1 ++ l2) <->
  in_step index l1 /\ in_step (index + (index_after l1 - 1)) l2.
Proof.
  revert index. induction l1 as [|r l1 IH]; intros index.
  - cbn. unfold index_after. cbn. replace (index + (1 - 1)) with index by lia.
    tauto.
  - cbn [app in_step]. rewrite IH, index_after_cons.
    replace (index + inserted_length r + (index_after l1 - 1))
      with (index + (inserted_length r + index_after l1 - 1)) by lia.
    tauto.
Qed.

(** In a list that is in step, each request points at the index after the
    requests before it. *)
Lemma in_step_at (index : Z) (requests before after : list Request)
    (request : Request) :
  in_step index requests ->
  requests = before ++ request :: after ->
  points_at (index + (index_after before - 1)) request.
Proof.
  intros Hstep ->. apply in_step_app in Hstep. destruct Hstep as [_ Hstep].
  exact (proj1 Hstep).
Qed.

(** The style requests of a run move no index, insert nothing, delete
    nothing, and end where the run ends. *)
Lemma styleRequests_facts (start finish : Z) (style : option Style) :
  in_step finish (styleRequests start finish style) /\
  index_after (styleRequests start finish style) = 1 /\
  inserted_texts (styleRequests start finish style) = [] /\
  forallb (fun r => negb (is_deletion r)) (styleRequests start finish style) = true.
Proof.
  unfold styleRequests. destruct style as [st|]; [|cbn; auto].
  destruct (applyTextStyle empty_TextStyle st) as [ts tf].
  destruct (applyParagraphStyle empty_ParagraphStyle st) as [ps pf].
  destruct (0 <? Z.of_nat (List.length tf));
    destruct (0 <? Z.of_nat (List.length pf)); cbn; repeat split; lia.
Qed.

(** The sections of a body, added from an index on. *)
Lemma addSections_spec (body : list DocumentSection) :
  forall (requests : list Request) (index : Z),
  exists added,
    addSections requests index body = requests ++ added /\
    in_step index added /\
    inserted_texts added = map text body /\
    forallb (fun r => negb (is_deletion r)) added = true /\
    (added = [] <-> body = []).
Proof.
  induction body as [|section rest IH]; intros requests index.
  - exists []. cbn. rewrite app_nil_r. tauto.
  - cbn [addSections].
    set (finish := index + JsString.length (text section)).
    destruct (styleRequests_facts index finish (style section))
      as (Hstep & Hafter & Htexts & Hdel).
    destruct (IH ((requests ++ [insertText (at_index index) (text section)]) ++
                  styleRequests index finish (style section)) finish)
      as (added & Heq & Hadded & Hat & Hnd & _).
    exists (insertText (at_index index) (text section) ::
            styleRequests index finish (style section) ++ added).
    split; [rewrite Heq, <- !app_assoc; reflexivity|].
    split; [|split; [|split; [|split; [discriminate|discriminate]]]].
    + cbn [in_step points_at]. split; [reflexivity|].
      rewrite inserted_length_text. fold finish.
      apply in_step_app. split; [exact Hstep|].
      rewrite Hafter. replace (finish + (1 - 1)) with finish by lia. exact Hadded.
    + cbn [inserted_texts flat_map]. fold (inserted_texts
        (styleRequests index finish (style section) ++ added)).
      unfold inserted_texts. rewrite flat_map_app.
      fold (inserted_texts (styleRequests index finish (style section))).
      fold (inserted_texts added). rewrite Htexts, Hat. reflexivity.
    + cbn [forallb is_deletion negb]. rewrite forallb_app, Hdel, Hnd. reflexivity.
Qed.

(** The index that the sections are added from is the one after the
    requests, and stays so section after section. *)
Lemma addSections_snoc (body : list DocumentSection) :
  forall (requests : list Request) (index : Z) (section : DocumentSection),
    index = index_after requests ->
    addSections requests index (body ++ [section])
    = let sofar := addSections requests index body in
      let start := index_after sofar in
      (sofar ++ [insertText (at_index start) (text section)]) ++
      styleRequests start (start + JsString.length (text section)) (style section).
Proof.
  induction body as [|first rest IH]; intros requests index section Hindex.
  - cbn [app addSections]. cbn zeta. rewrite <- Hindex. reflexivity.
  - cbn [app addSections]. apply IH.
    destruct (styleRequests_facts index (index + JsString.length (text first))
                (style first)) as (_ & Hafter & _).
    rewrite !index_after_app, Hafter, <- Hindex.
    unfold index_after at 1. cbn [fold_left]. rewrite inserted_length_text. lia.
Qed.

(** The style requests of a run, written out. *)
Lemma styleRequests_written_out (start finish : Z) (st : Style) :
  styleRequests start finish (Some st)
  = (if 0 <? Z.of_nat (List.length (snd (applyTextStyle empty_TextStyle st)))
     then [updateTextStyle {| startIndex := start; endIndex := finish |}
             (fst (applyTextStyle empty_TextStyle st))
             (JsString.join "," (snd (applyTextStyle empty_TextStyle st)))]
     else []) ++
    (if 0 <? Z.of_nat (List.length (snd (applyParagraphStyle empty_ParagraphStyle st)))
     then [updateParagraphStyle {| startIndex := start; endIndex := finish |}
             (fst (applyParagraphStyle empty_ParagraphStyle st))
             (JsString.join "," (snd (applyParagraphStyle empty_ParagraphStyle st)))]
     else []).
Proof.
  unfold styleRequests.
  destruct (applyTextStyle empty_TextStyle st) as [ts tf].
  destruct (applyParagraphStyle empty_ParagraphStyle st) as [ps pf].
  reflexivity.
Qed.

(** X26. The sections of a body follow each other.  [addBodyContentRequests]
    leaves the requests it was given in place and adds after them, for each
    section in order, the insertion of its text and its style requests.
    Each text is inserted in the body at the index reached so far: one more
    than the total length of the text inserted by all the requests before it
    (those that were given included); each style request ends at that
    index.  The texts inserted are the texts of the sections, in order.
    What one more section adds is written out: the insertion of its text at
    the index reached; then, when the section has a style, one text-style
    update if [applyTextStyle] names a field and one paragraph-style update
    if [applyParagraphStyle] names a field, both over the range of the text,
    with the style that was built and its fields joined by commas; and
    nothing else. *)
Theorem body_sections_follow_each_other :
  forall (requests : list Request) (body : list DocumentSection),
    (exists added,
      addBodyContentRequests requests body = requests ++ added /\
      inserted_texts added = map text body /\
      (forall before request after,
          added = before ++ request :: after ->
          points_at (index_after (requests ++ before)) request) /\
      (forall before location text after,
          added = before ++ insertText location text :: after ->
          location = at_index (index_after (requests ++ before)))) /\
    addBodyContentRequests requests [] = requests /\
    (forall section : DocumentSection,
      let sofar := addBodyContentRequests requests body in
      let start := index_after sofar in
      let finish := start + JsString.length (text section) in
      addBodyContentRequests requests (body ++ [section])
      = sofar ++
        insertText {| segmentId := None; index := start |} (text section) ::
        match style section with
        | None => []
        | Some st =>
            let textStyle := applyTextStyle empty_TextStyle st in
            let paragraphStyle := applyParagraphStyle empty_ParagraphStyle st in
            (if 0 <? Z.of_nat (List.length (snd textStyle))
             then [updateTextStyle {| startIndex := start; endIndex := finish |}
                     (fst textStyle) (JsString.join "," (snd textStyle))]
             else []) ++
            (if 0 <? Z.of_nat (List.length (snd paragraphStyle))
             then [updateParagraphStyle {| startIndex := start; endIndex := finish |}
                     (fst paragraphStyle) (JsString.join "," (snd paragraphStyle))]
             else [])
        end).
Proof.
  intros requests body. split; [|split; [reflexivity|]].
  - unfold addBodyContentRequests.
    destruct (addSections_spec body requests (index_after requests))
      as (added & Heq & Hstep & Htexts & _).
    exists added. split; [exact Heq|]. split; [exact Htexts|].
    assert (Hevery : forall before request after,
               added = before ++ request :: after ->
               points_at (index_after (requests ++ before)) request).
    { intros before request after Hsplit. rewrite index_after_app.
      exact (in_step_at _ added before after request Hstep Hsplit). }
    split; [exact Hevery|].
    intros before location text after Hsplit.
    exact (Hevery before (insertText location text) after Hsplit).
  - intros section. cbn zeta. unfold addBodyContentRequests.
    fold (index_after requests).
    rewrite (addSections_snoc body requests (index_after requests) section eq_refl).
    cbn zeta. rewrite <- app_assoc. cbn [app].
    apply (f_equal (app _)). apply (f_equal (cons _)).
    destruct (style section) as [st|]; [|reflexivity].
    apply styleRequests_written_out.
Qed.

(** A body of two sections after a cover-less start: the second text goes
    in after the first, and its bold run is styled over its own range. *)
Lemma body_sections_follow_each_other_witness :
  addBodyContentRequests []
    [{| text := "Hello"; style := None |};
     {| text := "World"; style := Some bold_only |}]
  = [insertText {| segmentId := None; index := 1 |} "Hello";
     insertText {| segmentId := None; index := 6 |} "World";
     updateTextStyle {| startIndex := 6; endIndex := 11 |} bold_TextStyle "bold"].
Proof.
  exact (proj2 (proj2 (body_sections_follow_each_other
                         [] [{| text := "Hello"; style := None |}]))
           {| text := "World"; style := Some bold_only |}).
Defined.

Lemma length_with (s t : string) :
  JsString.length (s +:+ t) = JsString.length s + JsString.length t.
Proof.
  unfold JsString.length. rewrite JsonFacts.length_append. lia.
Qed.

Lemma length_nl : JsString.length nl = 1.
Proof. reflexivity. Qed.

(** The requests that a cover page adds. *)
Lemma addCoverPageRequests_spec (requests : list Request) (cover : CoverPage) :
  exists added,
    addCoverPageRequests requests cover = requests ++ added /\
    in_step 1 added /\
    last added = Some (insertPageBreak (at_index (index_after added))) /\
    forallb (fun r => negb (is_deletion r)) added = true /\
    added <> [].
Proof.
  unfold addCoverPageRequests. cbn zeta.
  destruct (nonempty (subtitle cover)) as [sub|];
    destruct (nonempty (date cover)) as [d|]; cbn zeta.
  all: rewrite <- ?app_assoc; cbn [app].
  all: eexists; split; [reflexivity|].
  all: split; [|split; [|split; [reflexivity|discriminate]]].
  all: unfold index_after.
  all: cbn [in_step points_at fold_left last endIndex].
  all: rewrite ?inserted_length_text, ?length_with, ?length_nl.
  all: cbn [inserted_length].
  all: repeat split; try lia.
  all: match goal with
       | |- at_index ?a = at_index ?b => replace b with a by lia; reflexivity
       | |- Some (insertPageBreak (at_index ?a))
            = Some (insertPageBreak (at_index ?b)) =>
           replace b with a by lia; reflexivity
       end.
Qed.



(** *** Field masks *)

Lemma In_when (x y : string) (c : bool) :
  In x (if c then [y] else []) <-> c = true /\ y = x.
Proof. destruct c; cbn; intuition discriminate. Qed.

Lemma sublist_when (c : bool) (x : string) (l names : list string) :
  sublist l names -> sublist ((if c then [x] else []) ++ l) (x :: names).
Proof.
  intros H. destruct c; cbn; [apply sublist_skip|apply sublist_cons]; exact H.
Qed.

Lemma present_some {A} (o : option A) : present o = true <-> o <> None.
Proof. destruct o; cbn; intuition congruence. Qed.




(** *** Whole batches *)

Lemma addHeaderRequests_spec (requests : list Request) (h : Headers) :
  exists added,
    addHeaderRequests requests h = requests ++ added /\
    forallb (fun r => negb (is_deletion r)) added = true /\ added <> [].
Proof.
  unfold addHeaderRequests. cbn zeta.
  destruct (nonempty (default h)) as [d|];
    destruct (nonempty (firstPage h)) as [f|];
    rewrite <- ?app_assoc; cbn [app]; eexists;
    (split; [reflexivity|]); (split; [reflexivity|discriminate]).
Qed.

Lemma addFooterRequests_spec (requests : list Request) (f : string) :
  exists added,
    addFooterRequests requests f = requests ++ added /\
    forallb (fun r => negb (is_deletion r)) added = true /\ added <> [].
Proof.
  unfold addFooterRequests. eexists.
  split; [reflexivity|]. split; [reflexivity|discriminate].
Qed.

Lemma addBodyContentRequests_spec (requests : list Request)
    (body : list DocumentSection) :
  exists added,
    addBodyContentRequests requests body = requests ++ added /\
    forallb (fun r => negb (is_deletion r)) added = true /\
    (added = [] <-> body = []).
Proof.
  unfold addBodyContentRequests.
  destruct (addSections_spec body requests
              (fold_left (fun i request => i + inserted_length request) requests 1))
    as (added & Heq & _ & _ & Hdel & Hnil).
  eauto.
Qed.

(** The requests of a full content descriptor, added to [requests]. *)
Lemma full_content_spec (requests : list Request) (c : DocumentContent) :
  exists added,
    match body c with
    | Some b =>
        addBodyContentRequests
          (match nonempty (footer c) with
           | Some f =>
               addFooterRequests
                 (match headers c with
                  | Some h =>
                      addHeaderRequests
                        (match coverPage c with
                         | Some cp => addCoverPageRequests requests cp
                         | None => requests
                         end) h
                  | None =>
                      match coverPage c with
                      | Some cp => addCoverPageRequests requests cp
                      | None => requests
                      end
                  end) f
           | None =>
               match headers c with
               | Some h =>
                   addHeaderRequests
                     (match coverPage c with
                      | Some cp => addCoverPageRequests requests cp
                      | None => requests
                      end) h
               | None =>
                   match coverPage c with
                   | Some cp => addCoverPageRequests requests cp
                   | None => requests
                   end
               end
           end) b
    | None =>
        match nonempty (footer c) with
        | Some f =>
            addFooterRequests
              (match headers c with
               | Some h =>
                   addHeaderRequests
                     (match coverPage c with
                      | Some cp => addCoverPageRequests requests cp
                      | None => requests
                      end) h
               | None =>
                   match coverPage c with
                   | Some cp => addCoverPageRequests requests cp
                   | None => requests
                   end
               end) f
        | None =>
            match headers c with
            | Some h =>
                addHeaderRequests
                  (match coverPage c with
                   | Some cp => addCoverPageRequests requests cp
                   | None => requests
                   end) h
            | None =>
                match coverPage c with
                | Some cp => addCoverPageRequests requests cp
                | None => requests
                end
            end
        end
    end = requests ++ added /\
    forallb (fun r => negb (is_deletion r)) added = true /\
    (added = [] <->
     coverPage c = None /\ headers c = None /\ nonempty (footer c) = None /\
     (body c = None \/ body c = Some [])).
Proof.
  assert (H1 : exists a1,
             match coverPage c with
             | Some cp => addCoverPageRequests requests cp
             | None => requests
             end = requests ++ a1 /\
             forallb (fun r => negb (is_deletion r)) a1 = true /\
             (a1 = [] <-> coverPage c = None)).
  { destruct (coverPage c) as [cp|].
    - destruct (addCoverPageRequests_spec requests cp)
        as (a & Heq & _ & _ & Hdel & Hne).
      exists a. split; [exact Heq|]. split; [exact Hdel|].
      split; [contradiction|discriminate].
    - exists []. rewrite app_nil_r. tauto. }
  destruct H1 as (a1 & -> & Hd1 & Hn1).
  assert (H2 : exists a2,
             match headers c with
             | Some h => addHeaderRequests (requests ++ a1) h
             | None => requests ++ a1
             end = requests ++ a2 /\
             forallb (fun r => negb (is_deletion r)) a2 = true /\
             (a2 = [] <-> a1 = [] /\ headers c = None)).
  { destruct (headers c) as [h|].
    - destruct (addHeaderRequests_spec (requests ++ a1) h) as (a & Heq & Hdel & Hne).
      exists (a1 ++ a). rewrite Heq, app_assoc. split; [reflexivity|].
      rewrite forallb_app, Hd1, Hdel. split; [reflexivity|].
      split; [|intros [_ H]; discriminate H].
      intros H. apply app_eq_nil in H. destruct H as [_ H]. contradiction.
    - exists a1. split; [reflexivity|]. split; [exact Hd1|]. tauto. }
  destruct H2 as (a2 & -> & Hd2 & Hn2).
  assert (H3 : exists a3,
             match nonempty (footer c) with
             | Some f => addFooterRequests (requests ++ a2) f
             | None => requests ++ a2
             end = requests ++ a3 /\
             forallb (fun r => negb (is_deletion r)) a3 = true /\
             (a3 = [] <-> a2 = [] /\ nonempty (footer c) = None)).
  { destruct (nonempty (footer c)) as [f|].
    - destruct (addFooterRequests_spec (requests ++ a2) f) as (a & Heq & Hdel & Hne).
      exists (a2 ++ a). rewrite Heq, app_assoc. split; [reflexivity|].
      rewrite forallb_app, Hd2, Hdel. split; [reflexivity|].
      split; [|intros [_ H]; discriminate H].
      intros H. apply app_eq_nil in H. destruct H as [_ H]. contradiction.
    - exists a2. split; [reflexivity|]. split; [exact Hd2|]. tauto. }
  destruct H3 as (a3 & -> & Hd3 & Hn3).
  destruct (body c) as [b|].
  - destruct (addBodyContentRequests_spec (requests ++ a3) b)
      as (a & Heq & Hdel & Hnil).
    exists (a3 ++ a). rewrite Heq, app_assoc. split; [reflexivity|].
    rewrite forallb_app, Hd3, Hdel. split; [reflexivity|].
    split.
    + intros H. apply app_eq_nil in H. destruct H as [H3 H4].
      apply Hnil in H4. subst b. tauto.
    + intros (Hc & Hh & Hf & [Hb|Hb]); [discriminate Hb|].
      injection Hb as ->.
      assert (a3 = []) as -> by tauto.
      assert (a = []) as -> by tauto. reflexivity.
  - exists a3. split; [reflexivity|]. split; [exact Hd3|].
    split; [intros H; tauto|].
    intros (Hc & Hh & Hf & _). tauto.
Qed.


(** X29. Every batch of [updateDocument] starts with the one deletion.  For
    the three kinds of content (a string, a section, a full descriptor with
    cover page, headers, footer and body) the first request deletes the
    range from 1 to the end index of the document that was read, and no
    other request of the batch is a deletion; the batch is sent once, after
    the document was read, and not at all when reading it fails.  The end
    index of a document is the one of the last element of its body; it is 1
    when that element has no end index or the end index 0, and when the
    document has no body, no content or no element. *)
Theorem updateDocument_deletes_first_and_once :
  forall (api : Docs.Api) (input : UpdateDocContentInput),
    (forall (elements : list StructuralElement) (e : StructuralElement),
       lastEndIndex {| doc_body := Some {| Docs.content := Some (elements ++ [e]) |} |}
       = match se_endIndex e with
         | Some n => if n =? 0 then 1 else n
         | None => 1
         end) /\
    (forall doc : Document,
       doc_body doc = None \/
       doc_body doc = Some {| Docs.content := None |} \/
       doc_body doc = Some {| Docs.content := Some [] |} ->
       lastEndIndex doc = 1) /\
    (forall doc, get api (document_id input) = Return doc ->
       exists rest,
         updateDocument api input
         = (Docs.batchUpdate api (document_id input)
              (deleteContentRange
                 {| startIndex := 1; endIndex := lastEndIndex doc |} :: rest),
            [documents_get (document_id input);
             Docs.documents_batchUpdate (document_id input)
               (deleteContentRange
                  {| startIndex := 1; endIndex := lastEndIndex doc |} :: rest)]) /\
         forallb (fun r => negb (is_deletion r)) rest = true) /\
    (forall e, get api (document_id input) = Throw e ->
       updateDocument api input = (Throw e, [documents_get (document_id input)])).
Proof.
  intros api input.
  split; [exact DocsFacts.lastEndIndex_last|].
  split; [exact DocsFacts.lastEndIndex_without_elements|].
  split.
  - intros doc Hdoc. unfold updateDocument. rewrite Hdoc.
    assert (H : exists rest,
               updateDocument_requests doc (input_content input)
               = deleteContentRange
                   {| startIndex := 1; endIndex := lastEndIndex doc |} :: rest /\
               forallb (fun r => negb (is_deletion r)) rest = true).
    { unfold updateDocument_requests.
      destruct (input_content input) as [s|section|full]; cbn zeta.
      - eexists. split; reflexivity.
      - destruct (styleRequests_facts 1 (JsString.length (text section) + 1)
                    (style section)) as (_ & _ & _ & Hdel).
        eexists. split; [reflexivity|]. cbn [forallb is_deletion negb].
        exact Hdel.
      - destruct (full_content_spec
                    [deleteContentRange
                       {| startIndex := 1; endIndex := lastEndIndex doc |}] full)
          as (added & Heq & Hdel & _).
        exists added. split; [|exact Hdel].
        cbn [app] in Heq.
        rewrite <- Heq. destruct (body full); destruct (nonempty (footer full));
          destruct (headers full); destruct (coverPage full); reflexivity. }
    destruct H as (rest & Heq & Hdel). exists rest. rewrite Heq. auto.
  - intros e He. unfold updateDocument. rewrite He. reflexivity.
Qed.

(** X25. [createDocument] creates the document and then sends one batch
    update, or none.  The batch is sent exactly when the input has a content
    descriptor with a cover page, headers, a footer that is not empty or a
    body with at least one section; an empty batch is never sent.  The
    identifier is returned only after the batch succeeded: when the batch
    fails the error is passed on, and the document that was created stays
    behind. *)
Theorem createDocument_sends_one_batch_or_none :
  forall (api : DocsCreate.Api) (input : CreateDocInput) (id : option string),
    create api (title input) = Return id ->
    let outcome := fst (createDocument api input) in
    let calls := snd (createDocument api input) in
    (calls = [documents_create (title input)] /\ outcome = Return id \/
     exists requests,
       requests <> [] /\
       calls = [documents_create (title input);
                documents_batchUpdate id requests] /\
       outcome = match DocsCreate.batchUpdate api id requests with
                 | Return _ => Return id
                 | Throw e => Throw e
                 end) /\
    (calls = [documents_create (title input)] <->
     forall c, content input = Some c ->
       coverPage c = None /\ headers c = None /\ nonempty (footer c) = None /\
       (body c = None \/ body c = Some [])).
Proof.
  intros api input id Hcreate. cbn zeta. unfold createDocument. rewrite Hcreate.
  destruct (content input) as [c|]; cbn [fst snd].
  2:{ split; [left; split; reflexivity|]. split; [discriminate|reflexivity]. }
  unfold updateDocumentContent.
  assert (H : exists added,
             updateDocumentContent_requests c = added /\
             (added = [] <->
              coverPage c = None /\ headers c = None /\
              nonempty (footer c) = None /\
              (body c = None \/ body c = Some []))).
  { destruct (full_content_spec [] c) as (added & Heq & _ & Hnil).
    exists added. split; [|exact Hnil].
    cbn [app] in Heq. rewrite <- Heq. unfold updateDocumentContent_requests.
    destruct (body c); destruct (nonempty (footer c));
      destruct (headers c); destruct (coverPage c); reflexivity. }
  destruct H as (added & -> & Hnil).
  destruct added as [|r rest]; cbn [List.length fst snd].
  - cbn. split; [left; split; reflexivity|].
    split; [|reflexivity].
    intros _ c' Hc. injection Hc as <-. apply Hnil. reflexivity.
  - assert (Hpos : (0 <? Z.of_nat (S (List.length rest))) = true)
      by (apply Z.ltb_lt; lia).
    rewrite Hpos. cbn [fst snd].
    split.
    + right. exists (r :: rest). split; [discriminate|]. split; reflexivity.
    + split; [discriminate|].
      intros H. specialize (H c eq_refl). apply Hnil in H. discriminate H.
Qed.


(** One name of a mask, for the field read from [o]. *)
Ltac mask_on o :=
  destruct o; cbn;
  (split;
   [ let H := fresh "H" in
     let Hc := fresh "Hc" in
     let Heq := fresh "Heq" in
     intros H; repeat (destruct H as [H|H]); destruct H as [Hc Heq];
     try discriminate Heq; try discriminate Hc; discriminate
   | let H := fresh "H" in
     intros H; try congruence;
     repeat (first [left; split; reflexivity | right]); split; reflexivity ]).

(** X30. The field mask of a paragraph style names what was set.  For every
    style descriptor, the names that [applyParagraphStyle] returns for an
    empty paragraph style are distinct, and each of the twelve names is in
    the list exactly when the field of that name is set in the paragraph
    style.  Unlike the flags of a text style, the three flags of a
    paragraph are named and set whenever they are given, also when they are
    false. *)
Theorem paragraph_style_mask_names_what_is_set :
  forall (style : Style),
    let paragraphStyle := fst (applyParagraphStyle empty_ParagraphStyle style) in
    let fields := snd (applyParagraphStyle empty_ParagraphStyle style) in
    NoDup fields /\
    (In "alignment" fields <-> ps_alignment paragraphStyle <> None) /\
    (In "lineSpacing" fields <-> ps_lineSpacing paragraphStyle <> None) /\
    (In "spaceAbove" fields <-> ps_spaceAbove paragraphStyle <> None) /\
    (In "spaceBelow" fields <-> ps_spaceBelow paragraphStyle <> None) /\
    (In "indentStart" fields <-> ps_indentStart paragraphStyle <> None) /\
    (In "indentEnd" fields <-> ps_indentEnd paragraphStyle <> None) /\
    (In "indentFirstLine" fields <-> ps_indentFirstLine paragraphStyle <> None) /\
    (In "direction" fields <-> ps_direction paragraphStyle <> None) /\
    (In "keepLinesTogether" fields <-> ps_keepLinesTogether paragraphStyle <> None) /\
    (In "keepWithNext" fields <-> ps_keepWithNext paragraphStyle <> None) /\
    (In "pageBreakBefore" fields <-> ps_pageBreakBefore paragraphStyle <> None) /\
    (In "namedStyleType" fields <-> ps_namedStyleType paragraphStyle <> None) /\
    ps_keepLinesTogether paragraphStyle = keepLinesTogether style /\
    ps_keepWithNext paragraphStyle = keepWithNext style /\
    ps_pageBreakBefore paragraphStyle = pageBreakBefore style.
Proof.
  intros style. cbn zeta. unfold applyParagraphStyle.
  cbn [fst snd ps_alignment ps_lineSpacing ps_spaceAbove ps_spaceBelow
       ps_indentStart ps_indentEnd ps_indentFirstLine ps_direction
       ps_keepLinesTogether ps_keepWithNext ps_pageBreakBefore
       ps_namedStyleType empty_ParagraphStyle].
  split.
  { apply (sublist_NoDup _ ["alignment"; "lineSpacing"; "spaceAbove";
                            "spaceBelow"; "indentStart"; "indentEnd";
                            "indentFirstLine"; "direction"; "keepLinesTogether";
                            "keepWithNext"; "pageBreakBefore"; "namedStyleType"]).
    - apply (bool_decide_unpack _). vm_compute. exact I.
    - repeat apply sublist_when.
      destruct (present (heading style));
        [apply sublist_skip|apply sublist_cons]; constructor. }
  rewrite !in_app_iff, !In_when. unfold or_old, dimension_of, option_map.
  split; [mask_on (alignment style)|].
  split; [mask_on (nonzero (lineSpacing style))|].
  split; [mask_on (nonzero (spaceAbove style))|].
  split; [mask_on (nonzero (spaceBelow style))|].
  split; [mask_on (nonzero (indentStart style))|].
  split; [mask_on (nonzero (indentEnd style))|].
  split; [mask_on (nonzero (indentFirstLine style))|].
  split; [mask_on (direction style)|].
  split; [mask_on (keepLinesTogether style)|].
  split; [mask_on (keepWithNext style)|].
  split; [mask_on (pageBreakBefore style)|].
  split; [mask_on (heading style)|].
  split; [|split].
  - destruct (keepLinesTogether style); reflexivity.
  - destruct (keepWithNext style); reflexivity.
  - destruct (pageBreakBefore style); reflexivity.
Qed.

Lemma createDocument_sends_one_batch_or_none_witness :
  createDocument Scenario.docs_api Scenario.hello_document
  = (Return (Some "doc-1"),
     [documents_create "Report";
      documents_batchUpdate (Some "doc-1") [insertText (at_index 1) "Hello"]]).
Proof.
  pose proof (createDocument_sends_one_batch_or_none Scenario.docs_api
                Scenario.hello_document (Some "doc-1") eq_refl)
    as [[[Hcalls _]|(requests & _ & Hcalls & Houtcome)] _].
  - discriminate Hcalls.
  - vm_compute in Hcalls. injection Hcalls as <-.
    vm_compute in Houtcome. vm_compute. reflexivity.
Defined.

End DocsMore.

